(** * Verified-scheduling post-processing tools: [wrap.py] and [replace_calloc.py]

    A shallow embedding of the two Python tools that post-process the
    generated C kernels: the allocation rewriter ([replace_calloc.py]) and the
    specialising wrapper generator ([wrap.py]).

    Python [str] values are embedded as lists of characters.  The embedding is
    exact on ASCII text (character codes below 128), which is what the
    generated C sources contain; Unicode-only behaviour of the character
    classes is outside the model. *)

From Stdlib Require Import Ascii String.
From Stdlib Require Import List ZArith NArith Bool Lia Arith Btauto.
From Stdlib Require Import Floats.
Import ListNotations.

Set Warnings "-register-all".

Local Open Scope list_scope.

(** ** Text *)

Definition text := list ascii.

Definition T (s : string) : text := list_ascii_of_string s.

Definition code (c : ascii) : nat := nat_of_ascii c.

Definition text_eqb (a b : text) : bool :=
  if list_eq_dec ascii_dec a b then true else false.

(** Character classes of Python's [re] and [str] on ASCII. *)
Definition is_digit (c : ascii) : bool :=
  (48 <=? code c) && (code c <=? 57).

Definition is_upper (c : ascii) : bool :=
  (65 <=? code c) && (code c <=? 90).

Definition is_lower (c : ascii) : bool :=
  (97 <=? code c) && (code c <=? 122).

(** [\w] *)
Definition is_word (c : ascii) : bool :=
  is_digit c || is_upper c || is_lower c || (code c =? 95).

(** [\s], and the characters removed by [str.strip()] *)
Definition is_space (c : ascii) : bool :=
  ((9 <=? code c) && (code c <=? 13))
  || ((28 <=? code c) && (code c <=? 31))
  || (code c =? 32).

Definition is_char (x : ascii) (c : ascii) : bool := Ascii.eqb c x.

Definition not_char (x : ascii) (c : ascii) : bool := negb (Ascii.eqb c x).

(** [str.strip()] *)
Fixpoint lstrip (s : text) : text :=
  match s with
  | c :: s' => if is_space c then lstrip s' else s
  | [] => []
  end.

Definition rstrip (s : text) : text := rev (lstrip (rev s)).

Definition strip (s : text) : text := rstrip (lstrip s).

(** The blanks of C's [isspace], the ones [int()] skips around an ASCII
    text: tab, line feed, vertical tab, form feed, carriage return, space. *)
Definition is_c_space (c : ascii) : bool :=
  ((9 <=? code c) && (code c <=? 13)) || (code c =? 32).

Fixpoint lstrip_c (s : text) : text :=
  match s with
  | c :: s' => if is_c_space c then lstrip_c s' else s
  | [] => []
  end.

Definition strip_c (s : text) : text := rev (lstrip_c (rev (lstrip_c s))).

(** A non-empty run of word characters: a C identifier as the patterns
    read it, and a name that stands for itself inside a regular
    expression. *)
Definition identifier (name : text) : bool :=
  match name with
  | [] => false
  | _ :: _ => forallb is_word name
  end.

(** [str.lower()] *)
Definition lower_char (c : ascii) : ascii :=
  if is_upper c then ascii_of_nat (code c + 32) else c.

Definition lower (s : text) : text := map lower_char s.

(** [s.startswith(p)] *)
Fixpoint startswith (p s : text) : bool :=
  match p, s with
  | [], _ => true
  | x :: p', c :: s' => Ascii.eqb x c && startswith p' s'
  | _ :: _, [] => false
  end.

(** [p in s] for strings *)
Fixpoint contains (p s : text) : bool :=
  startswith p s ||
  match s with
  | [] => false
  | _ :: s' => contains p s'
  end.

(** [s.endswith(p)] *)
Definition endswith (p s : text) : bool := startswith (rev p) (rev s).

(** [s.count(c)] for a one-character needle *)
Definition count_char (x : ascii) (s : text) : nat :=
  length (filter (is_char x) s).

(** [sep.join(parts)] *)
Fixpoint join (sep : text) (parts : list text) : text :=
  match parts with
  | [] => []
  | [p] => p
  | p :: rest => p ++ sep ++ join sep rest
  end.

(** [str(n)] for a Python [int] *)
Definition digit_char (d : nat) : ascii := ascii_of_nat (48 + d).

Fixpoint digits_of_pos_fuel (fuel : nat) (n : N) (acc : text) : text :=
  match fuel with
  | O => acc
  | S f =>
      let acc' := digit_char (N.to_nat (n mod 10)) :: acc in
      if (n / 10 =? 0)%N then acc' else digits_of_pos_fuel f (n / 10)%N acc'
  end.

Definition str_of_N (n : N) : text :=
  digits_of_pos_fuel (S (N.to_nat (N.log2 n))) n [].

Definition str_of_int (z : Z) : text :=
  match z with
  | Z0 => T "0"
  | Zpos p => str_of_N (Npos p)
  | Zneg p => "-"%char :: str_of_N (Npos p)
  end.

(** ** A backtracking regular-expression engine

    The fragment of Python's [re] syntax the two tools use: literals,
    character classes, greedy [*] and [+] over a character class,
    concatenation, alternation, numbered capture groups, [\b] and the two
    look-aheads.  Matching is by backtracking with the priorities of [re]:
    the first alternative first, the longest repetition first. *)

Inductive regex : Type :=
| REps
| RChar (c : ascii)
| RClass (p : ascii -> bool)
| RSeq (r1 r2 : regex)
| RAlt (r1 r2 : regex)
| RStar (p : ascii -> bool)
| RPlus (p : ascii -> bool)
| RGroup (n : nat) (r : regex)
| RWordB
| RAhead (r : regex)
| RNotAhead (r : regex).

Definition captures := list (nat * text).

Fixpoint group (n : nat) (caps : captures) : text :=
  match caps with
  | [] => []
  | (m, t) :: rest => if Nat.eqb m n then t else group n rest
  end.

(** A literal string as a pattern. *)
Fixpoint RLit (s : text) : regex :=
  match s with
  | [] => REps
  | [c] => RChar c
  | c :: s' => RSeq (RChar c) (RLit s')
  end.

Fixpoint RCat (rs : list regex) : regex :=
  match rs with
  | [] => REps
  | [r] => r
  | r :: rs' => RSeq r (RCat rs')
  end.

Definition is_word_opt (o : option ascii) : bool :=
  match o with Some c => is_word c | None => false end.

(** [\b]: exactly one of the two neighbouring positions holds a word
    character. *)
Definition at_boundary (prev : option ascii) (s : text) : bool :=
  xorb (is_word_opt prev) (is_word_opt (hd_error s)).

Section Matcher.
Variable R : Type.

(** Greedy repetition of a character class, longest first. *)
Fixpoint star (p : ascii -> bool) (prev : option ascii) (s : text)
         (caps : captures)
         (k : option ascii -> text -> captures -> option R) : option R :=
  match s with
  | c :: s' =>
      if p c then
        match star p (Some c) s' caps k with
        | Some r => Some r
        | None => k prev s caps
        end
      else k prev s caps
  | [] => k prev s caps
  end.
End Matcher.

Arguments star {R} p prev s caps k.

Fixpoint rmatch (r : regex) (R : Type) (prev : option ascii) (s : text)
         (caps : captures)
         (k : option ascii -> text -> captures -> option R) : option R :=
  match r with
  | REps => k prev s caps
  | RChar c =>
      match s with
      | x :: s' => if Ascii.eqb x c then k (Some x) s' caps else None
      | [] => None
      end
  | RClass p =>
      match s with
      | x :: s' => if p x then k (Some x) s' caps else None
      | [] => None
      end
  | RSeq r1 r2 =>
      rmatch r1 R prev s caps
             (fun prev' s' caps' => rmatch r2 R prev' s' caps' k)
  | RAlt r1 r2 =>
      match rmatch r1 R prev s caps k with
      | Some x => Some x
      | None => rmatch r2 R prev s caps k
      end
  | RStar p => star p prev s caps k
  | RPlus p =>
      match s with
      | x :: s' => if p x then star p (Some x) s' caps k else None
      | [] => None
      end
  | RGroup n r1 =>
      rmatch r1 R prev s caps
             (fun prev' s' caps' =>
                k prev' s' ((n, firstn (length s - length s') s) :: caps'))
  | RWordB => if at_boundary prev s then k prev s caps else None
  | RAhead r1 =>
      match rmatch r1 unit prev s caps (fun _ _ _ => Some tt) with
      | Some _ => k prev s caps
      | None => None
      end
  | RNotAhead r1 =>
      match rmatch r1 unit prev s caps (fun _ _ _ => Some tt) with
      | Some _ => None
      | None => k prev s caps
      end
  end.

(** A match anchored at the current position: the text after the match and
    the captured groups. *)
Definition match_at (r : regex) (prev : option ascii) (s : text)
  : option (text * captures) :=
  rmatch r (text * captures) prev s [] (fun _ s' caps => Some (s', caps)).

(** [re.search]: the leftmost match; the text before it, the matched text,
    the text after it and the groups. *)
Fixpoint search_from (r : regex) (prev : option ascii) (before : text)
         (s : text) : option (text * text * text * captures) :=
  match match_at r prev s with
  | Some (rest, caps) =>
      Some (rev before, firstn (length s - length rest) s, rest, caps)
  | None =>
      match s with
      | [] => None
      | c :: s' => search_from r (Some c) (c :: before) s'
      end
  end.

Definition re_search (r : regex) (s : text) := search_from r None [] s.

(** [re.sub(pattern, callback, s)] with a callback that may update a state
    (the [stats] dictionary of the rewriter).  Matches are taken leftmost
    first and do not overlap; [skip] counts the characters of the current
    match that are still to be passed over. *)
Section Sub.
Variable St : Type.
Variable r : regex.
Variable f : St -> text -> captures -> text * St.

Fixpoint sub_loop (prev : option ascii) (s : text) (skip : nat) (st : St)
  : text * St :=
  match s with
  | [] =>
      match skip, match_at r prev [] with
      | O, Some (_, caps) => f st [] caps
      | _, _ => ([], st)
      end
  | c :: s' =>
      match skip with
      | S n => sub_loop (Some c) s' n st
      | O =>
          match match_at r prev s with
          | Some (rest, caps) =>
              match length s - length rest with
              | O =>
                  let '(rep, st1) := f st [] caps in
                  let '(out, st2) := sub_loop (Some c) s' 0 st1 in
                  (rep ++ c :: out, st2)
              | S m =>
                  let '(rep, st1) := f st (firstn (S m) s) caps in
                  let '(out, st2) := sub_loop (Some c) s' m st1 in
                  (rep ++ out, st2)
              end
          | None =>
              let '(out, st1) := sub_loop (Some c) s' 0 st in
              (c :: out, st1)
          end
      end
  end.

Definition re_sub_st (s : text) (st : St) : text * St :=
  sub_loop None s 0 st.
End Sub.

Arguments sub_loop {St} r f prev s skip st.
Arguments re_sub_st {St} r f s st.

(** [re.sub] with a pure callback or a replacement template. *)
Definition re_sub (r : regex) (f : text -> captures -> text) (s : text) : text :=
  fst (re_sub_st r (fun (st : unit) m caps => (f m caps, st)) s tt).

(** [re.sub] whose callback asks the interpreter: [calls] counts the calls
    of [eval] made so far, and the result is [None] as soon as one call gets
    no answer. *)
Definition ask (f : nat -> text -> captures -> option text)
           (st : option nat) (m : text) (caps : captures)
  : text * option nat :=
  match st with
  | Some n =>
      match f n m caps with
      | Some t => (t, Some (S n))
      | None => (m, None)
      end
  | None => (m, None)
  end.

Definition re_sub_eval (r : regex)
           (f : nat -> text -> captures -> option text)
           (s : text) (calls : nat) : option (text * nat) :=
  let '(out, st) := re_sub_st r (ask f) s (Some calls) in
  option_map (fun n => (out, n)) st.

(** ** Python's [eval(expr, {"__builtins__": {}}, {})]

    [wrap.py] folds constants by handing text to the interpreter's own
    [eval], with an empty table of builtins and no variables.  The embedding
    covers the interpreter on the following fragment of Python expressions:
    decimal integer literals, identifiers, parentheses, blanks and the
    operators [+ - * / // % **].  Its answer has three forms: the value
    returned, [Raise] when the interpreter raises (whatever the exception: the
    callers catch them all), and [Unmodelled] when the text leaves the
    fragment or the interpreter's answer is not tracked here.  [Unmodelled]
    never stands for a definite answer: the folder, which meets it, is
    embedded over the answers an interpreter may give there. *)

Inductive binop : Type :=
| Add | Sub | Mul | TrueDiv | FloorDiv | Mod | Pow.

Inductive token : Type :=
| TNum (n : Z)
| TName (s : text)
| TOp (o : binop)
| TLParen
| TRParen.

Inductive lex_result : Type :=
| Lexed (ts : list token)
| LexError
| LexUnmodelled.

(** Reserved words, and the two names bound even without builtins: the
    interpreter does not treat them as free identifiers. *)
Definition reserved_words : list text :=
  map T [ "False"; "None"; "True"; "and"; "as"; "assert"; "async"; "await";
          "break"; "class"; "continue"; "def"; "del"; "elif"; "else";
          "except"; "finally"; "for"; "from"; "global"; "if"; "import"; "in";
          "is"; "lambda"; "nonlocal"; "not"; "or"; "pass"; "raise"; "return";
          "try"; "while"; "with"; "yield"; "__builtins__"; "__debug__" ]%string.

Definition is_reserved (n : text) : bool := existsb (text_eqb n) reserved_words.

Definition is_name_start (c : ascii) : bool :=
  is_upper c || is_lower c || (code c =? 95).

Definition digit_value (c : ascii) : Z := Z.of_nat (code c - 48).

(** Value of a run of decimal digits. *)
Definition int_of_digits (ds : text) : Z :=
  fold_left (fun acc c => 10 * acc + digit_value c)%Z ds 0%Z.

(** A literal with a leading zero is a syntax error unless it is all zeros. *)
Definition bad_leading_zero (ds : text) : bool :=
  match ds with
  | c :: _ :: _ => Ascii.eqb c "0" && negb (forallb (is_char "0") ds)
  | _ => false
  end.

(** The token being read: accumulators hold the characters in reverse. *)
Inductive pending : Type :=
| PNone
| PNum (ds : text)
| PName (cs : text)
| PStar
| PSlash.

Definition close_pending (p : pending) : lex_result :=
  match p with
  | PNone => Lexed []
  | PNum ds =>
      let d := rev ds in
      if bad_leading_zero d then LexError
      else if 4300 <? length d then LexUnmodelled
      else Lexed [TNum (int_of_digits d)]
  | PName cs =>
      let n := rev cs in
      if is_reserved n then LexUnmodelled else Lexed [TName n]
  | PStar => Lexed [TOp Mul]
  | PSlash => Lexed [TOp TrueDiv]
  end.

(** The first problem met from the left decides. *)
Definition lex_then (a b : lex_result) : lex_result :=
  match a with
  | Lexed ta =>
      match b with
      | Lexed tb => Lexed (ta ++ tb)
      | other => other
      end
  | other => other
  end.

(** What a character starts when no token is being read; [None] when the
    character is outside the fragment. *)
Definition start_token (c : ascii) : option (list token * pending) :=
  if is_digit c then Some ([], PNum [c])
  else if is_name_start c then Some ([], PName [c])
  else if Ascii.eqb c " " || (code c =? 9) then Some ([], PNone)
  else if Ascii.eqb c "+" then Some ([TOp Add], PNone)
  else if Ascii.eqb c "-" then Some ([TOp Sub], PNone)
  else if Ascii.eqb c "%" then Some ([TOp Mod], PNone)
  else if Ascii.eqb c "(" then Some ([TLParen], PNone)
  else if Ascii.eqb c ")" then Some ([TRParen], PNone)
  else if Ascii.eqb c "*" then Some ([], PStar)
  else if Ascii.eqb c "/" then Some ([], PSlash)
  else None.

(** An opening square bracket that no closing one follows is never closed:
    the text is not an expression (the characters that could hide a bracket
    in a string or a comment are outside the fragment, and one standing
    before the bracket has already ended the reading). *)
Definition lex_fresh (c : ascii) (s' : text) (k : pending -> lex_result)
  : lex_result :=
  match start_token c with
  | Some (ts, p) => lex_then (Lexed ts) (k p)
  | None =>
      if Ascii.eqb c "[" && negb (existsb (is_char "]") s') then LexError
      else LexUnmodelled
  end.

Fixpoint lex_loop (s : text) (p : pending) : lex_result :=
  match s with
  | [] => close_pending p
  | c :: s' =>
      match p with
      | PNum ds =>
          if is_digit c then lex_loop s' (PNum (c :: ds))
          else if is_name_start c || Ascii.eqb c "." then LexUnmodelled
          else lex_then (close_pending p) (lex_fresh c s' (lex_loop s'))
      | PName cs =>
          if is_word c then lex_loop s' (PName (c :: cs))
          else lex_then (close_pending p) (lex_fresh c s' (lex_loop s'))
      | PStar =>
          if Ascii.eqb c "*" then lex_then (Lexed [TOp Pow]) (lex_loop s' PNone)
          else lex_then (close_pending p) (lex_fresh c s' (lex_loop s'))
      | PSlash =>
          if Ascii.eqb c "/"
          then lex_then (Lexed [TOp FloorDiv]) (lex_loop s' PNone)
          else lex_then (close_pending p) (lex_fresh c s' (lex_loop s'))
      | PNone => lex_fresh c s' (lex_loop s')
      end
  end.

Definition lex (s : text) : lex_result := lex_loop s PNone.

(** Abstract syntax of the fragment. *)
Inductive expr : Type :=
| ENum (n : Z)
| EName (s : text)
| ETuple0
| ENeg (e : expr)
| EPos (e : expr)
| EBin (o : binop) (a b : expr).

Inductive parse_result : Type :=
| POk (e : expr) (rest : list token)
| PSyntaxError
| PCall
| PFuel.

(** Recursive descent along Python's grammar:
    sum: term (('+'|'-') term)*,
    term: factor (('*'|'/'|'//'|'%') factor)*,
    factor: ('+'|'-') factor | power,
    power: primary ['**' factor],
    primary: atom, or a call when an atom is followed by '('.
    A call is reported as [PCall]: the commas, keywords and comprehensions of
    a real argument list are outside the fragment, and the callee is a
    number, an empty tuple or an unbound name, so the interpreter raises
    (SyntaxError, TypeError or NameError) whatever stands between the
    parentheses. *)
Definition is_term_op (o : binop) : bool :=
  match o with
  | Mul | TrueDiv | FloorDiv | Mod => true
  | _ => false
  end.

Definition is_sum_op (o : binop) : bool :=
  match o with
  | Add | Sub => true
  | _ => false
  end.

Fixpoint parse_sum (fuel : nat) (ts : list token) : parse_result :=
  match fuel with
  | O => PFuel
  | S f =>
      match parse_term f ts with
      | POk e rest => parse_sum_rest f e rest
      | other => other
      end
  end
with parse_sum_rest (fuel : nat) (left : expr) (ts : list token) : parse_result :=
  match fuel with
  | O => PFuel
  | S f =>
      match ts with
      | TOp o :: ts' =>
          if is_sum_op o then
            match parse_term f ts' with
            | POk e rest => parse_sum_rest f (EBin o left e) rest
            | other => other
            end
          else POk left ts
      | _ => POk left ts
      end
  end
with parse_term (fuel : nat) (ts : list token) : parse_result :=
  match fuel with
  | O => PFuel
  | S f =>
      match parse_factor f ts with
      | POk e rest => parse_term_rest f e rest
      | other => other
      end
  end
with parse_term_rest (fuel : nat) (left : expr) (ts : list token) : parse_result :=
  match fuel with
  | O => PFuel
  | S f =>
      match ts with
      | TOp o :: ts' =>
          if is_term_op o then
            match parse_factor f ts' with
            | POk e rest => parse_term_rest f (EBin o left e) rest
            | other => other
            end
          else POk left ts
      | _ => POk left ts
      end
  end
with parse_factor (fuel : nat) (ts : list token) : parse_result :=
  match fuel with
  | O => PFuel
  | S f =>
      match ts with
      | TOp Sub :: ts' =>
          match parse_factor f ts' with
          | POk e rest => POk (ENeg e) rest
          | other => other
          end
      | TOp Add :: ts' =>
          match parse_factor f ts' with
          | POk e rest => POk (EPos e) rest
          | other => other
          end
      | _ => parse_power f ts
      end
  end
with parse_power (fuel : nat) (ts : list token) : parse_result :=
  match fuel with
  | O => PFuel
  | S f =>
      match parse_atom f ts with
      | POk base (TLParen :: _) => PCall
      | POk base (TOp Pow :: ts') =>
          match parse_factor f ts' with
          | POk e rest => POk (EBin Pow base e) rest
          | other => other
          end
      | other => other
      end
  end
with parse_atom (fuel : nat) (ts : list token) : parse_result :=
  match fuel with
  | O => PFuel
  | S f =>
      match ts with
      | TNum n :: rest => POk (ENum n) rest
      | TName s :: rest => POk (EName s) rest
      | TLParen :: TRParen :: rest => POk ETuple0 rest
      | TLParen :: ts' =>
          match parse_sum f ts' with
          | POk e (TRParen :: rest) => POk e rest
          | POk _ _ => PSyntaxError
          | other => other
          end
      | _ => PSyntaxError
      end
  end.

Definition parse_fuel (ts : list token) : nat := 8 * length ts + 8.

(** The whole text must be one expression. *)
Definition parse (ts : list token) : parse_result :=
  match parse_sum (parse_fuel ts) ts with
  | POk e [] => POk e []
  | POk _ (_ :: _) => PSyntaxError
  | other => other
  end.

(** Values: Python integers, and the floats a true division of integers
    yields when the quotient is a dyadic rational [m / 2^k] that [repr]
    prints exactly. *)
Inductive value : Type :=
| VInt (z : Z)
| VFloat (neg : bool) (m : N) (k : N).

Inductive outcome : Type :=
| Val (v : value)
| Raise
| Unmodelled.

Definition decimal_digits (n : N) : nat := length (str_of_N n).

Fixpoint pow2_exponent_fuel (fuel : nat) (d : N) (k : N) : option N :=
  match fuel with
  | O => None
  | S f =>
      if (d =? 1)%N then Some k
      else if (d mod 2 =? 0)%N then pow2_exponent_fuel f (d / 2)%N (k + 1)%N
      else None
  end.

(** [Some k] when [d = 2^k]. *)
Definition pow2_exponent (d : N) : option N :=
  pow2_exponent_fuel (S (N.to_nat (N.log2 d))) d 0%N.

(** [a / b] on integers: the correctly rounded quotient as a float.  The
    quotient is tracked when it is exactly a double and [repr] prints its
    exact decimal expansion: at most 15 significant digits, magnitude at
    least 1e-4 (or an integer below 2^53). *)
Definition py_truediv (a b : Z) : outcome :=
  if (b =? 0)%Z then Raise
  else
    let neg :=
      if (a =? 0)%Z then (b <? 0)%Z else (Z.sgn a * Z.sgn b <? 0)%Z in
    let g := Z.gcd a b in
    let m := Z.to_N (Z.abs a / g) in
    let d := Z.to_N (Z.abs b / g) in
    if (a =? 0)%Z then Val (VFloat neg 0 0)
    else
      match pow2_exponent d with
      | None => Unmodelled
      | Some k =>
          if (k =? 0)%N then
            if (m <? 2 ^ 53)%N then Val (VFloat neg m 0) else Unmodelled
          else if (decimal_digits (m * 5 ^ k) <=? 15)
                  && (10 ^ (k - 4) <=? m * 5 ^ k)%N
          then Val (VFloat neg m k)
          else Unmodelled
      end.

Definition apply_binop (o : binop) (x y : value) : outcome :=
  match x, y with
  | VInt a, VInt b =>
      match o with
      | Add => Val (VInt (a + b))
      | Sub => Val (VInt (a - b))
      | Mul => Val (VInt (a * b))
      | TrueDiv => py_truediv a b
      | FloorDiv => if (b =? 0)%Z then Raise else Val (VInt (a / b))
      | Mod => if (b =? 0)%Z then Raise else Val (VInt (a mod b))
      | Pow =>
          if (0 <=? b)%Z then Val (VInt (a ^ b))
          else if (a =? 0)%Z then Raise
          else Unmodelled
      end
  | _, _ => Unmodelled
  end.

Definition apply_neg (x : value) : outcome :=
  match x with
  | VInt a => Val (VInt (- a))
  | VFloat _ _ _ => Unmodelled
  end.

Definition apply_pos (x : value) : outcome :=
  match x with
  | VInt a => Val (VInt a)
  | VFloat _ _ _ => Unmodelled
  end.

(** Operands are evaluated left to right and every operator is strict: an
    operand that raises makes the whole expression raise, also next to an
    operand whose value is not tracked. *)
Fixpoint eval_expr (e : expr) : outcome :=
  match e with
  | ENum n => Val (VInt n)
  | EName _ => Raise
  | ETuple0 => Unmodelled
  | ENeg a =>
      match eval_expr a with
      | Val v => apply_neg v
      | other => other
      end
  | EPos a =>
      match eval_expr a with
      | Val v => apply_pos v
      | other => other
      end
  | EBin o a b =>
      match eval_expr a, eval_expr b with
      | Raise, _ => Raise
      | _, Raise => Raise
      | Val x, Val y => apply_binop o x y
      | _, _ => Unmodelled
      end
  end.

(** Limits of the interpreter that depend on its version are kept out of the
    model: a value is reported only for expressions of at most 100 tokens and
    integers below 10^4300 (the digit limit of int-to-string conversion). *)
Definition within_limits (ts : list token) (v : value) : bool :=
  (length ts <=? 100) &&
  match v with
  | VInt z => (Z.abs z <? 10 ^ 4300)%Z
  | VFloat _ _ _ => true
  end.

Definition py_eval (s : text) : outcome :=
  match lex s with
  | LexUnmodelled => Unmodelled
  | LexError => Raise
  | Lexed ts =>
      match parse ts with
      | PSyntaxError => Raise
      | PCall => Raise
      | PFuel => Unmodelled
      | POk e _ =>
          match eval_expr e with
          | Val v => if within_limits ts v then Val v else Unmodelled
          | other => other
          end
      end
  end.

(** [str(v)] *)
Definition pad_zeros (width : nat) (s : text) : text :=
  repeat "0"%char (width - length s) ++ s.

Definition py_str (v : value) : text :=
  match v with
  | VInt z => str_of_int z
  | VFloat neg m k =>
      (if neg then T "-" else []) ++
      str_of_N (m / 2 ^ k) ++ T "." ++
      (if (k =? 0)%N then T "0"
       else pad_zeros (N.to_nat k) (str_of_N ((m mod 2 ^ k) * 5 ^ k)))
  end.

(** ** [wrap.py]: [ConstantFolder] *)

Definition nl : ascii := ascii_of_nat 10.

Definition dq : ascii := ascii_of_nat 34.

Definition backslash : ascii := ascii_of_nat 92.

(** [param_values]: a [dict] from parameter name to integer, iterated in
    insertion order. *)
Definition param_dict := list (text * Z).

Fixpoint dict_set (d : param_dict) (key : text) (v : Z) : param_dict :=
  match d with
  | [] => [(key, v)]
  | (k, x) :: rest =>
      if text_eqb k key then (k, v) :: rest else (k, x) :: dict_set rest key v
  end.

(** [\bNAME\b] for an identifier NAME. *)
Definition word_boundaries (name : text) : regex :=
  RCat [RWordB; RLit name; RWordB].

(** [r'\b' + param + r'\b'] as [re] reads it.  The code pastes the name into
    the expression as it is: a name that is an identifier stands for itself;
    a name with other characters is read as a piece of regular expression,
    or refused by [re], and the embedding gives no pattern for it. *)
Definition word_pattern (param : text) : option regex :=
  if identifier param then Some (word_boundaries param) else None.

(** The loop [for param, value in self.param_values.items(): result =
    re.sub(...)]; [None] when the embedding has no pattern for a name. *)
Definition substitute_params (param_values : param_dict) (s : text)
  : option text :=
  fold_left
    (fun result pv =>
       match result, word_pattern (fst pv) with
       | Some r, Some p =>
           Some (re_sub p (fun _ _ => str_of_int (snd pv)) r)
       | _, _ => None
       end)
    param_values (Some s).

(** What a [try: ... eval(...) ... except: ...] block of the folder meets:
    the value of the text, in the form [str] and the format strings print
    it; an exception; or no answer at all, when the interpreter does not
    return. *)
Inductive answer : Type :=
| Printed (t : text)
| Raised
| Silent.

(** The interpreter outside the fragment of [py_eval]: its answer to the
    call number [n] of [eval], on a text.  The folder is embedded for every
    such interpreter. *)
Definition interpreter : Type := nat -> text -> answer.

(** [eval] and the printing of its value: the embedding's own answer inside
    the fragment, the interpreter's outside it. *)
Definition eval_str (py : interpreter) (n : nat) (s : text) : answer :=
  match py_eval s with
  | Val v => Printed (py_str v)
  | Raise => Raised
  | Unmodelled => py n s
  end.

(** An interpreter that returns from every call. *)
Definition answers (py : interpreter) : Prop :=
  forall n s, py n s <> Silent.

(** Every name of the dictionary is an identifier. *)
Definition names_ok (d : param_dict) : bool :=
  forallb (fun pv => identifier (fst pv)) d.

(** [fold_expression]; [None] when a parameter name is not an identifier or
    the interpreter gives no answer. *)
Definition fold_expression (py : interpreter) (param_values : param_dict)
           (e : text) : option text :=
  match substitute_params param_values e with
  | None => None
  | Some substituted =>
      let result := strip substituted in
      match eval_str py 0 result with
      | Printed t => Some t
      | Raised => Some result
      | Silent => None
      end
  end.

(** [r'\[([^\]]+)\]'] *)
Definition array_size_pattern : regex :=
  RCat [RChar "["; RGroup 1 (RPlus (not_char "]")); RChar "]"].

Definition is_arith_op (c : ascii) : bool :=
  Ascii.eqb c "+" || Ascii.eqb c "-" || Ascii.eqb c "*" || Ascii.eqb c "/".

(** The pattern of the comparison operands.  Group 1 is one of [<], [<=],
    [>], [>=] (tried in this order) followed by optional white space; group 2
    is a run of digits or an opening parenthesis, optional white space, one
    of the four operators [+ - * /], optional white space, and a run of
    digits or a closing parenthesis. *)
Definition comparison_pattern : regex :=
  RSeq
    (RGroup 1
       (RAlt (RSeq (RChar "<") (RStar is_space))
          (RAlt (RSeq (RLit (T "<=")) (RStar is_space))
             (RAlt (RSeq (RChar ">") (RStar is_space))
                (RSeq (RLit (T ">=")) (RStar is_space))))))
    (RGroup 2
       (RCat [RAlt (RPlus is_digit) (RChar "(");
              RStar is_space;
              RClass is_arith_op;
              RStar is_space;
              RAlt (RPlus is_digit) (RChar ")")])).

(** The callback [fold_array_size]: [try: eval ... except: return
    match.group(0)]; [n] is the number of the call of [eval]. *)
Definition fold_array_size (py : interpreter) (n : nat) (m : text)
           (caps : captures) : option text :=
  match eval_str py n (group 1 caps) with
  | Printed t => Some (T "[" ++ t ++ T "]")
  | Raised => Some m
  | Silent => None
  end.

(** The callback [fold_in_comparison]. *)
Definition fold_in_comparison (py : interpreter) (n : nat) (m : text)
           (caps : captures) : option text :=
  match eval_str py n (group 2 caps) with
  | Printed t => Some (group 1 caps ++ t)
  | Raised => Some m
  | Silent => None
  end.

(** [for _ in range(n): prev = result; result = re.sub(...); if result ==
    prev: break] *)
Fixpoint comparison_passes (py : interpreter) (n : nat) (result : text)
         (calls : nat) : option text :=
  match n with
  | O => Some result
  | S n' =>
      match re_sub_eval comparison_pattern (fold_in_comparison py) result
              calls with
      | None => None
      | Some (r, calls') =>
          if text_eqb r result then Some r
          else comparison_passes py n' r calls'
      end
  end.

(** [fold_code]; [None] when a parameter name is not an identifier or the
    interpreter gives no answer to some call. *)
Definition fold_code (py : interpreter) (param_values : param_dict)
           (code_text : text) : option text :=
  match substitute_params param_values code_text with
  | None => None
  | Some result =>
      match re_sub_eval array_size_pattern (fold_array_size py) result 0 with
      | None => None
      | Some (result1, calls1) =>
          match re_sub_eval comparison_pattern (fold_in_comparison py)
                  result1 calls1 with
          | None => None
          | Some (result2, calls2) => comparison_passes py 3 result2 calls2
          end
      end
  end.

(** ** [wrap.py]: [ArrayLoader] *)

(** What [json.load] returns. *)
Inductive json : Type :=
| JNull
| JBool (b : bool)
| JInt (z : Z)
| JFloat (f : float)
| JStr (s : text)
| JList (items : list json)
| JDict (entries : list (text * json)).

(** [_flatten] *)
Fixpoint _flatten (data : json) : list json :=
  match data with
  | JList items => flat_map _flatten items
  | other => [other]
  end.

(** [isinstance(x, (int, float))]: in Python [bool] is a subclass of [int]. *)
Definition is_int_or_float (x : json) : bool :=
  match x with
  | JInt _ | JFloat _ | JBool _ => true
  | _ => false
  end.

(** [float(z)] for an integer: the nearest double, [None] for the
    OverflowError of an integer beyond the doubles. *)
Definition float_of_int (z : Z) : option float :=
  let sf := binary_normalize prec emax z 0 false in
  match sf with
  | S754_infinity _ => None
  | _ => Some (SF2Prim sf)
  end.

Definition to_float (x : json) : option float :=
  match x with
  | JInt z => float_of_int z
  | JBool b => Some (if b then 1%float else 0%float)
  | JFloat f => Some f
  | _ => None
  end.

Inductive load_result : Type :=
| Loaded (values : list float)
| ValueError
| OverflowError.

Fixpoint floats_of (l : list json) : option (list float) :=
  match l with
  | [] => Some []
  | x :: rest =>
      match to_float x, floats_of rest with
      | Some f, Some fs => Some (f :: fs)
      | _, _ => None
      end
  end.

(** [load_json_array], on the object [json.load] produced. *)
Definition load_json_array (data : json) : load_result :=
  let flat := _flatten data in
  if negb (forallb is_int_or_float flat) then ValueError
  else
    match floats_of flat with
    | Some fs => Loaded fs
    | None => OverflowError
    end.

(** Number of leaves of the nested array structure (spec, 4.6). *)
Fixpoint count_leaves (data : json) : nat :=
  match data with
  | JList items => fold_right (fun d n => count_leaves d + n) 0 items
  | _ => 1
  end.

(** A numeric leaf in the sense of the data format: a JSON number. *)
Definition is_json_number (x : json) : bool :=
  match x with
  | JInt _ | JFloat _ => true
  | _ => false
  end.

(** ** [wrap.py]: [WrapperGenerator] *)

Record FunctionSignature : Type := {
  fs_name : text;
  fs_return_type : text;
  fs_params : list (text * text)
}.

(** [param_type.endswith('*')] *)
Definition is_pointer (param_type : text) : bool := endswith (T "*") param_type.

(** ['output' in param_name.lower()] *)
Definition is_output_name (param_name : text) : bool :=
  contains (T "output") (lower param_name).

(** The pattern [void\s+NAME\s*\([^)]+\)\s*\{] of [read_function_body], for a
    function name made of word characters. *)
Definition body_pattern (func_name : text) : regex :=
  RCat [RLit (T "void"); RPlus is_space; RLit func_name; RStar is_space;
        RChar "("; RPlus (not_char ")"); RChar ")"; RStar is_space;
        RChar "{"].

(** The loop [while pos < len(content) and brace_count > 0]: the number of
    characters passed over from [start]. *)
Fixpoint scan_braces (s : text) (brace_count : nat) : nat :=
  match s with
  | [] => 0
  | c :: s' =>
      if brace_count =? 0 then 0
      else if Ascii.eqb c "{" then S (scan_braces s' (brace_count + 1))
      else if Ascii.eqb c "}" then S (scan_braces s' (brace_count - 1))
      else S (scan_braces s' brace_count)
  end.

(** [read_function_body]; [c_file] is the content of [NAME.c] when the file
    exists. *)
Definition read_function_body (func_name : text) (c_file : option text)
  : option text :=
  match c_file with
  | None => None
  | Some content =>
      match re_search (body_pattern func_name) content with
      | None => None
      | Some (_, _, after, _) =>
          let passed := scan_braces after 1 in
          Some (strip (firstn (passed - 1) after))
      end
  end.

(** [f'{v:.6f}']: the exact binary value rounded half to even at the sixth
    decimal. *)
Definition round_half_even (num den : Z) : Z :=
  let q := (num / den)%Z in
  let r := (num mod den)%Z in
  if (2 * r <? den)%Z then q
  else if (den <? 2 * r)%Z then (q + 1)%Z
  else if Z.even q then q else (q + 1)%Z.

Definition format_6f (v : float) : text :=
  match Prim2SF v with
  | S754_nan => T "nan"
  | S754_infinity s => if s then T "-inf" else T "inf"
  | S754_zero s => if s then T "-0.000000" else T "0.000000"
  | S754_finite s m e =>
      let num := (Zpos m * 10 ^ 6 * 2 ^ (Z.max e 0))%Z in
      let den := (2 ^ (Z.max (- e) 0))%Z in
      let n := round_half_even num den in
      (if s then T "-" else []) ++
      str_of_int (n / 10 ^ 6) ++ T "." ++
      pad_zeros 6 (str_of_int (n mod 10 ^ 6))
  end.

(** The lines of one initialiser: ten values per line, a comma after every
    line but the last. *)
Fixpoint chunk_lines (fuel : nat) (arr_data : list float) : list text :=
  match fuel with
  | O => []
  | S f =>
      match arr_data with
      | [] => []
      | _ :: _ =>
          let chunk := firstn 10 arr_data in
          let later := skipn 10 arr_data in
          (T "        " ++ join (T ", ") (map format_6f chunk)
             ++ (match later with [] => [] | _ :: _ => T "," end))
            :: chunk_lines f later
      end
  end.

Definition array_declaration (param_name : text) (arr_data : list float)
  : list text :=
  (T "    float " ++ param_name ++ T "["
     ++ str_of_int (Z.of_nat (length arr_data)) ++ T "] = {")
    :: chunk_lines (length arr_data) arr_data
    ++ [T "    };"].

(** The first loop of [generate]: [array_idx] walks through [array_args], so
    the arguments are consumed from the front. *)
Fixpoint array_declarations (params : list (text * text))
         (array_args : list (list float)) : list text :=
  match params with
  | [] => []
  | (param_type, param_name) :: rest =>
      if is_pointer param_type && negb (is_output_name param_name) then
        match array_args with
        | arr_data :: more =>
            array_declaration param_name arr_data
              ++ array_declarations rest more
        | [] => array_declarations rest []
        end
      else array_declarations rest array_args
  end.

(** The second loop of [generate]: the arguments of the call. *)
Fixpoint call_args (params : list (text * text)) (int_args : list Z)
  : list text :=
  match params with
  | [] => []
  | (param_type, param_name) :: rest =>
      if is_pointer param_type then
        (if is_output_name param_name then T "output" else param_name)
          :: call_args rest int_args
      else
        match int_args with
        | v :: more => str_of_int v :: call_args rest more
        | [] => call_args rest []
        end
  end.

(** The third loop of [generate]: [param_values]. *)
Fixpoint build_param_values (params : list (text * text)) (int_args : list Z)
         (d : param_dict) : param_dict :=
  match params with
  | [] => d
  | (param_type, param_name) :: rest =>
      if is_pointer param_type then build_param_values rest int_args d
      else
        match int_args with
        | v :: more => build_param_values rest more (dict_set d param_name v)
        | [] => build_param_values rest [] d
        end
  end.

(** [s.split(sep)] for a one-character separator *)
Fixpoint split_on (sep : ascii) (s : text) : list text :=
  match s with
  | [] => [[]]
  | c :: s' =>
      if Ascii.eqb c sep then [] :: split_on sep s'
      else
        match split_on sep s' with
        | l :: ls => (c :: l) :: ls
        | [] => [[c]]
        end
  end.

(** [r'(float \w+\[[^\]]+\]);'], replaced by [r'\1 = {0};'] *)
Definition vla_decl_pattern : regex :=
  RSeq
    (RGroup 1
       (RCat [RLit (T "float "); RPlus is_word; RChar "[";
              RPlus (not_char "]"); RChar "]"]))
    (RChar ";").

Definition zero_initialise (body : text) : text :=
  re_sub vla_decl_pattern (fun _ caps => group 1 caps ++ T " = {0};") body.

Definition call_line (func_sig : FunctionSignature) (int_args : list Z) : text :=
  T "    " ++ fs_name func_sig ++ T "("
    ++ join (T ", ") (call_args (fs_params func_sig) int_args) ++ T ");".

Definition output_declaration (output_size : Z) : text :=
  T "    float output[" ++ str_of_int output_size ++ T "] = {0};".

(** The lines [generate] emits between the output declaration and the print
    loop; [None] when the constant folder gives no result. *)
Definition body_lines (py : interpreter) (func_sig : FunctionSignature)
           (c_file : option text) (int_args : list Z) (inline : bool)
  : option (list text) :=
  if inline then
    match read_function_body (fs_name func_sig) c_file with
    | Some ((_ :: _) as func_body) =>
        let param_values :=
          build_param_values (fs_params func_sig) int_args [] in
        match fold_code py param_values func_body with
        | None => None
        | Some folded =>
            let folded_body := zero_initialise folded in
            Some (T "    // Inlined and constant-folded function body"
                    :: map (fun line => T "    " ++ line)
                         (filter (fun line =>
                                    match strip line with
                                    | [] => false
                                    | _ :: _ => true
                                    end)
                            (split_on nl folded_body))
                    ++ [[]])
        end
    | _ => Some [call_line func_sig int_args; []]
    end
  else Some [call_line func_sig int_args; []].

Definition print_lines (output_size : Z) : list text :=
  [ T "    // Print output";
    T "    for (int i = 0; i < " ++ str_of_int output_size ++ T "; i++) {";
    T "        printf(" ++ [dq] ++ T "%f " ++ [dq] ++ T ", output[i]);";
    T "        if ((i + 1) % 10 == 0) printf(" ++ [dq; backslash]
      ++ T "n" ++ [dq] ++ T ");";
    T "    }";
    T "    printf(" ++ [dq; backslash] ++ T "n" ++ [dq] ++ T ");";
    [];
    T "    return 0;";
    T "}" ].

(** The list [code] of [generate], line by line. *)
Definition generate_lines (py : interpreter) (func_sig : FunctionSignature)
           (c_file : option text) (int_args : list Z)
           (array_args : list (list float)) (output_size : Z) (inline : bool)
  : option (list text) :=
  match body_lines py func_sig c_file int_args inline with
  | None => None
  | Some body =>
      Some
        ((if negb inline
          then T "#include " ++ [dq] ++ fs_name func_sig ++ T ".h" ++ [dq]
          else T "#include <stdlib.h>")
           :: T "#include <stdio.h>"
           :: []
           :: T "int main() {"
           :: array_declarations (fs_params func_sig) array_args
           ++ [output_declaration output_size; []]
           ++ body
           ++ print_lines output_size)
  end.

(** [generate]; [None] when a scalar parameter's name is not an identifier
    or the interpreter gives no answer while the body is folded. *)
Definition generate (py : interpreter) (func_sig : FunctionSignature)
           (c_file : option text) (int_args : list Z)
           (array_args : list (list float)) (output_size : Z) (inline : bool)
  : option text :=
  option_map (join [nl])
    (generate_lines py func_sig c_file int_args array_args output_size
       inline).

(** ** [wrap.py]: [main] *)

(** [int(arg)] on ASCII text: blanks around (the ones of C's [isspace]), an
    optional sign, digits that single underscores may separate, and no more
    than 4300 digits (the interpreter's limit on the conversion); [None] is
    [ValueError]. *)
Fixpoint int_digits (s : text) (acc : Z) (after_digit : bool) : option Z :=
  match s with
  | [] => if after_digit then Some acc else None
  | c :: s' =>
      if is_digit c then int_digits s' (10 * acc + digit_value c)%Z true
      else if Ascii.eqb c "_" && after_digit then int_digits s' acc false
      else None
  end.

Definition py_int (arg : text) : option Z :=
  let body := strip_c arg in
  if 4300 <? length (filter is_digit body) then None
  else
    match body with
    | "-"%char :: ds => option_map Z.opp (int_digits ds 0%Z false)
    | "+"%char :: ds => int_digits ds 0%Z false
    | ds => int_digits ds 0%Z false
    end.

(** The parsed command line. *)
Record cli_args : Type := {
  function_name : text;
  args : list text;
  output_size : Z;
  output : option text;
  compile : bool;
  run : bool;
  no_inline : bool
}.

(** What [main] reads from outside: the registry the scan of the library
    directory built, the data files as [json.load] reads them ([None]: the
    file is missing or is not JSON), the C file of each function, the exit
    status of the compiler, and the interpreter behind [eval]. *)
Record world : Type := {
  registry : list (text * FunctionSignature);
  json_file : text -> option json;
  c_file_of : text -> option text;
  compile_status : Z;
  python : interpreter
}.

(** [registry[function_name]] *)
Fixpoint registry_get (reg : list (text * FunctionSignature)) (key : text)
  : option FunctionSignature :=
  match reg with
  | [] => None
  | (k, v) :: rest => if text_eqb k key then Some v else registry_get rest key
  end.

(** The loop over [args.args]; [None] is an early [return 1]. *)
Fixpoint parse_arguments (w : world) (l : list text) (int_args : list Z)
         (array_args : list (list float))
  : option (list Z * list (list float)) :=
  match l with
  | [] => Some (int_args, array_args)
  | arg :: rest =>
      if startswith (T "@") arg then
        match json_file w (tl arg) with
        | None => None
        | Some data =>
            match load_json_array data with
            | Loaded arr_data =>
                parse_arguments w rest int_args (array_args ++ [arr_data])
            | _ => None
            end
        end
      else
        match py_int arg with
        | Some v => parse_arguments w rest (int_args ++ [v]) array_args
        | None => None
        end
  end.

Definition expected_int_count (func_sig : FunctionSignature) : nat :=
  length (filter (fun p => negb (is_pointer (fst p))) (fs_params func_sig)).

Definition expected_array_count (func_sig : FunctionSignature) : nat :=
  length (filter (fun p => is_pointer (fst p) && negb (is_output_name (snd p)))
            (fs_params func_sig)).

(** The exit code of [main] and the files it wrote, in order. *)
Record run_result : Type := {
  exit_code : Z;
  written : list (text * text)
}.

Definition failed : run_result := {| exit_code := 1; written := [] |}.

(** [main]; [None] when the constant folder gives no result. *)
Definition main (w : world) (a : cli_args) : option run_result :=
  match registry w with
  | [] => Some failed
  | _ :: _ =>
      match registry_get (registry w) (function_name a) with
      | None => Some failed
      | Some func_sig =>
          match parse_arguments w (args a) [] [] with
          | None => Some failed
          | Some (int_args, array_args) =>
              if negb (length int_args =? expected_int_count func_sig)
              then Some failed
              else if negb (length array_args =? expected_array_count func_sig)
              then Some failed
              else
                match generate (python w) func_sig
                        (c_file_of w (fs_name func_sig))
                        int_args array_args (output_size a)
                        (negb (no_inline a)) with
                | None => None
                | Some code_text =>
                    let output_file :=
                      match output a with
                      | Some f => f
                      | None => T "wrapper_" ++ function_name a ++ T ".c"
                      end in
                    let files := [(output_file, code_text)] in
                    if (compile a || run a)
                       && negb (compile_status w =? 0)%Z
                    then Some {| exit_code := 1; written := files |}
                    else Some {| exit_code := 0; written := files |}
                end
          end
      end
  end.

(** ** [replace_calloc.py] *)

(** [r'\(([^)]+)\s*OP\s*\(0\)\)'] for [OP] one of [-] and [+] *)
Definition paren_zero_pattern (op : ascii) : regex :=
  RCat [RChar "("; RGroup 1 (RPlus (not_char ")")); RStar is_space;
        RChar op; RStar is_space; RLit (T "(0))")].

(** [r'\(0\)'] *)
Definition zero_pattern : regex := RLit (T "(0)").

(** [r'\((\w+)\)\s*\*\s*\((\w+)\)'] *)
Definition product_pattern : regex :=
  RCat [RChar "("; RGroup 1 (RPlus is_word); RChar ")"; RStar is_space;
        RChar "*"; RStar is_space;
        RChar "("; RGroup 2 (RPlus is_word); RChar ")"].

(** The replacement templates [r'\1'] and [r'\1 * \2']. *)
Definition group1 (_ : text) (caps : captures) : text := group 1 caps.

Definition group1_times_group2 (_ : text) (caps : captures) : text :=
  group 1 caps ++ T " * " ++ group 2 caps.

(** [simplify_expression] *)
Definition simplify_expression (e : text) : text :=
  let e1 := re_sub (paren_zero_pattern "-") group1 e in
  let e2 := re_sub (paren_zero_pattern "+") group1 e1 in
  let e3 := re_sub zero_pattern (fun _ _ => T "0") e2 in
  let e4 := re_sub product_pattern group1_times_group2 e3 in
  strip e4.

(** The [stats] dictionary. *)
Record stats : Type := {
  callocs_replaced : nat;
  frees_removed : nat;
  warnings : list text;
  simplifications : nat
}.

Definition initial_stats : stats :=
  {| callocs_replaced := 0; frees_removed := 0; warnings := [];
     simplifications := 0 |}.

(** [r"float \*(\w+) = calloc\(([^,]+), sizeof\(float\)\);"] *)
Definition calloc_pattern : regex :=
  RCat [RLit (T "float *"); RGroup 1 (RPlus is_word); RLit (T " = calloc(");
        RGroup 2 (RPlus (not_char ",")); RLit (T ", sizeof(float));")].

(** [r"free\((\w+)\);"] *)
Definition free_pattern : regex :=
  RCat [RLit (T "free("); RGroup 1 (RPlus is_word); RLit (T ");")].

(** [r'float (\w+)\[([^\]]+)\];'] *)
Definition vla_pattern : regex :=
  RCat [RLit (T "float "); RGroup 1 (RPlus is_word); RChar "[";
        RGroup 2 (RPlus (not_char "]")); RLit (T "];")].

(** The test ["(" in simplified and simplified.count("(") > 1]. *)
Definition is_complex (simplified : text) : bool :=
  existsb (is_char "(") simplified && (1 <? count_char "(" simplified).

(** The callback [replace_calloc]. *)
Definition replace_calloc (st : stats) (_ : text) (caps : captures)
  : text * stats :=
  let var_name := group 1 caps in
  let size_expr := group 2 caps in
  let simplified := simplify_expression size_expr in
  let st1 :=
    {| callocs_replaced := callocs_replaced st + 1;
       frees_removed := frees_removed st;
       warnings := warnings st;
       simplifications :=
         if text_eqb simplified size_expr then simplifications st
         else simplifications st + 1 |} in
  let st2 :=
    if is_complex simplified then
      {| callocs_replaced := callocs_replaced st1;
         frees_removed := frees_removed st1;
         warnings :=
           warnings st1
             ++ [T "Complex size expression for " ++ var_name ++ T ": "
                   ++ simplified];
         simplifications := simplifications st1 |}
    else st1 in
  (T "float " ++ var_name ++ T "[" ++ simplified ++ T "];", st2).

(** The callback [replace_free]. *)
Definition replace_free (st : stats) (_ : text) (caps : captures)
  : text * stats :=
  let var_name := group 1 caps in
  (T "// " ++ var_name ++ T " auto-freed (VLA)",
   {| callocs_replaced := callocs_replaced st;
      frees_removed := frees_removed st + 1;
      warnings := warnings st;
      simplifications := simplifications st |}).

(** The callback [simplify_vla]. *)
Definition simplify_vla (st : stats) (_ : text) (caps : captures)
  : text * stats :=
  let var_name := group 1 caps in
  let size_expr := group 2 caps in
  let simplified := simplify_expression size_expr in
  (T "float " ++ var_name ++ T "[" ++ simplified ++ T "];",
   {| callocs_replaced := callocs_replaced st;
      frees_removed := frees_removed st;
      warnings := warnings st;
      simplifications :=
        if text_eqb simplified size_expr then simplifications st
        else simplifications st + 1 |}).

(** [r'(\w+)\s*OP\s*0(?!\w)'] for [OP] one of [-] and [+] *)
Definition bare_zero_pattern (op : ascii) : regex :=
  RCat [RGroup 1 (RPlus is_word); RStar is_space; RChar op; RStar is_space;
        RChar "0"; RNotAhead (RClass is_word)].

Definition is_op_or_close (c : ascii) : bool :=
  is_arith_op c || Ascii.eqb c ")".

(** [r'\((\w+)\)(?=\s*[+\-*/\)])'] *)
Definition paren_word_pattern : regex :=
  RCat [RChar "("; RGroup 1 (RPlus is_word); RChar ")";
        RAhead (RSeq (RStar is_space) (RClass is_op_or_close))].

(** One turn of the loop of [simplify_all_expressions]. *)
Definition simplify_pass (c : text) : text :=
  let c1 := re_sub (paren_zero_pattern "-") group1 c in
  let c2 := re_sub (paren_zero_pattern "+") group1 c1 in
  let c3 := re_sub (bare_zero_pattern "-") group1 c2 in
  let c4 := re_sub (bare_zero_pattern "+") group1 c3 in
  let c5 := re_sub zero_pattern (fun _ _ => T "0") c4 in
  re_sub paren_word_pattern group1 c5.

(** [while prev != code and iterations < 5]: at most [n] turns, stopping
    after the first one that changes nothing. *)
Fixpoint simplify_loop (n : nat) (c : text) : text :=
  match n with
  | O => c
  | S n' =>
      let c' := simplify_pass c in
      if text_eqb c' c then c' else simplify_loop n' c'
  end.

Definition simplify_all_expressions (c : text) : text := simplify_loop 5 c.

(** The first pass of [transform_calloc_to_vla]. *)
Definition calloc_pass (c_code : text) (st : stats) : text * stats :=
  re_sub_st calloc_pattern replace_calloc c_code st.

(** The second pass. *)
Definition free_pass (c_code : text) (st : stats) : text * stats :=
  re_sub_st free_pattern replace_free c_code st.

(** [transform_calloc_to_vla] *)
Definition transform_calloc_to_vla (c_code : text) : text * stats :=
  let '(t1, st1) := calloc_pass c_code initial_stats in
  let '(t2, st2) := free_pass t1 st1 in
  let '(t3, st3) := re_sub_st vla_pattern simplify_vla t2 st2 in
  (simplify_all_expressions t3, st3).

(** Depth of the deepest parenthesis nesting of a text (spec, 4.5: levels of
    nested parentheses). *)
Fixpoint nesting_from (s : text) (depth : nat) : nat :=
  match s with
  | [] => depth
  | c :: s' =>
      if Ascii.eqb c "(" then Nat.max depth (nesting_from s' (S depth))
      else if Ascii.eqb c ")" then Nat.max depth (nesting_from s' (pred depth))
      else nesting_from s' depth
  end.

Definition nesting_depth (s : text) : nat := nesting_from s 0.

(** A brace-balanced text: every closing brace closes an earlier opening
    one of the text, and none stays open.  [open] counts the braces opened
    before the text. *)
Fixpoint balanced_from (s : text) (open : nat) : bool :=
  match s with
  | [] => open =? 0
  | c :: s' =>
      if Ascii.eqb c "{" then balanced_from s' (S open)
      else if Ascii.eqb c "}" then
        match open with
        | O => false
        | S o => balanced_from s' o
        end
      else balanced_from s' open
  end.

Definition balanced (s : text) : bool := balanced_from s 0.

(** The grammar the specification allows the evaluator: digits, white space
    and the characters [+ - * / ( )]. *)
Definition in_restricted_grammar (e : text) : bool :=
  forallb (fun c => is_digit c || is_space c || is_arith_op c
                    || Ascii.eqb c "(" || Ascii.eqb c ")") e.

Definition is_name (t : token) : bool :=
  match t with
  | TName _ => true
  | _ => false
  end.

(** A scalar argument of the command line: one that does not start with
    [@]. *)
Definition is_scalar_arg (arg : text) : bool := negb (startswith (T "@") arg).

(** The signature of the specification's example scenario,
    [void addone(int N, float* x, float* output)], and a library that holds
    only this function. *)
Definition addone_sig : FunctionSignature :=
  {| fs_name := T "addone";
     fs_return_type := T "void";
     fs_params := [(T "int", T "N"); (T "float*", T "x");
                   (T "float*", T "output")] |}.

Definition addone_world : world :=
  {| registry := [(T "addone", addone_sig)];
     json_file := fun _ => Some (JList [JInt 1; JInt 2; JInt 3; JInt 4]);
     c_file_of := fun _ => None;
     compile_status := 0;
     python := fun _ _ => Raised |}.

Definition addone_cli (l : list text) : cli_args :=
  {| function_name := T "addone";
     args := l;
     output_size := 4;
     output := None;
     compile := false;
     run := false;
     no_inline := true |}.

(** Whether an expression mentions an identifier. *)
Fixpoint expr_has_name (e : expr) : bool :=
  match e with
  | ENum _ => false
  | EName _ => true
  | ETuple0 => false
  | ENeg a => expr_has_name a
  | EPos a => expr_has_name a
  | EBin _ a b => expr_has_name a || expr_has_name b
  end.

Definition has_name (ts : list token) : bool := existsb is_name ts.

(** What a successful parse keeps: tokens are consumed, and the identifiers
    of the consumed tokens are those of the expression built. *)
Definition consumes (ts : list token) (e : expr) (rest : list token) : Prop :=
  length rest < length ts /\ has_name ts = expr_has_name e || has_name rest.

Definition extends (left : expr) (ts : list token) (e : expr)
           (rest : list token) : Prop :=
  length rest <= length ts
  /\ expr_has_name left || has_name ts = expr_has_name e || has_name rest.

Definition parse_invariant_at (n : nat) : Prop :=
  (forall ts e rest, parse_sum n ts = POk e rest -> consumes ts e rest)
  /\ (forall left ts e rest,
         parse_sum_rest n left ts = POk e rest -> extends left ts e rest)
  /\ (forall ts e rest, parse_term n ts = POk e rest -> consumes ts e rest)
  /\ (forall left ts e rest,
         parse_term_rest n left ts = POk e rest -> extends left ts e rest)
  /\ (forall ts e rest, parse_factor n ts = POk e rest -> consumes ts e rest)
  /\ (forall ts e rest, parse_power n ts = POk e rest -> consumes ts e rest)
  /\ (forall ts e rest, parse_atom n ts = POk e rest -> consumes ts e rest).

(** Fuel that is enough for a token list. *)
Definition enough_fuel_at (n : nat) : Prop :=
  (forall ts, 5 * length ts + 5 <= n -> parse_sum n ts <> PFuel)
  /\ (forall left ts,
         5 * length ts + 5 <= n -> parse_sum_rest n left ts <> PFuel)
  /\ (forall ts, 5 * length ts + 4 <= n -> parse_term n ts <> PFuel)
  /\ (forall left ts,
         5 * length ts + 4 <= n -> parse_term_rest n left ts <> PFuel)
  /\ (forall ts, 5 * length ts + 3 <= n -> parse_factor n ts <> PFuel)
  /\ (forall ts, 5 * length ts + 2 <= n -> parse_power n ts <> PFuel)
  /\ (forall ts, 5 * length ts + 1 <= n -> parse_atom n ts <> PFuel).

(** ** Text shapes used to state the properties of the rewriter *)

(** [strip_prefix l s] is the rest of [s] after the literal [l], when [s]
    starts with it. *)
Fixpoint strip_prefix (l s : text) : option text :=
  match l, s with
  | [], _ => Some s
  | x :: l', c :: s' => if Ascii.eqb c x then strip_prefix l' s' else None
  | _ :: _, [] => None
  end.

(** The character before the position reached after reading [l]. *)
Definition prev_after (l : text) (prev : option ascii) : option ascii :=
  fold_left (fun _ c => Some c) l prev.

(** A repetition stops at [s]: the next character, if any, is outside the
    class. *)
Definition stops (p : ascii -> bool) (s : text) : Prop :=
  match s with
  | [] => True
  | x :: _ => p x = false
  end.

(** A size expression: a non-empty text with no comma. *)
Definition size_text (size : text) : bool :=
  match size with
  | [] => false
  | _ :: _ => forallb (not_char ",") size
  end.

Definition calloc_call (name size : text) : text :=
  T "float *" ++ name ++ T " = calloc(" ++ size ++ T ", sizeof(float));".

Definition vla_declaration (name size : text) : text :=
  T "float " ++ name ++ T "[" ++ size ++ T "];".

Definition free_call (name : text) : text := T "free(" ++ name ++ T ");".

Definition freed_comment (name : text) : text :=
  T "// " ++ name ++ T " auto-freed (VLA)".

(** ** [wrap.py]: [HeaderParser] *)

(** The lazy repetition [.*?] under [re.DOTALL]: the shortest run of
    characters, of any kind, after which the rest of the pattern matches. *)
Fixpoint lazy_any (R : Type) (prev : option ascii) (s : text)
         (caps : captures)
         (k : option ascii -> text -> captures -> option R) : option R :=
  match k prev s caps with
  | Some r => Some r
  | None =>
      match s with
      | [] => None
      | c :: s' => lazy_any R (Some c) s' caps k
      end
  end.

(** The pattern of [parse_header_file] reads: group 1, one of [void], [int],
    [float] (tried in this order); white space; group 2, a run of word
    characters; optional white space; an opening parenthesis; group 3, a lazy
    run of any characters; a closing parenthesis; optional white space; a
    semicolon.  [header_keyword] and [header_name] are the parts before
    group 3 and [header_suffix] the part after it. *)
Definition header_keyword : regex :=
  RGroup 1 (RAlt (RLit (T "void")) (RAlt (RLit (T "int")) (RLit (T "float")))).

Definition header_name : regex :=
  RCat [RPlus is_space; RGroup 2 (RPlus is_word); RStar is_space; RChar "("].

Definition header_suffix : regex :=
  RCat [RChar ")"; RStar is_space; RChar ";"].

(** Group 3 and what follows it, from the text [s1] after the opening
    parenthesis. *)
Definition header_params (prev1 : option ascii) (s1 : text) (caps1 : captures)
  : option (text * captures) :=
  lazy_any (text * captures) prev1 s1 caps1
    (fun prev2 s2 caps2 =>
       rmatch header_suffix (text * captures) prev2 s2
         ((3, firstn (length s1 - length s2) s1) :: caps2)
         (fun _ s3 caps3 => Some (s3, caps3))).

Definition match_header (prev : option ascii) (s : text)
  : option (text * captures) :=
  rmatch (RSeq header_keyword header_name) (text * captures) prev s []
    header_params.

(** [re.search] with the header pattern: the groups of the leftmost match. *)
Fixpoint search_header (prev : option ascii) (s : text) : option captures :=
  match match_header prev s with
  | Some (_, caps) => Some caps
  | None =>
      match s with
      | [] => None
      | c :: s' => search_header (Some c) s'
      end
  end.

(** The longest run without white space at the head of a text, and the
    rest. *)
Fixpoint span_nonspace (s : text) : text * text :=
  match s with
  | [] => ([], [])
  | c :: s' =>
      if is_space c then ([], s)
      else let '(w, r) := span_nonspace s' in (c :: w, r)
  end.

(** [param.rsplit(None, 1)]: the last white-space-delimited word, preceded
    by what stands before it without its trailing white space, when that is
    not empty. *)
Definition rsplit_last (param : text) : list text :=
  let '(w, before) := span_nonspace (lstrip (rev param)) in
  match w with
  | [] => []
  | _ :: _ =>
      match lstrip before with
      | [] => [rev w]
      | (_ :: _) as b => [rev b; rev w]
      end
  end.

(** [r'(\w+\*?)(\w+)'] *)
Definition attached_pattern : regex :=
  RSeq (RGroup 1 (RSeq (RPlus is_word) (RAlt (RChar "*") REps)))
       (RGroup 2 (RPlus is_word)).

(** The body of the loop of [_parse_parameters] for one piece of the
    parameter list: no pair or one. *)
Definition parse_parameter (piece : text) : list (text * text) :=
  match strip piece with
  | [] => []
  | (_ :: _) as param =>
      match rsplit_last param with
      | [param_type; param_name] => [(param_type, param_name)]
      | [single] =>
          match match_at attached_pattern None single with
          | Some (_, caps) => [(group 1 caps, group 2 caps)]
          | None => []
          end
      | _ => []
      end
  end.

(** [_parse_parameters] *)
Definition _parse_parameters (params_str : text) : list (text * text) :=
  flat_map parse_parameter (split_on "," params_str).

(** [parse_header_file], on the content of the header file. *)
Definition parse_header_file (content : text) : option FunctionSignature :=
  match search_header None content with
  | None => None
  | Some caps =>
      Some {| fs_name := group 2 caps;
              fs_return_type := group 1 caps;
              fs_params := _parse_parameters (group 3 caps) |}
  end.

(** [registry[key] = v] *)
Fixpoint registry_set (reg : list (text * FunctionSignature)) (key : text)
         (v : FunctionSignature) : list (text * FunctionSignature) :=
  match reg with
  | [] => [(key, v)]
  | (k, x) :: rest =>
      if text_eqb k key then (k, v) :: rest
      else (k, x) :: registry_set rest key v
  end.

(** The body of the loop of [scan_lib_directory], on the content of one
    header file. *)
Definition scan_header (reg : list (text * FunctionSignature))
           (content : text) : list (text * FunctionSignature) :=
  match parse_header_file content with
  | Some sig => registry_set reg (fs_name sig) sig
  | None => reg
  end.

(** [scan_lib_directory], on the contents of the header files in the order
    the directory lists them. *)
Definition scan_lib_directory (headers : list text)
  : list (text * FunctionSignature) :=
  fold_left scan_header headers [].

(** [FunctionSignature.__repr__] *)
Definition param_repr (p : text * text) : text := fst p ++ T " " ++ snd p.

Definition signature_repr (sig : FunctionSignature) : text :=
  fs_return_type sig ++ T " " ++ fs_name sig ++ T "("
    ++ join (T ", ") (map param_repr (fs_params sig)) ++ T ")".


(** Well-formed pieces of a declaration, for the round trip through
    [__repr__]: a text with no white space at either end, a text with no
    white space at all, a text without a given character. *)
Definition trimmed (s : text) : bool :=
  match s, rev s with
  | c :: _, d :: _ => negb (is_space c) && negb (is_space d)
  | _, _ => false
  end.

Definition no_space (s : text) : bool :=
  forallb (fun c => negb (is_space c)) s.

Definition no_char (x : ascii) (s : text) : bool := forallb (not_char x) s.

(** A parameter that [__repr__] prints and [_parse_parameters] reads back:
    a trimmed type, a non-empty name without white space, and neither a
    comma nor a closing parenthesis in either. *)
Definition wf_param (p : text * text) : bool :=
  trimmed (fst p)
  && match snd p with [] => false | _ :: _ => true end
  && no_space (snd p)
  && no_char "," (fst p) && no_char "," (snd p)
  && no_char ")" (fst p) && no_char ")" (snd p).

Definition wf_return_type (t : text) : bool :=
  text_eqb t (T "void") || text_eqb t (T "int") || text_eqb t (T "float").

Definition wf_signature (sig : FunctionSignature) : bool :=
  wf_return_type (fs_return_type sig)
  && identifier (fs_name sig)
  && forallb wf_param (fs_params sig).

(** The header [content] declares a function called [name]. *)
Definition declares (name content : text) : bool :=
  match parse_header_file content with
  | Some sig => text_eqb (fs_name sig) name
  | None => false
  end.

(** ** Characters a pattern cannot do without *)

(** [c] is one of the characters of [cs]. *)
Definition among (cs : text) (c : ascii) : bool := existsb (Ascii.eqb c) cs.

(** A text with none of the characters of [cs]. *)
Definition free_of (cs s : text) : bool :=
  forallb (fun c => negb (among cs c)) s.

(** A sufficient test, on the syntax of a pattern, for every text it matches
    to hold a character of the class [p]. *)
Fixpoint needs (p : ascii -> bool) (r : regex) : bool :=
  match r with
  | RChar c => p c
  | RSeq r1 r2 => needs p r1 || needs p r2
  | RAlt r1 r2 => needs p r1 && needs p r2
  | RGroup _ r1 => needs p r1
  | _ => false
  end.

(** An argument of the command line that the loop of [main] accepts: a
    readable file of numbers after [@], or an integer. *)
Definition arg_ok (w : world) (arg : text) : bool :=
  if startswith (T "@") arg then
    match json_file w (tl arg) with
    | Some data =>
        match load_json_array data with
        | Loaded _ => true
        | _ => false
        end
    | None => false
    end
  else
    match py_int arg with
    | Some _ => true
    | None => false
    end.

(** The name of the file [main] writes. *)
Definition output_file (a : cli_args) : text :=
  match output a with
  | Some f => f
  | None => T "wrapper_" ++ function_name a ++ T ".c"
  end.

(** The example scenario with a compiler that fails, and a command line
    that asks for the compiler. *)
Definition addone_broken_world : world :=
  {| registry := registry addone_world;
     json_file := json_file addone_world;
     c_file_of := c_file_of addone_world;
     compile_status := 1;
     python := python addone_world |}.

Definition addone_compile_cli : cli_args :=
  {| function_name := T "addone";
     args := [T "4"; T "@x.json"];
     output_size := 4;
     output := Some (T "w.c");
     compile := true;
     run := false;
     no_inline := true |}.

(** The value of an option, with a default. *)
Definition result_or {A : Type} (d : A) (o : option A) : A :=
  match o with
  | Some x => x
  | None => d
  end.

(** The result of a run in which the folder gave a result. *)
Definition result_of (o : option run_result) : run_result :=
  match o with
  | Some res => res
  | None => failed
  end.

(** The brace opened by the declaration is never closed in [s]; [depth]
    counts the braces opened since and still open. *)
Fixpoint unclosed (s : text) (depth : nat) : bool :=
  match s with
  | [] => true
  | c :: s' =>
      if Ascii.eqb c "{" then unclosed s' (S depth)
      else if Ascii.eqb c "}" then
        match depth with
        | O => false
        | S d => unclosed s' d
        end
      else unclosed s' depth
  end.

(** A pattern with no word-boundary test: whether it matches at a position
    does not depend on the character before it. *)
Fixpoint prev_blind (r : regex) : bool :=
  match r with
  | RWordB => false
  | RSeq r1 r2 => prev_blind r1 && prev_blind r2
  | RAlt r1 r2 => prev_blind r1 && prev_blind r2
  | RGroup _ r1 => prev_blind r1
  | RAhead r1 => prev_blind r1
  | RNotAhead r1 => prev_blind r1
  | _ => true
  end.

(** The maximal runs of word characters of a text, in order, with every
    other character as a run of its own. *)
Fixpoint runs (s : text) : list text :=
  match s with
  | [] => []
  | c :: s' =>
      if is_word c then
        match runs s' with
        | (d :: w) :: rest =>
            if is_word d then (c :: d :: w) :: rest
            else [c] :: (d :: w) :: rest
        | other => [c] :: other
        end
      else [c] :: runs s'
  end.

(** What the substitution of the value [v] for the whole word [n] is meant
    to give: the runs equal to [n] replaced, the others kept. *)
Definition replace_word (n v : text) (s : text) : text :=
  concat (map (fun w => if text_eqb w n then v else w) (runs s)).

(** The spelling of an operator. *)
Definition arith_op_text (o : binop) : text :=
  match o with
  | Add => T "+"
  | Sub => T "-"
  | Mul => T "*"
  | TrueDiv => T "/"
  | FloorDiv => T "//"
  | Mod => T "%"
  | Pow => T "**"
  end.

(** The operators whose result on integers is an integer of bounded size,
    with the divisor they accept; and that result. *)
Definition foldable (o : binop) (b : N) : bool :=
  match o with
  | Add | Sub | Mul => true
  | FloorDiv | Mod => negb (b =? 0)%N
  | TrueDiv | Pow => false
  end.

Definition arith_value (o : binop) (a b : Z) : Z :=
  match o with
  | Add => a + b
  | Sub => a - b
  | Mul => a * b
  | FloorDiv => a / b
  | Mod => a mod b
  | TrueDiv | Pow => 0
  end.

(** The text [a op b] with decimal literals. *)
Definition literal_operation (o : binop) (a b : N) : text :=
  str_of_N a ++ T " " ++ arith_op_text o ++ T " " ++ str_of_N b.

(** The line that includes the header of the function. *)
Definition header_include (func_sig : FunctionSignature) : text :=
  T "#include " ++ [dq] ++ fs_name func_sig ++ T ".h" ++ [dq].

(** ** Redexes of the expression simplifier *)

(** [re.search(r, s) is not None] *)
Definition has_match (r : regex) (s : text) : bool :=
  match re_search r s with
  | Some _ => true
  | None => false
  end.

(** No rule of [simplify_expression] applies anywhere in the text. *)
Definition redex_free (s : text) : bool :=
  negb (has_match (paren_zero_pattern "-") s)
  && negb (has_match (paren_zero_pattern "+") s)
  && negb (has_match zero_pattern s)
  && negb (has_match product_pattern s).

(** Patterns without a capture group, and patterns whose capture groups hold
    no other group. *)
Fixpoint nogroup (r : regex) : bool :=
  match r with
  | RSeq r1 r2 => nogroup r1 && nogroup r2
  | RAlt r1 r2 => nogroup r1 && nogroup r2
  | RGroup _ _ => false
  | _ => true
  end.

Fixpoint flat (r : regex) : bool :=
  match r with
  | RSeq r1 r2 => flat r1 && flat r2
  | RAlt r1 r2 => flat r1 && flat r2
  | RGroup _ r1 => nogroup r1
  | _ => true
  end.

(** A number of characters that every match of the pattern holds outside
    its capture groups. *)
Fixpoint outside (r : regex) : nat :=
  match r with
  | RChar _ => 1
  | RClass _ => 1
  | RSeq r1 r2 => outside r1 + outside r2
  | RAlt r1 r2 => Nat.min (outside r1) (outside r2)
  | _ => 0
  end.

(** Total length of the captured texts. *)
Fixpoint weight (caps : captures) : nat :=
  match caps with
  | [] => 0
  | (_, t) :: rest => length t + weight rest
  end.

(** * Properties *)

(** ** Text *)

Lemma lstrip_idempotent (s : text) : lstrip (lstrip s) = lstrip s.
Proof.
  induction s as [|c s IH]; simpl; [reflexivity|].
  destruct (is_space c) eqn:E; [exact IH|].
  simpl. rewrite E. reflexivity.
Qed.

Lemma lstrip_suffix (s : text) : exists w, s = w ++ lstrip s.
Proof.
  induction s as [|c s [w IH]]; simpl.
  - exists []. reflexivity.
  - destruct (is_space c).
    + exists (c :: w). simpl. f_equal. exact IH.
    + exists []. reflexivity.
Qed.

Lemma lstrip_head (s : text) :
  match lstrip s with
  | [] => True
  | c :: _ => is_space c = false
  end.
Proof.
  induction s as [|c s IH]; simpl; [exact I|].
  destruct (is_space c) eqn:E; [exact IH|exact E].
Qed.

Lemma lstrip_fixed (s : text) :
  match s with
  | [] => True
  | c :: _ => is_space c = false
  end -> lstrip s = s.
Proof.
  destruct s as [|c s]; simpl; [reflexivity|].
  intros ->. reflexivity.
Qed.

(** Stripping on the right keeps the first character. *)
Lemma rstrip_head (s : text) :
  match s with
  | [] => True
  | c :: _ => is_space c = false
  end ->
  match rstrip s with
  | [] => True
  | c :: _ => is_space c = false
  end.
Proof.
  unfold rstrip. intros H.
  destruct (lstrip_suffix (rev s)) as [w Hw].
  assert (Hs : s = rev (lstrip (rev s)) ++ rev w).
  { rewrite <- rev_app_distr, <- Hw, rev_involutive. reflexivity. }
  destruct (rev (lstrip (rev s))) as [|c t] eqn:E; [exact I|].
  rewrite Hs in H. simpl in H. exact H.
Qed.

Lemma rstrip_idempotent (s : text) : rstrip (rstrip s) = rstrip s.
Proof.
  unfold rstrip. rewrite rev_involutive, lstrip_idempotent. reflexivity.
Qed.

(** [strip] is idempotent. *)
Lemma strip_idempotent (s : text) : strip (strip s) = strip s.
Proof.
  unfold strip.
  assert (H : lstrip (rstrip (lstrip s)) = rstrip (lstrip s)).
  { apply lstrip_fixed.
    pose proof (rstrip_head (lstrip s) (lstrip_head s)) as Hr.
    destruct (rstrip (lstrip s)); [exact I|exact Hr]. }
  rewrite H. apply rstrip_idempotent.
Qed.

(** ** The constant folder on division *)

(** C3.  The folder does not write an exact quotient as a decimal integer
    literal: with no bindings, the size [8/2] of [float t[8/2];] is folded
    to the text [4.0], the interpreter's rendering of the float that true
    division returns. *)
Lemma fold_code_exact_division (py : interpreter) :
  fold_code py [] (T "float t[8/2];") = Some (T "float t[4.0];").
Proof. vm_compute. reflexivity. Qed.

(** C4.  A division with a remainder does not fail to evaluate and is not
    left verbatim: the bracketed [7/2] and the comparison operand [7/2] are
    both replaced by the text [3.5]. *)
Lemma fold_code_inexact_division (py : interpreter) :
  fold_code py [] (T "float t[7/2]; if (i < 7/2) t[i] = 0;")
  = Some (T "float t[3.5]; if (i < 3.5) t[i] = 0;").
Proof. vm_compute. reflexivity. Qed.

(** ** The array loader *)

(** [_flatten] yields as many values as the structure has leaves. *)
Lemma flatten_length :
  forall data : json, length (_flatten data) = count_leaves data.
Proof.
  fix ind 1. intros [ | | | | |items| ]; try reflexivity.
  simpl. induction items as [|x l IH]; simpl; [reflexivity|].
  rewrite length_app, ind, IH. reflexivity.
Qed.

(** C6.  A boolean leaf is not a number of the data format, yet the loader
    accepts it: [[true, 2]] loads as the two floats 1.0 and 2.0 instead of
    failing. *)
Lemma load_json_array_accepts_boolean :
  is_json_number (JBool true) = false /\
  load_json_array (JList [JBool true; JInt 2]) = Loaded [1%float; 2%float].
Proof. split; vm_compute; reflexivity. Qed.

(** ** The warning of the allocation rewriter *)

Lemma count_char_exists (x : ascii) (s : text) :
  0 < count_char x s -> existsb (is_char x) s = true.
Proof.
  unfold count_char. induction s as [|c s IH]; simpl; [lia|].
  destruct (is_char x c); simpl; [reflexivity|exact IH].
Qed.

Lemma nesting_from_bound (s : text) :
  forall d, nesting_from s d <= d + count_char "(" s.
Proof.
  unfold count_char.
  induction s as [|c s IH]; intros d; simpl; [lia|].
  unfold is_char at 1.
  destruct (Ascii.eqb c "(") eqn:E1; simpl.
  - specialize (IH (S d)). lia.
  - destruct (Ascii.eqb c ")").
    + specialize (IH (pred d)). lia.
    + apply IH.
Qed.

Lemma app_one_neq {A : Type} (l : list A) (x : A) : l ++ [x] <> l.
Proof.
  intros H. apply (f_equal (@length A)) in H.
  rewrite length_app in H. simpl in H. lia.
Qed.

(** C9 (amended).  [replace_calloc] records a warning exactly when the
    simplified size expression holds more than one opening parenthesis; the
    warning names the buffer and the simplified expression.  An expression
    nested more than one level deep is one such case. *)
Theorem replace_calloc_warning_iff_two_parens :
  forall (st : stats) (m : text) (caps : captures),
    (warnings (snd (replace_calloc st m caps)) <> warnings st
     <-> 1 < count_char "(" (simplify_expression (group 2 caps)))
    /\ (1 < count_char "(" (simplify_expression (group 2 caps))
        -> warnings (snd (replace_calloc st m caps))
           = warnings st
               ++ [T "Complex size expression for " ++ group 1 caps ++ T ": "
                     ++ simplify_expression (group 2 caps)])
    /\ (1 < nesting_depth (simplify_expression (group 2 caps))
        -> 1 < count_char "(" (simplify_expression (group 2 caps))).
Proof.
  intros st m caps.
  set (simplified := simplify_expression (group 2 caps)).
  assert (Hw : warnings (snd (replace_calloc st m caps))
               = if is_complex simplified
                 then warnings st
                        ++ [T "Complex size expression for " ++ group 1 caps
                              ++ T ": " ++ simplified]
                 else warnings st).
  { unfold replace_calloc. fold simplified. simpl.
    destruct (is_complex simplified); reflexivity. }
  assert (Hc : is_complex simplified = true <-> 1 < count_char "(" simplified).
  { unfold is_complex. rewrite andb_true_iff, Nat.ltb_lt. split.
    - intros [_ H]. exact H.
    - intros H. split; [apply count_char_exists; lia|exact H]. }
  repeat split.
  - intros Hne. apply Hc. rewrite Hw in Hne.
    destruct (is_complex simplified); [reflexivity|congruence].
  - intros H. apply Hc in H. rewrite Hw, H. apply app_one_neq.
  - intros H. apply Hc in H. rewrite Hw, H. reflexivity.
  - intros H. pose proof (nesting_from_bound simplified 0) as Hb.
    unfold nesting_depth in H. lia.
Qed.

(** C9 (as stated) fails: the size expression [(a) + (b)] has a single
    level of parentheses and still gets a warning. *)
Lemma warning_without_nesting :
  ~ (forall (st : stats) (m : text) (caps : captures),
        warnings (snd (replace_calloc st m caps)) <> warnings st
        <-> 1 < nesting_depth (simplify_expression (group 2 caps))).
Proof.
  intros H.
  specialize (H initial_stats [] [(1, T "y"); (2, T "(a) + (b)")]).
  destruct H as [H _].
  assert (Hd : nesting_depth
                 (simplify_expression
                    (group 2 [(1, T "y"); (2, T "(a) + (b)")])) = 1)
    by (vm_compute; reflexivity).
  rewrite Hd in H. apply (Nat.lt_irrefl 1), H.
  vm_compute. discriminate.
Qed.

(** ** The body extractor *)

Lemma scan_braces_step (c : ascii) (s : text) (k : nat) :
  scan_braces (c :: s) (S k)
  = if Ascii.eqb c "{" then S (scan_braces s (S (S k)))
    else if Ascii.eqb c "}" then S (scan_braces s k)
    else S (scan_braces s (S k)).
Proof.
  simpl. replace (k + 1) with (S k) by lia. rewrite Nat.sub_0_r.
  reflexivity.
Qed.

Lemma scan_braces_balanced (body : text) (after : text) :
  forall k, balanced_from body k = true ->
            scan_braces (body ++ "}"%char :: after) (S k) = S (length body).
Proof.
  induction body as [|c body IH]; intros k H.
  - simpl in H. apply Nat.eqb_eq in H. subst k.
    rewrite app_nil_l, scan_braces_step. simpl.
    destruct after; reflexivity.
  - rewrite <- app_comm_cons, scan_braces_step. simpl in H. simpl length.
    destruct (Ascii.eqb c "{").
    + f_equal. apply IH. exact H.
    + destruct (Ascii.eqb c "}").
      * destruct k as [|k]; [discriminate|].
        f_equal. apply IH. exact H.
      * f_equal. apply IH. exact H.
Qed.

(** C8 (amended).  When the opening pattern is found and the text after it
    is a brace-balanced [body] followed by the matching closing brace,
    [read_function_body] returns [body] with the white space at its two ends
    removed; it returns nothing when the pattern does not occur, and nothing
    when the file does not exist. *)
Theorem read_function_body_spec :
  forall (func_name content : text),
    (forall before m body after caps,
        re_search (body_pattern func_name) content
        = Some (before, m, body ++ "}"%char :: after, caps) ->
        balanced body = true ->
        read_function_body func_name (Some content) = Some (strip body))
    /\ (re_search (body_pattern func_name) content = None ->
        read_function_body func_name (Some content) = None)
    /\ read_function_body func_name None = None.
Proof.
  intros func_name content. split; [|split].
  - intros before m body after caps Hs Hb.
    unfold read_function_body. rewrite Hs.
    rewrite (scan_braces_balanced body after 0 Hb).
    simpl. rewrite Nat.sub_0_r.
    rewrite firstn_app, firstn_all, Nat.sub_diag. simpl.
    rewrite app_nil_r. reflexivity.
  - intros Hs. unfold read_function_body. rewrite Hs. reflexivity.
  - reflexivity.
Qed.

(** C8 (as stated) fails: the text strictly between the braces of
    [void f(int a){ x; }] is [ x; ] with a blank at each end, and the
    extractor returns [x;]. *)
Lemma read_function_body_strips :
  ~ (forall (func_name content before m body after : text) (caps : captures),
        re_search (body_pattern func_name) content
        = Some (before, m, body ++ "}"%char :: after, caps) ->
        balanced body = true ->
        read_function_body func_name (Some content) = Some body).
Proof.
  intros H.
  specialize (H (T "f") (T "void f(int a){ x; }") [] (T "void f(int a){")
                (T " x; ") [] []).
  assert (H1 : read_function_body (T "f") (Some (T "void f(int a){ x; }"))
               = Some (T "x;")) by (vm_compute; reflexivity).
  rewrite H1 in H.
  assert (H2 : Some (T "x;") = Some (T " x; ")).
  { apply H; vm_compute; reflexivity. }
  vm_compute in H2. discriminate.
Qed.

(** ** The wrapper generator *)

Lemma call_args_app (ps1 ps2 : list (text * text)) :
  forall int_args,
  exists later,
    call_args (ps1 ++ ps2) int_args
    = call_args ps1 int_args ++ call_args ps2 later.
Proof.
  induction ps1 as [|[t n] ps1 IH]; intros int_args; simpl.
  - exists int_args. reflexivity.
  - destruct (is_pointer t).
    + destruct (IH int_args) as [later E]. exists later. rewrite E. reflexivity.
    + destruct int_args as [|v more].
      * destruct (IH []) as [later E]. exists later. exact E.
      * destruct (IH more) as [later E]. exists later. rewrite E. reflexivity.
Qed.

(** *** The folder gives a result *)

Lemma substitute_params_none (d : param_dict) :
  fold_left
    (fun result pv =>
       match result, word_pattern (fst pv) with
       | Some r, Some p =>
           Some (re_sub p (fun _ _ => str_of_int (snd pv)) r)
       | _, _ => None
       end) d None = None.
Proof. induction d as [|pv d IH]; [reflexivity|exact IH]. Qed.

(** With identifiers for names, the substitution is the loop of [re.sub]
    over the dictionary. *)
Lemma substitute_params_names_ok (d : param_dict) :
  names_ok d = true ->
  forall s,
    substitute_params d s
    = Some (fold_left
              (fun result pv =>
                 re_sub (word_boundaries (fst pv))
                        (fun _ _ => str_of_int (snd pv)) result) d s).
Proof.
  unfold substitute_params, names_ok.
  induction d as [|[k v] d IH]; intros H s; [reflexivity|].
  cbn [forallb fst] in H. apply andb_true_iff in H. destruct H as [Hk Hd].
  cbn [fold_left fst snd]. unfold word_pattern at 2. rewrite Hk.
  apply IH. exact Hd.
Qed.

Lemma substitute_params_some (d : param_dict) :
  forall s r, substitute_params d s = Some r -> names_ok d = true.
Proof.
  unfold substitute_params, names_ok.
  induction d as [|[k v] d IH]; intros s r H; [reflexivity|].
  cbn [fold_left fst snd] in H. cbn [forallb fst].
  unfold word_pattern at 2 in H.
  destruct (identifier k).
  - apply IH in H. exact H.
  - rewrite substitute_params_none in H. discriminate.
Qed.

Lemma dict_set_names_ok (d : param_dict) (key : text) (v : Z) :
  names_ok d = true -> identifier key = true ->
  names_ok (dict_set d key v) = true.
Proof.
  unfold names_ok. intros Hd Hk.
  induction d as [|[k x] d IH]; simpl.
  - rewrite Hk. reflexivity.
  - simpl in Hd. apply andb_true_iff in Hd. destruct Hd as [H1 H2].
    destruct (text_eqb k key); simpl; rewrite H1.
    + exact H2.
    + apply IH. exact H2.
Qed.

Lemma build_param_values_names_ok (params : list (text * text)) :
  (forall t n, In (t, n) params -> is_pointer t = false ->
               identifier n = true) ->
  forall int_args d,
    names_ok d = true ->
    names_ok (build_param_values params int_args d) = true.
Proof.
  induction params as [|[t n] params IH]; intros Hp int_args d Hd.
  - exact Hd.
  - cbn [build_param_values].
    assert (Hrest : forall t0 n0, In (t0, n0) params ->
                                  is_pointer t0 = false ->
                                  identifier n0 = true).
    { intros t0 n0 Hin. apply Hp. right. exact Hin. }
    destruct (is_pointer t) eqn:Et.
    + apply IH; assumption.
    + destruct int_args as [|v more].
      * apply IH; assumption.
      * apply IH; [exact Hrest|].
        apply dict_set_names_ok; [exact Hd|].
        apply (Hp t n); [left; reflexivity|exact Et].
Qed.

(** A substitution whose callback always answers goes through. *)
Lemma sub_loop_ask_total (r : regex)
      (f : nat -> text -> captures -> option text) :
  (forall n m caps, f n m caps <> None) ->
  forall s prev skip n,
  exists out n', sub_loop r (ask f) prev s skip (Some n) = (out, Some n').
Proof.
  intros Hf.
  assert (Ha : forall n m caps, exists t, ask f (Some n) m caps = (t, Some (S n))).
  { intros n m caps. unfold ask. destruct (f n m caps) as [t|] eqn:E.
    - exists t. reflexivity.
    - exfalso. exact (Hf n m caps E). }
  induction s as [|c s IH]; intros prev skip n.
  - cbn [sub_loop]. destruct skip as [|k].
    + destruct (match_at r prev []) as [[rest caps]|].
      * destruct (Ha n [] caps) as [t E]. rewrite E. eauto.
      * eauto.
    + eauto.
  - cbn [sub_loop]. destruct skip as [|k]; [|apply IH].
    destruct (match_at r prev (c :: s)) as [[rest caps]|].
    + destruct (length (c :: s) - length rest) as [|m].
      * destruct (Ha n [] caps) as [t E]. rewrite E.
        destruct (IH (Some c) 0 (S n)) as (out & n' & E'). rewrite E'. eauto.
      * destruct (Ha n (firstn (S m) (c :: s)) caps) as [t E]. rewrite E.
        destruct (IH (Some c) m (S n)) as (out & n' & E'). rewrite E'. eauto.
    + destruct (IH (Some c) 0 n) as (out & n' & E'). rewrite E'. eauto.
Qed.

Lemma re_sub_eval_total (r : regex)
      (f : nat -> text -> captures -> option text) (s : text) (calls : nat) :
  (forall n m caps, f n m caps <> None) ->
  exists out calls', re_sub_eval r f s calls = Some (out, calls').
Proof.
  intros Hf. unfold re_sub_eval, re_sub_st.
  destruct (sub_loop_ask_total r f Hf s None 0 calls) as (out & n' & E).
  rewrite E. exists out, n'. reflexivity.
Qed.

Lemma eval_str_answers (py : interpreter) (n : nat) (s : text) :
  answers py -> eval_str py n s <> Silent.
Proof.
  intros Hpy. unfold eval_str.
  destruct (py_eval s); [discriminate|discriminate|apply Hpy].
Qed.

Lemma fold_array_size_answers (py : interpreter) :
  answers py -> forall n m caps, fold_array_size py n m caps <> None.
Proof.
  intros Hpy n m caps. unfold fold_array_size.
  pose proof (eval_str_answers py n (group 1 caps) Hpy) as H.
  destruct (eval_str py n (group 1 caps)); [discriminate|discriminate|].
  exfalso. apply H. reflexivity.
Qed.

Lemma fold_in_comparison_answers (py : interpreter) :
  answers py -> forall n m caps, fold_in_comparison py n m caps <> None.
Proof.
  intros Hpy n m caps. unfold fold_in_comparison.
  pose proof (eval_str_answers py n (group 2 caps) Hpy) as H.
  destruct (eval_str py n (group 2 caps)); [discriminate|discriminate|].
  exfalso. apply H. reflexivity.
Qed.

Lemma comparison_passes_total (py : interpreter) :
  answers py ->
  forall n result calls,
  exists out, comparison_passes py n result calls = Some out.
Proof.
  intros Hpy. induction n as [|n IH]; intros result calls.
  - exists result. reflexivity.
  - cbn [comparison_passes].
    destruct (re_sub_eval_total comparison_pattern (fold_in_comparison py)
                result calls (fold_in_comparison_answers py Hpy))
      as (out & calls' & E).
    rewrite E. destruct (text_eqb out result); [eauto|apply IH].
Qed.

(** With identifiers for names and an interpreter that answers, [fold_code]
    returns a text. *)
Lemma fold_code_total (py : interpreter) (d : param_dict) (code_text : text) :
  names_ok d = true -> answers py ->
  exists folded, fold_code py d code_text = Some folded.
Proof.
  intros Hd Hpy. unfold fold_code.
  rewrite (substitute_params_names_ok d Hd).
  destruct (re_sub_eval_total array_size_pattern (fold_array_size py)
              (fold_left
                 (fun result pv =>
                    re_sub (word_boundaries (fst pv))
                           (fun _ _ => str_of_int (snd pv)) result)
                 d code_text) 0 (fold_array_size_answers py Hpy))
    as (r1 & c1 & E1).
  rewrite E1.
  destruct (re_sub_eval_total comparison_pattern (fold_in_comparison py)
              r1 c1 (fold_in_comparison_answers py Hpy))
    as (r2 & c2 & E2).
  rewrite E2. apply comparison_passes_total. exact Hpy.
Qed.

(** [generate] returns a program without inlining, and with inlining when
    the scalar parameters are named by identifiers and the interpreter
    answers. *)
Lemma generate_total (py : interpreter) (func_sig : FunctionSignature)
      (c_file : option text) (int_args : list Z)
      (array_args : list (list float)) (size : Z) (inline : bool) :
  inline = false
  \/ ((forall t n, In (t, n) (fs_params func_sig) -> is_pointer t = false ->
                   identifier n = true)
      /\ answers py) ->
  exists code_text,
    generate py func_sig c_file int_args array_args size inline
    = Some code_text.
Proof.
  intros H. unfold generate, generate_lines, body_lines.
  destruct inline.
  - destruct H as [H|[Hn Hpy]]; [discriminate|].
    destruct (read_function_body (fs_name func_sig) c_file) as [[|c b]|].
    + cbn [option_map]. eexists. reflexivity.
    + destruct (fold_code_total py
                  (build_param_values (fs_params func_sig) int_args [])
                  (c :: b)
                  (build_param_values_names_ok _ Hn int_args [] eq_refl)
                  Hpy) as [folded E].
      rewrite E. cbn [option_map]. eexists. reflexivity.
    + cbn [option_map]. eexists. reflexivity.
  - cbn [option_map]. eexists. reflexivity.
Qed.

(** C10.  Every program [generate] emits declares the output buffer by the
    line [float output[output_size] = {0};], and holds the call line when
    the body is not inlined (no inlining asked, or no body found in the C
    file); the program is produced without inlining, and with inlining
    whenever the scalar parameters are named by identifiers and the
    interpreter answers; and in the argument list of the call, every pointer
    parameter whose name contains [output] in any case stands as the
    identifier [output], at its own position among the arguments. *)
Theorem generate_output_buffer :
  forall (py : interpreter) (func_sig : FunctionSignature)
         (c_file : option text) (int_args : list Z)
         (array_args : list (list float)) (size : Z) (inline : bool),
    (forall code_text,
        generate py func_sig c_file int_args array_args size inline
        = Some code_text ->
        exists lines,
          code_text = join [nl] lines
          /\ In (T "    float output[" ++ str_of_int size ++ T "] = {0};") lines
          /\ (inline = false
              \/ read_function_body (fs_name func_sig) c_file = None
              \/ read_function_body (fs_name func_sig) c_file = Some [] ->
              In (T "    " ++ fs_name func_sig ++ T "("
                    ++ join (T ", ") (call_args (fs_params func_sig) int_args)
                    ++ T ");") lines))
    /\ (inline = false
        \/ ((forall t n, In (t, n) (fs_params func_sig) ->
                         is_pointer t = false -> identifier n = true)
            /\ answers py) ->
        exists code_text,
          generate py func_sig c_file int_args array_args size inline
          = Some code_text)
    /\ (forall ps1 param_type param_name ps2,
           fs_params func_sig = ps1 ++ (param_type, param_name) :: ps2 ->
           is_pointer param_type = true ->
           is_output_name param_name = true ->
           nth_error (call_args (fs_params func_sig) int_args)
                     (length (call_args ps1 int_args))
           = Some (T "output")).
Proof.
  intros py func_sig c_file int_args array_args size inline.
  split; [|split].
  - intros code_text H. unfold generate in H.
    destruct (generate_lines py func_sig c_file int_args array_args size
                inline) as [lines|] eqn:El; [|discriminate].
    cbn [option_map] in H. injection H as <-.
    exists lines. split; [reflexivity|].
    unfold generate_lines in El.
    destruct (body_lines py func_sig c_file int_args inline) as [body|] eqn:Eb;
      [|discriminate].
    injection El as <-. split.
    + right. right. right. right.
      apply in_or_app. right. left. reflexivity.
    + intros Hc.
      assert (Eb' : body = [call_line func_sig int_args; []]).
      { unfold body_lines in Eb.
        destruct inline.
        - destruct Hc as [Hc|[Hc|Hc]]; [discriminate| |];
            rewrite Hc in Eb; injection Eb as <-; reflexivity.
        - injection Eb as <-. reflexivity. }
      rewrite Eb'.
      right. right. right. right.
      apply in_or_app. right. right. right. left. reflexivity.
  - apply generate_total.
  - intros ps1 param_type param_name ps2 Hp Ht Hn.
    rewrite Hp.
    destruct (call_args_app ps1 ((param_type, param_name) :: ps2) int_args)
      as [later E].
    rewrite E. simpl. rewrite Ht, Hn.
    rewrite nth_error_app2, Nat.sub_diag by lia. reflexivity.
Qed.

(** ** The command line of the wrapper generator *)

Lemma parse_arguments_counts (w : world) (l : list text) :
  forall int_args array_args ints arrays,
    parse_arguments w l int_args array_args = Some (ints, arrays) ->
    length ints = length int_args + length (filter is_scalar_arg l).
Proof.
  induction l as [|arg rest IH]; intros int_args array_args ints arrays H;
    cbn [parse_arguments] in H.
  - injection H as <- _. simpl. lia.
  - cbn [filter]. unfold is_scalar_arg at 1.
    destruct (startswith (T "@") arg); cbn [negb length].
    + destruct (json_file w (tl arg)) as [data|]; [|discriminate].
      destruct (load_json_array data); try discriminate.
      apply IH in H. exact H.
    + destruct (py_int arg) as [v|]; [|discriminate].
      apply IH in H. rewrite length_app in H. simpl in H. lia.
Qed.

(** C7.  When the function is in the registry and the number of scalar
    arguments on the command line (those not starting with [@]) differs from
    the number of parameters whose type does not end in [*], [main] returns
    exit code 1 and writes no file. *)
Theorem main_rejects_scalar_count_mismatch :
  forall (w : world) (a : cli_args) (func_sig : FunctionSignature),
    registry_get (registry w) (function_name a) = Some func_sig ->
    length (filter is_scalar_arg (args a)) <> expected_int_count func_sig ->
    main w a = Some {| exit_code := 1; written := [] |}.
Proof.
  intros w a func_sig Hreg Hcount. unfold main.
  destruct (registry w) as [|entry reg] eqn:Er; [reflexivity|].
  rewrite Hreg.
  destruct (parse_arguments w (args a) [] []) as [[ints arrays]|] eqn:Ep;
    [|reflexivity].
  apply parse_arguments_counts in Ep. simpl in Ep.
  destruct (length ints =? expected_int_count func_sig) eqn:E.
  - apply Nat.eqb_eq in E. lia.
  - reflexivity.
Qed.

(** ** Substitution where the pattern cannot match *)

Section NoMatch.
Variable St : Type.
Variable r : regex.
Variable f : St -> text -> captures -> text * St.
Variable c : ascii.
Hypothesis first_char :
  forall prev t, hd_error t <> Some c -> match_at r prev t = None.

Lemma sub_loop_unchanged (s : text) :
  ~ In c s ->
  forall prev st, sub_loop r f prev s 0 st = (s, st).
Proof.
  induction s as [|x s IH]; intros Hc prev st; simpl.
  - rewrite first_char by (simpl; discriminate). reflexivity.
  - rewrite first_char.
    + rewrite IH; [reflexivity|]. intros H. apply Hc. right. exact H.
    + simpl. intros H. injection H as ->. apply Hc. left. reflexivity.
Qed.
End NoMatch.

Lemma re_sub_unchanged (r : regex) (f : text -> captures -> text) (c : ascii)
      (s : text) :
  (forall prev t, hd_error t <> Some c -> match_at r prev t = None) ->
  ~ In c s ->
  re_sub r f s = s.
Proof.
  intros H Hc. unfold re_sub, re_sub_st.
  rewrite (sub_loop_unchanged unit r _ c H s Hc). reflexivity.
Qed.

(** A pattern that begins with a literal character matches only where that
    character stands. *)
Lemma match_at_first_char (c : ascii) (r : regex) (prev : option ascii)
      (t : text) :
  hd_error t <> Some c -> match_at (RSeq (RChar c) r) prev t = None.
Proof.
  intros H. unfold match_at. simpl.
  destruct t as [|x t]; [reflexivity|].
  destruct (Ascii.eqb x c) eqn:E; [|reflexivity].
  apply Ascii.eqb_eq in E. subst x. simpl in H. congruence.
Qed.

(** ** The expression simplifier *)

Lemma text_eqb_refl (t : text) : text_eqb t t = true.
Proof.
  unfold text_eqb. destruct (list_eq_dec ascii_dec t t); congruence.
Qed.

(** C2 (as stated) fails: one pass of [simplify_expression] turns [((0))]
    into [(0)] and a second pass turns that into [0]; the five turns of
    [simplify_all_expressions] leave [(0)] of a zero under ten pairs of
    parentheses, which a second run reduces to [0]. *)
Lemma simplify_not_idempotent :
  ~ (forall e : text,
        simplify_expression (simplify_expression e) = simplify_expression e)
  /\ ~ (forall e : text,
          simplify_all_expressions (simplify_all_expressions e)
          = simplify_all_expressions e).
Proof.
  split; intros H.
  - specialize (H (T "((0))")). vm_compute in H. discriminate.
  - specialize (H (T "((((((((((0))))))))))")). vm_compute in H. discriminate.
Qed.

Lemma main_rejects_scalar_count_mismatch_witness :
  main addone_world (addone_cli [T "4"; T "5"; T "@x.json"])
  = Some {| exit_code := 1; written := [] |}.
Proof.
  apply (main_rejects_scalar_count_mismatch
           addone_world (addone_cli [T "4"; T "5"; T "@x.json"]) addone_sig).
  - reflexivity.
  - vm_compute. lia.
Defined.

(** ** The parser of the expression fragment *)

Lemma parse_sum_S n ts :
  parse_sum (S n) ts
  = match parse_term n ts with
    | POk e rest => parse_sum_rest n e rest
    | other => other
    end.
Proof. reflexivity. Qed.

Lemma parse_sum_rest_S n left ts :
  parse_sum_rest (S n) left ts
  = match ts with
    | TOp o :: ts' =>
        if is_sum_op o then
          match parse_term n ts' with
          | POk e rest => parse_sum_rest n (EBin o left e) rest
          | other => other
          end
        else POk left ts
    | _ => POk left ts
    end.
Proof. reflexivity. Qed.

Lemma parse_term_S n ts :
  parse_term (S n) ts
  = match parse_factor n ts with
    | POk e rest => parse_term_rest n e rest
    | other => other
    end.
Proof. reflexivity. Qed.

Lemma parse_term_rest_S n left ts :
  parse_term_rest (S n) left ts
  = match ts with
    | TOp o :: ts' =>
        if is_term_op o then
          match parse_factor n ts' with
          | POk e rest => parse_term_rest n (EBin o left e) rest
          | other => other
          end
        else POk left ts
    | _ => POk left ts
    end.
Proof. reflexivity. Qed.

Lemma parse_factor_S n ts :
  parse_factor (S n) ts
  = match ts with
    | TOp Sub :: ts' =>
        match parse_factor n ts' with
        | POk e rest => POk (ENeg e) rest
        | other => other
        end
    | TOp Add :: ts' =>
        match parse_factor n ts' with
        | POk e rest => POk (EPos e) rest
        | other => other
        end
    | _ => parse_power n ts
    end.
Proof. reflexivity. Qed.

Lemma parse_power_S n ts :
  parse_power (S n) ts
  = match parse_atom n ts with
    | POk base (TLParen :: _) => PCall
    | POk base (TOp Pow :: ts') =>
        match parse_factor n ts' with
        | POk e rest => POk (EBin Pow base e) rest
        | other => other
        end
    | other => other
    end.
Proof. reflexivity. Qed.

Lemma parse_atom_S n ts :
  parse_atom (S n) ts
  = match ts with
    | TNum z :: rest => POk (ENum z) rest
    | TName x :: rest => POk (EName x) rest
    | TLParen :: TRParen :: rest => POk ETuple0 rest
    | TLParen :: ts' =>
        match parse_sum n ts' with
        | POk e (TRParen :: rest) => POk e rest
        | POk _ _ => PSyntaxError
        | other => other
        end
    | _ => PSyntaxError
    end.
Proof. reflexivity. Qed.

Ltac inv_ok H := injection H as <- <-.

Ltac finish :=
  unfold consumes, extends, has_name in *; simpl in *;
  repeat match goal with
         | H : _ /\ _ |- _ => destruct H
         end;
  first
    [ solve [exfalso; lia]
    | split;
      [ lia
      | try assumption;
        repeat match goal with
               | H : existsb is_name _ = _ |- _ => rewrite H
               | H : _ || existsb is_name _ = _ |- _ => rewrite <- H
               end;
        try btauto ] ].

Lemma parse_invariant : forall n, parse_invariant_at n.
Proof.
  induction n as [|n (Hsum & Hsumr & Hterm & Htermr & Hfac & Hpow & Hatom)];
    [unfold parse_invariant_at; repeat apply conj; intros; discriminate|].
  unfold parse_invariant_at; repeat apply conj.
  - intros ts e rest H. rewrite parse_sum_S in H.
    destruct (parse_term n ts) as [e1 r1| | |] eqn:E1; try discriminate.
    apply Hterm in E1. apply Hsumr in H. finish.
  - intros left ts e rest H. rewrite parse_sum_rest_S in H.
    destruct ts as [|[z|x|o| |] ts']; try (inv_ok H; finish; fail).
    destruct (is_sum_op o); [|inv_ok H; finish; fail].
    destruct (parse_term n ts') as [e1 r1| | |] eqn:E1; try discriminate.
    apply Hterm in E1. apply Hsumr in H. finish.
  - intros ts e rest H. rewrite parse_term_S in H.
    destruct (parse_factor n ts) as [e1 r1| | |] eqn:E1; try discriminate.
    apply Hfac in E1. apply Htermr in H. finish.
  - intros left ts e rest H. rewrite parse_term_rest_S in H.
    destruct ts as [|[z|x|o| |] ts']; try (inv_ok H; finish; fail).
    destruct (is_term_op o); [|inv_ok H; finish; fail].
    destruct (parse_factor n ts') as [e1 r1| | |] eqn:E1; try discriminate.
    apply Hfac in E1. apply Htermr in H. finish.
  - intros ts e rest H. rewrite parse_factor_S in H.
    destruct ts as [|[z|x|o| |] ts']; try (apply Hpow in H; exact H).
    destruct o; try (apply Hpow in H; exact H).
    + destruct (parse_factor n ts') as [e1 r1| | |] eqn:E1; try discriminate.
      inv_ok H. apply Hfac in E1. finish.
    + destruct (parse_factor n ts') as [e1 r1| | |] eqn:E1; try discriminate.
      inv_ok H. apply Hfac in E1. finish.
  - intros ts e rest H. rewrite parse_power_S in H.
    destruct (parse_atom n ts) as [e1 r1| | |] eqn:E1; try discriminate.
    apply Hatom in E1.
    destruct r1 as [|[z|x|o| |] r1']; try (inv_ok H; exact E1); try discriminate.
    destruct o; try (inv_ok H; exact E1).
    destruct (parse_factor n r1') as [e2 r2| | |] eqn:E2; try discriminate.
    inv_ok H. apply Hfac in E2. finish.
  - intros ts e rest H. rewrite parse_atom_S in H.
    destruct ts as [|[z|x|o| |] ts']; try discriminate;
      try (inv_ok H; finish; fail).
    destruct ts' as [|[z|x|o| |] ts''];
      try (inv_ok H; finish; fail).
    all: match type of H with
         | context [parse_sum ?m ?l] =>
             destruct (parse_sum m l) as [e1 r1| | |] eqn:E1;
             try discriminate;
             destruct r1 as [|[z1|x1|o1| |] r1']; try discriminate;
             inv_ok H; apply Hsum in E1; finish
         end.
Qed.

Ltac shorter E :=
  match type of E with
  | parse_sum ?n _ = POk _ _ =>
      apply (proj1 (parse_invariant n)) in E
  | parse_term ?n _ = POk _ _ =>
      apply (proj1 (proj2 (proj2 (parse_invariant n)))) in E
  | parse_factor ?n _ = POk _ _ =>
      apply (proj1 (proj2 (proj2 (proj2 (proj2 (parse_invariant n)))))) in E
  | parse_atom ?n _ = POk _ _ =>
      apply (proj2 (proj2 (proj2 (proj2 (proj2 (proj2 (parse_invariant n)))))))
        in E
  end;
  destruct E as [E _]; simpl in E.

Lemma enough_fuel : forall n, enough_fuel_at n.
Proof.
  induction n as [|n (Hsum & Hsumr & Hterm & Htermr & Hfac & Hpow & Hatom)];
    [unfold enough_fuel_at; repeat apply conj; intros; lia|].
  unfold enough_fuel_at; repeat apply conj.
  - intros ts L. rewrite parse_sum_S.
    destruct (parse_term n ts) as [e1 r1| | |] eqn:E1; try discriminate.
    + shorter E1. apply Hsumr. lia.
    + exfalso. apply (Hterm ts); [lia|exact E1].
  - intros left ts L. rewrite parse_sum_rest_S.
    destruct ts as [|[z|x|o| |] ts']; try discriminate.
    destruct (is_sum_op o); [|discriminate]. simpl in L.
    destruct (parse_term n ts') as [e1 r1| | |] eqn:E1; try discriminate.
    + shorter E1. apply Hsumr. lia.
    + exfalso. apply (Hterm ts'); [lia|exact E1].
  - intros ts L. rewrite parse_term_S.
    destruct (parse_factor n ts) as [e1 r1| | |] eqn:E1; try discriminate.
    + shorter E1. apply Htermr. lia.
    + exfalso. apply (Hfac ts); [lia|exact E1].
  - intros left ts L. rewrite parse_term_rest_S.
    destruct ts as [|[z|x|o| |] ts']; try discriminate.
    destruct (is_term_op o); [|discriminate]. simpl in L.
    destruct (parse_factor n ts') as [e1 r1| | |] eqn:E1; try discriminate.
    + shorter E1. apply Htermr. lia.
    + exfalso. apply (Hfac ts'); [lia|exact E1].
  - intros ts L. rewrite parse_factor_S.
    destruct ts as [|[z|x|o| |] ts']; try (apply Hpow; lia).
    simpl in L.
    destruct o; try (apply Hpow; simpl; lia).
    + destruct (parse_factor n ts') as [e1 r1| | |] eqn:E1; try discriminate.
      exfalso. apply (Hfac ts'); [lia|exact E1].
    + destruct (parse_factor n ts') as [e1 r1| | |] eqn:E1; try discriminate.
      exfalso. apply (Hfac ts'); [lia|exact E1].
  - intros ts L. rewrite parse_power_S.
    destruct (parse_atom n ts) as [e1 r1| | |] eqn:E1; try discriminate.
    + shorter E1.
      destruct r1 as [|[z|x|o| |] r1']; try discriminate.
      destruct o; try discriminate. simpl in E1.
      destruct (parse_factor n r1') as [e2 r2| | |] eqn:E2; try discriminate.
      exfalso. apply (Hfac r1'); [lia|exact E2].
    + exfalso. apply (Hatom ts); [lia|exact E1].
  - intros ts L. rewrite parse_atom_S.
    destruct ts as [|[z|x|o| |] ts']; try discriminate.
    simpl in L.
    destruct ts' as [|[z|x|o| |] ts'']; try discriminate.
    all: match goal with
         | |- context [parse_sum ?m ?l] =>
             destruct (parse_sum m l) as [e1 r1| | |] eqn:E1;
             try discriminate;
             [ destruct r1 as [|[z1|x1|o1| |] r1']; discriminate
             | exfalso; apply (Hsum l); [simpl in *; lia|exact E1] ]
         end.
Qed.

Lemma eval_expr_name (e : expr) :
  expr_has_name e = true -> eval_expr e = Raise.
Proof.
  induction e as [z|x| |a IH|a IH|o a IHa b IHb]; simpl; intros H;
    try discriminate; try reflexivity.
  - rewrite (IH H). reflexivity.
  - rewrite (IH H). reflexivity.
  - apply orb_true_iff in H. destruct H as [H|H].
    + rewrite (IHa H). reflexivity.
    + rewrite (IHb H). destruct (eval_expr a); reflexivity.
Qed.

Lemma py_eval_name (s : text) (ts : list token) :
  lex s = Lexed ts -> has_name ts = true -> py_eval s = Raise.
Proof.
  intros Hl Hn. unfold py_eval. rewrite Hl. unfold parse.
  destruct (parse_sum (parse_fuel ts) ts) as [e rest| | |] eqn:E;
    try reflexivity.
  - destruct rest as [|t rest]; [|reflexivity].
    apply (proj1 (parse_invariant _)) in E. destruct E as [_ E].
    simpl in E. rewrite orb_false_r in E. rewrite Hn in E.
    rewrite (eval_expr_name e (eq_sym E)). reflexivity.
  - exfalso. apply (proj1 (enough_fuel (parse_fuel ts)) ts); [|exact E].
    unfold parse_fuel. lia.
Qed.

(** ** The evaluator of the constant folder *)

(** In the fragment of the embedding, a subexpression that mentions an
    identifier is not evaluated to a value, whatever the interpreter answers
    elsewhere: the callbacks return the matched text as it is, and
    [fold_expression] the substituted text. *)
Lemma fold_leaves_names_in_fragment :
  forall (py : interpreter) (e : text) (ts : list token),
    lex e = Lexed ts ->
    has_name ts = true ->
    (forall n m caps,
        group 1 caps = e -> fold_array_size py n m caps = Some m)
    /\ (forall n m caps,
           group 2 caps = e -> fold_in_comparison py n m caps = Some m)
    /\ (forall param_values src substituted,
           substitute_params param_values src = Some substituted ->
           strip substituted = e ->
           fold_expression py param_values src = Some e).
Proof.
  intros py e ts Hl Hn. pose proof (py_eval_name e ts Hl Hn) as Hr.
  split; [|split].
  - intros n m caps <-. unfold fold_array_size, eval_str. rewrite Hr.
    reflexivity.
  - intros n m caps <-. unfold fold_in_comparison, eval_str. rewrite Hr.
    reflexivity.
  - intros param_values src substituted Hs He. unfold fold_expression.
    rewrite Hs. cbv zeta. rewrite He. unfold eval_str. rewrite Hr.
    reflexivity.
Qed.

(** C1.  The evaluator is not restricted to the grammar [+ - * / ( )],
    integer literals and white space: the folder hands the text to the
    interpreter's [eval] without looking at its characters.  The operator
    [%] is outside the grammar, and still [N % 4] with [N] bound to 7 is
    evaluated by [fold_expression] and replaced by [3], and the bracketed
    [7 % 4] is evaluated by [fold_code] and replaced by [3], whatever the
    interpreter. *)
Theorem fold_evaluates_outside_restricted_grammar :
  forall py : interpreter,
    in_restricted_grammar (T "7 % 4") = false
    /\ fold_expression py [(T "N", 7%Z)] (T "N % 4") = Some (T "3")
    /\ fold_array_size py 0 (T "[7 % 4]") [(1, T "7 % 4")] = Some (T "[3]")
    /\ fold_code py [] (T "a[7 % 4] = 0;") = Some (T "a[3] = 0;").
Proof.
  intros py. repeat split; vm_compute; reflexivity.
Qed.

(** The same with other operators of the interpreter that the grammar of
    the specification does not have. *)
Lemma fold_code_other_operators (py : interpreter) :
  fold_code py [] (T "a[7 % 4] = b[2 ** 3] + c[9 // 2];")
  = Some (T "a[3] = b[8] + c[4];").
Proof. vm_compute. reflexivity. Qed.

(** ** The regular-expression engine on literals and repetitions *)

Lemma strip_prefix_app (l s : text) : strip_prefix l (l ++ s) = Some s.
Proof.
  induction l as [|x l IH]; simpl; [reflexivity|].
  rewrite Ascii.eqb_refl. exact IH.
Qed.

Lemma strip_prefix_inv (l : text) :
  forall s s', strip_prefix l s = Some s' -> s = l ++ s'.
Proof.
  induction l as [|x l IH]; intros s s' H; simpl in H.
  - injection H as ->. reflexivity.
  - destruct s as [|c s]; [discriminate|].
    destruct (Ascii.eqb c x) eqn:E; [|discriminate].
    apply Ascii.eqb_eq in E. subst c. simpl. f_equal. apply IH. exact H.
Qed.

Lemma rmatch_RLit (l : text) :
  forall (R : Type) prev s caps
         (k : option ascii -> text -> captures -> option R),
    rmatch (RLit l) R prev s caps k
    = match strip_prefix l s with
      | Some s' => k (prev_after l prev) s' caps
      | None => None
      end.
Proof.
  induction l as [|x l IH]; intros R prev s caps k.
  - reflexivity.
  - destruct l as [|y l].
    + simpl. destruct s as [|c s]; [reflexivity|].
      destruct (Ascii.eqb c x) eqn:E; [|reflexivity].
      apply Ascii.eqb_eq in E. subst c. reflexivity.
    + change (RLit (x :: y :: l)) with (RSeq (RChar x) (RLit (y :: l))).
      cbn [rmatch]. destruct s as [|c s]; [reflexivity|].
      cbn [strip_prefix]. destruct (Ascii.eqb c x) eqn:E; [|reflexivity].
      apply Ascii.eqb_eq in E. subst c.
      rewrite IH. reflexivity.
Qed.

Section Star.
Variable R : Type.
Variable p : ascii -> bool.

Lemma star_greedy (w : text) :
  forall prev s' caps (k : option ascii -> text -> captures -> option R) r,
    forallb p w = true ->
    k (prev_after w prev) s' caps = Some r ->
    stops p s' ->
    star p prev (w ++ s') caps k = Some r.
Proof.
  induction w as [|c w IH]; intros prev s' caps k r Hw Hk Hs; simpl in *.
  - destruct s' as [|x s']; simpl; [exact Hk|]. rewrite Hs. exact Hk.
  - apply andb_true_iff in Hw. destruct Hw as [Hc Hw]. rewrite Hc.
    rewrite (IH (Some c) s' caps k r Hw Hk Hs). reflexivity.
Qed.

Lemma star_inv (s : text) :
  forall prev caps (k : option ascii -> text -> captures -> option R) r,
    star p prev s caps k = Some r ->
    exists w s' prev',
      s = w ++ s' /\ forallb p w = true /\ k prev' s' caps = Some r.
Proof.
  induction s as [|c s IH]; intros prev caps k r H; simpl in H.
  - exists [], [], prev. auto.
  - destruct (p c) eqn:Ec.
    + destruct (star p (Some c) s caps k) as [r'|] eqn:E.
      * injection H as ->. apply IH in E.
        destruct E as (w & s' & prev' & -> & Hw & Hk).
        exists (c :: w), s', prev'. simpl. rewrite Ec, Hw. auto.
      * exists [], (c :: s), prev. auto.
    + exists [], (c :: s), prev. auto.
Qed.

Lemma firstn_app_exact (w s' : text) :
  firstn (length (w ++ s') - length s') (w ++ s') = w.
Proof.
  rewrite length_app, Nat.add_sub, firstn_app, Nat.sub_diag, firstn_all.
  simpl. apply app_nil_r.
Qed.

Lemma group_plus_complete (n : nat) (w : text) :
  forall prev s' caps (k : option ascii -> text -> captures -> option R) r,
    w <> [] ->
    forallb p w = true ->
    stops p s' ->
    k (prev_after w prev) s' ((n, w) :: caps) = Some r ->
    rmatch (RGroup n (RPlus p)) R prev (w ++ s') caps k = Some r.
Proof.
  intros prev s' caps k r Hne Hw Hs Hk.
  destruct w as [|x w]; [congruence|].
  cbn [rmatch]. simpl app. simpl in Hw.
  apply andb_true_iff in Hw. destruct Hw as [Hx Hw]. rewrite Hx.
  apply star_greedy; auto.
  change (x :: w ++ s') with ((x :: w) ++ s').
  rewrite firstn_app_exact. exact Hk.
Qed.

Lemma group_plus_inv (n : nat) :
  forall prev s caps (k : option ascii -> text -> captures -> option R) r,
    rmatch (RGroup n (RPlus p)) R prev s caps k = Some r ->
    exists w s' prev',
      w <> [] /\ forallb p w = true /\ s = w ++ s'
      /\ k prev' s' ((n, w) :: caps) = Some r.
Proof.
  intros prev s caps k r H. cbn [rmatch] in H.
  destruct s as [|x s]; [discriminate|].
  destruct (p x) eqn:Ex; [|discriminate].
  apply star_inv in H. destruct H as (w & s' & prev' & -> & Hw & Hk).
  exists (x :: w), s', prev'. repeat split.
  - discriminate.
  - simpl. rewrite Ex, Hw. reflexivity.
  - change (x :: w ++ s') with ((x :: w) ++ s') in Hk.
    rewrite firstn_app_exact in Hk. exact Hk.
Qed.
End Star.

Lemma rmatch_RSeq (r1 r2 : regex) (R : Type) prev s caps
      (k : option ascii -> text -> captures -> option R) :
  rmatch (RSeq r1 r2) R prev s caps k
  = rmatch r1 R prev s caps
           (fun prev' s' caps' => rmatch r2 R prev' s' caps' k).
Proof. reflexivity. Qed.

Arguments star_greedy {R}.
Arguments star_inv {R}.
Arguments group_plus_complete {R}.
Arguments group_plus_inv {R}.

Lemma identifier_inv (name : text) :
  identifier name = true -> name <> [] /\ forallb is_word name = true.
Proof.
  destruct name as [|c name]; [discriminate|]. intros H. split; [discriminate|exact H].
Qed.

Lemma identifier_intro (name : text) :
  name <> [] -> forallb is_word name = true -> identifier name = true.
Proof.
  destruct name as [|c name]; [congruence|]. intros _ H. exact H.
Qed.

Lemma match_free_call (name rest : text) (prev : option ascii) :
  identifier name = true ->
  match_at free_pattern prev (free_call name ++ rest)
  = Some (rest, [(1, name)]).
Proof.
  intros Hn. apply identifier_inv in Hn. destruct Hn as [Hne Hw].
  unfold match_at, free_pattern, free_call. cbn [RCat].
  rewrite rmatch_RSeq, rmatch_RLit, <- !app_assoc, strip_prefix_app.
  rewrite rmatch_RSeq.
  apply group_plus_complete; [exact Hne|exact Hw|reflexivity|].
  rewrite rmatch_RLit, strip_prefix_app. reflexivity.
Qed.

Lemma match_free_inv (u rest : text) (caps : captures) (prev : option ascii) :
  match_at free_pattern prev u = Some (rest, caps) ->
  exists name,
    identifier name = true /\ u = free_call name ++ rest
    /\ caps = [(1, name)].
Proof.
  unfold match_at, free_pattern. cbn [RCat].
  rewrite rmatch_RSeq, rmatch_RLit. intros H.
  destruct (strip_prefix (T "free(") u) as [u1|] eqn:E1; [|discriminate].
  apply strip_prefix_inv in E1. subst u.
  rewrite rmatch_RSeq in H.
  apply group_plus_inv in H.
  destruct H as (w & s' & prev' & Hne & Hw & -> & H).
  rewrite rmatch_RLit in H.
  destruct (strip_prefix (T ");") s') as [u2|] eqn:E2; [|discriminate].
  apply strip_prefix_inv in E2. subst s'. injection H as <- <-.
  exists w. split; [apply identifier_intro; assumption|]. split; [|reflexivity].
  unfold free_call. rewrite <- !app_assoc. reflexivity.
Qed.

Lemma match_calloc_call (name size rest : text) (prev : option ascii) :
  identifier name = true ->
  size_text size = true ->
  match_at calloc_pattern prev (calloc_call name size ++ rest)
  = Some (rest, [(2, size); (1, name)]).
Proof.
  intros Hn Hs. apply identifier_inv in Hn. destruct Hn as [Hne Hw].
  assert (Hs' : size <> [] /\ forallb (not_char ",") size = true).
  { destruct size; [discriminate|]. split; [discriminate|exact Hs]. }
  destruct Hs' as [Hsne Hsw].
  unfold match_at, calloc_pattern, calloc_call. cbn [RCat].
  rewrite rmatch_RSeq, rmatch_RLit, <- !app_assoc, strip_prefix_app.
  rewrite rmatch_RSeq.
  apply group_plus_complete; [exact Hne|exact Hw|reflexivity|].
  rewrite rmatch_RSeq, rmatch_RLit, strip_prefix_app.
  rewrite rmatch_RSeq.
  apply group_plus_complete; [exact Hsne|exact Hsw|reflexivity|].
  rewrite rmatch_RLit, strip_prefix_app. reflexivity.
Qed.

Lemma match_calloc_inv (u rest : text) (caps : captures) (prev : option ascii) :
  match_at calloc_pattern prev u = Some (rest, caps) ->
  exists name size,
    identifier name = true /\ size_text size = true
    /\ u = calloc_call name size ++ rest
    /\ caps = [(2, size); (1, name)].
Proof.
  unfold match_at, calloc_pattern. cbn [RCat].
  rewrite rmatch_RSeq, rmatch_RLit. intros H.
  destruct (strip_prefix (T "float *") u) as [u1|] eqn:E1; [|discriminate].
  apply strip_prefix_inv in E1. subst u.
  rewrite rmatch_RSeq in H.
  apply group_plus_inv in H.
  destruct H as (w & s' & prev' & Hne & Hw & -> & H).
  rewrite rmatch_RSeq, rmatch_RLit in H.
  destruct (strip_prefix (T " = calloc(") s') as [u2|] eqn:E2; [|discriminate].
  apply strip_prefix_inv in E2. subst s'.
  rewrite rmatch_RSeq in H.
  apply group_plus_inv in H.
  destruct H as (w2 & s2 & prev2 & Hne2 & Hw2 & -> & H).
  rewrite rmatch_RLit in H.
  destruct (strip_prefix (T ", sizeof(float));") s2) as [u3|] eqn:E3;
    [|discriminate].
  apply strip_prefix_inv in E3. subst s2. injection H as <- <-.
  exists w, w2. split; [apply identifier_intro; assumption|].
  split.
  { destruct w2; [congruence|exact Hw2]. }
  split; [|reflexivity].
  unfold calloc_call. rewrite <- !app_assoc. reflexivity.
Qed.

Section SubLoop.
Variable St : Type.
Variable r : regex.
Variable f : St -> text -> captures -> text * St.
Hypothesis prev_free : forall p p' s, match_at r p s = match_at r p' s.

Lemma sub_loop_prev (s : text) :
  forall p p' skip st, sub_loop r f p s skip st = sub_loop r f p' s skip st.
Proof.
  induction s as [|c s IH]; intros p p' skip st; simpl.
  - rewrite (prev_free p p'). reflexivity.
  - destruct skip; [|reflexivity].
    rewrite (prev_free p p'). reflexivity.
Qed.

Lemma sub_loop_skip (m : text) :
  forall p p' rest st,
    sub_loop r f p (m ++ rest) (length m) st = sub_loop r f p' rest 0 st.
Proof.
  induction m as [|c m IH]; intros p p' rest st; simpl.
  - apply sub_loop_prev.
  - apply IH.
Qed.

Lemma sub_loop_match (m rest : text) (caps : captures) :
  forall p st,
    m <> [] ->
    match_at r p (m ++ rest) = Some (rest, caps) ->
    sub_loop r f p (m ++ rest) 0 st
    = (let '(rep, st1) := f st m caps in
       let '(out, st2) := sub_loop r f None rest 0 st1 in
       (rep ++ out, st2)).
Proof.
  intros p st Hne Hm. destruct m as [|c m]; [congruence|].
  simpl app. cbn [sub_loop]. simpl app in Hm. rewrite Hm.
  assert (E : length (c :: m ++ rest) - length rest = S (length m))
    by (cbn [length]; rewrite length_app; lia).
  rewrite E.
  replace (firstn (S (length m)) (c :: m ++ rest)) with (c :: m).
  2:{ simpl. f_equal. rewrite firstn_app, Nat.sub_diag, firstn_all.
      simpl. rewrite app_nil_r. reflexivity. }
  destruct (f st (c :: m) caps) as [rep st1].
  rewrite (sub_loop_skip m (Some c) None rest st1). reflexivity.
Qed.

Lemma sub_loop_copy (c : ascii) (s : text) :
  forall p st,
    match_at r p (c :: s) = None ->
    sub_loop r f p (c :: s) 0 st
    = (let '(out, st1) := sub_loop r f None s 0 st in (c :: out, st1)).
Proof.
  intros p st Hm. cbn [sub_loop]. rewrite Hm.
  rewrite (sub_loop_prev s (Some c) None). reflexivity.
Qed.

Hypothesis text_free :
  forall st st' m caps, fst (f st m caps) = fst (f st' m caps).

Lemma sub_loop_text (s : text) :
  forall p skip st st',
    fst (sub_loop r f p s skip st) = fst (sub_loop r f p s skip st').
Proof.
  induction s as [|c s IH]; intros p skip st st'; cbn [sub_loop].
  - destruct skip; [|reflexivity].
    destruct (match_at r p []) as [[rest caps]|]; [|reflexivity].
    apply text_free.
  - destruct skip; [|apply IH].
    destruct (match_at r p (c :: s)) as [[rest caps]|].
    + destruct (length (c :: s) - length rest).
      * pose proof (text_free st st' [] caps) as Hf.
        destruct (f st [] caps) as [rep st1], (f st' [] caps) as [rep' st1'].
        simpl in Hf. subst rep'.
        pose proof (IH (Some c) 0 st1 st1') as Hs.
        destruct (sub_loop r f (Some c) s 0 st1),
          (sub_loop r f (Some c) s 0 st1').
        simpl in *. congruence.
      * pose proof (text_free st st' (firstn (S n) (c :: s)) caps) as Hf.
        destruct (f st (firstn (S n) (c :: s)) caps) as [rep st1],
          (f st' (firstn (S n) (c :: s)) caps) as [rep' st1'].
        simpl in Hf. subst rep'.
        pose proof (IH (Some c) n st1 st1') as Hs.
        destruct (sub_loop r f (Some c) s n st1),
          (sub_loop r f (Some c) s n st1').
        simpl in *. congruence.
    + pose proof (IH (Some c) 0 st st') as Hs.
      destruct (sub_loop r f (Some c) s 0 st),
        (sub_loop r f (Some c) s 0 st').
      simpl in *. congruence.
Qed.

Lemma search_from_none (s : text) :
  forall prev before,
    (forall pre u, s = pre ++ u -> match_at r None u = None) ->
    search_from r prev before s = None.
Proof.
  induction s as [|c s IH]; intros prev before H; simpl.
  - rewrite (prev_free prev None), (H [] []); reflexivity.
  - rewrite (prev_free prev None), (H [] (c :: s)) by reflexivity.
    apply IH. intros pre u ->. apply (H (c :: pre)). reflexivity.
Qed.

Lemma search_from_none_inv (s : text) :
  forall prev before,
    search_from r prev before s = None ->
    forall pre u, s = pre ++ u -> match_at r None u = None.
Proof.
  induction s as [|c s IH]; intros prev before H pre u E; simpl in H.
  - destruct pre; [|discriminate]. simpl in E. subst u.
    rewrite (prev_free None prev).
    destruct (match_at r prev []) as [[? ?]|]; [discriminate|reflexivity].
  - destruct (match_at r prev (c :: s)) as [[rest caps]|] eqn:Em;
      [discriminate|].
    destruct pre as [|x pre].
    + simpl in E. subst u. rewrite (prev_free None prev). exact Em.
    + injection E as -> ->. eapply IH; [exact H|reflexivity].
Qed.
End SubLoop.

Arguments sub_loop_prev {St}.
Arguments sub_loop_skip {St}.
Arguments sub_loop_match {St}.
Arguments sub_loop_copy {St}.
Arguments sub_loop_text {St}.
Arguments search_from_none {r}.
Arguments search_from_none_inv {r}.

Lemma free_prev_free (p p' : option ascii) (s : text) :
  match_at free_pattern p s = match_at free_pattern p' s.
Proof.
  destruct (match_at free_pattern p s) as [[rest caps]|] eqn:E.
  - apply match_free_inv in E. destruct E as (name & Hn & -> & ->).
    symmetry. apply match_free_call. exact Hn.
  - destruct (match_at free_pattern p' s) as [[rest caps]|] eqn:E';
      [|reflexivity].
    apply match_free_inv in E'. destruct E' as (name & Hn & -> & ->).
    rewrite match_free_call in E by exact Hn. discriminate.
Qed.

Lemma calloc_prev_free (p p' : option ascii) (s : text) :
  match_at calloc_pattern p s = match_at calloc_pattern p' s.
Proof.
  destruct (match_at calloc_pattern p s) as [[rest caps]|] eqn:E.
  - apply match_calloc_inv in E.
    destruct E as (name & size & Hn & Hs & -> & ->).
    symmetry. apply match_calloc_call; assumption.
  - destruct (match_at calloc_pattern p' s) as [[rest caps]|] eqn:E';
      [|reflexivity].
    apply match_calloc_inv in E'.
    destruct E' as (name & size & Hn & Hs & -> & ->).
    rewrite match_calloc_call in E by assumption. discriminate.
Qed.

Lemma replace_free_text (st st' : stats) (m : text) (caps : captures) :
  fst (replace_free st m caps) = fst (replace_free st' m caps).
Proof. reflexivity. Qed.

Lemma replace_calloc_text (st st' : stats) (m : text) (caps : captures) :
  fst (replace_calloc st m caps) = fst (replace_calloc st' m caps).
Proof. reflexivity. Qed.

Lemma length_free_call (name : text) :
  length (free_call name) = length name + 7.
Proof.
  unfold free_call. rewrite !length_app.
  change (length (T "free(")) with 5. change (length (T ");")) with 2. lia.
Qed.

(** One step of the free pass at a position that is not inside a match. *)
Lemma free_step (c : ascii) (s : text) (prev : option ascii) (st : stats) :
  (match_at free_pattern prev (c :: s) = None
   /\ fst (sub_loop free_pattern replace_free prev (c :: s) 0 st)
      = c :: fst (sub_loop free_pattern replace_free (Some c) s 0 st))
  \/ (exists name n st1,
         identifier name = true
         /\ fst (sub_loop free_pattern replace_free prev (c :: s) 0 st)
            = freed_comment name
                ++ fst (sub_loop free_pattern replace_free (Some c) s n st1)).
Proof.
  cbn [sub_loop].
  destruct (match_at free_pattern prev (c :: s)) as [[rest caps]|] eqn:E.
  - right. apply match_free_inv in E. destruct E as (name & Hn & E & ->).
    assert (L : length (c :: s) - length rest = S (length name + 6)).
    { rewrite E, length_app, length_free_call. lia. }
    rewrite L.
    exists name, (length name + 6).
    eexists. split; [exact Hn|].
    cbn [replace_free group Nat.eqb].
    destruct (sub_loop free_pattern replace_free (Some c) s (length name + 6) _)
      as [out st2] eqn:Eo.
    cbn [fst]. rewrite Eo. reflexivity.
  - left. split; [reflexivity|].
    destruct (sub_loop free_pattern replace_free (Some c) s 0 st).
    reflexivity.
Qed.

Ltac eqb_cases :=
  repeat match goal with
         | |- context [Ascii.eqb ?a ?b] => destruct (Ascii.eqb a b) eqn:?
         end.

Lemma word_run_not_free (w t : text) :
  forallb is_word w = true ->
  startswith (T "free(") (w ++ T " auto-freed (VLA)" ++ t) = false.
Proof.
  intros Hw. unfold T.
  destruct w as [|a [|b [|c [|d [|e w]]]]];
    cbn [list_ascii_of_string app startswith]; eqb_cases; try reflexivity.
  all: try match goal with
           | H : Ascii.eqb _ _ = true |- _ =>
               solve [vm_compute in H; discriminate H]
           end.
  all: exfalso;
    match goal with
    | H : Ascii.eqb "(" ?x = true |- _ => apply Ascii.eqb_eq in H; subst x
    end;
    simpl in Hw; rewrite !andb_false_r in Hw; discriminate.
Qed.

Lemma tail_suffix_not_free (l v t : text) :
  T " auto-freed (VLA)" = l ++ v ->
  v <> [] ->
  startswith (T "free(") (v ++ t) = false.
Proof.
  intros E Hv.
  unfold T in E. cbn [list_ascii_of_string] in E.
  do 18 (try (destruct l as [|? l];
              [cbn [app] in E; subst v;
               first [reflexivity|exfalso; apply Hv; reflexivity]
              |cbn [app] in E;
               first [discriminate E|injection E as ? E; subst]])).
Qed.

Lemma forallb_app_r {A} (p : A -> bool) (l1 l2 : list A) :
  forallb p (l1 ++ l2) = true -> forallb p l2 = true.
Proof. rewrite forallb_app, andb_true_iff. tauto. Qed.

(** No match of the free pattern starts inside the comment that replaces a
    call. *)
Lemma comment_suffix_not_free (name pre v t : text) :
  identifier name = true ->
  freed_comment name = pre ++ v ->
  v <> [] ->
  startswith (T "free(") (v ++ t) = false.
Proof.
  intros Hn E Hv. apply identifier_inv in Hn. destruct Hn as [_ Hw].
  unfold freed_comment in E.
  apply app_eq_app in E. destruct E as [l [[E1 E2]|[E1 E2]]].
  - (* the suffix starts in the leading slashes *)
    destruct l as [|x l].
    + rewrite app_nil_l in E2. subst v. rewrite <- app_assoc.
      apply (word_run_not_free name t Hw).
    + subst v. unfold T in E1. cbn [list_ascii_of_string] in E1.
      do 4 (try (destruct pre as [|? pre];
                 [cbn [app] in E1; injection E1 as <- _; reflexivity
                 |cbn [app] in E1;
                  first [discriminate E1|injection E1 as ? E1; subst]])).
      destruct pre; discriminate E1.
  - symmetry in E2. apply app_eq_app in E2.
    destruct E2 as [l2 [[E3 E4]|[E3 E4]]].
    + (* the suffix starts in the tail of the comment *)
      apply (tail_suffix_not_free l2 v t E4 Hv).
    + (* the suffix starts in the name *)
      subst v. rewrite <- app_assoc. apply word_run_not_free.
      rewrite E3 in Hw. apply (forallb_app_r _ _ _ Hw).
Qed.

Lemma match_free_startswith (prev : option ascii) (u : text) :
  startswith (T "free(") u = false -> match_at free_pattern prev u = None.
Proof.
  intros H.
  destruct (match_at free_pattern prev u) as [[rest caps]|] eqn:E;
    [|reflexivity].
  apply match_free_inv in E. destruct E as (name & _ & -> & _).
  unfold free_call in H. rewrite <- !app_assoc in H.
  unfold T in H. simpl in H. discriminate.
Qed.

Lemma free_call_cons (name : text) :
  free_call name = "f"%char :: T "ree(" ++ name ++ T ");".
Proof. reflexivity. Qed.

Lemma free_call_tail_clean (name : text) :
  forallb is_word name = true ->
  ~ In "/"%char (T "ree(" ++ name ++ T ");").
Proof.
  intros Hw H. apply in_app_or in H. destruct H as [H|H].
  - unfold T in H. simpl in H. intuition discriminate.
  - apply in_app_or in H. destruct H as [H|H].
    + rewrite forallb_forall in Hw. apply Hw in H. discriminate.
    + unfold T in H. simpl in H. intuition discriminate.
Qed.

Lemma free_pass_empty (prev : option ascii) (skip : nat) (st : stats) :
  fst (sub_loop free_pattern replace_free prev [] skip st) = [].
Proof.
  cbn [sub_loop]. rewrite match_free_startswith by reflexivity.
  destruct skip; reflexivity.
Qed.

(** Clean text that opens the output of the free pass opens its input. *)
Lemma free_pass_prefix (s : text) :
  forall w t prev st,
    ~ In "/"%char w ->
    fst (sub_loop free_pattern replace_free prev s 0 st) = w ++ t ->
    exists t', s = w ++ t'.
Proof.
  induction s as [|c s IH]; intros w t prev st Hw E.
  - rewrite free_pass_empty in E. destruct w; [|discriminate].
    exists []. reflexivity.
  - destruct w as [|x w]; [exists (c :: s); reflexivity|].
    destruct (free_step c s prev st) as [[_ Ho]|(name & n & st1 & _ & Ho)];
      rewrite Ho in E.
    + injection E as -> E. apply IH in E.
      * destruct E as [t' ->]. exists t'. reflexivity.
      * intros H. apply Hw. right. exact H.
    + exfalso. apply Hw. left.
      unfold freed_comment, T in E. simpl in E. injection E as <- _.
      reflexivity.
Qed.

(** The output of the free pass holds no match of the free pattern. *)
Lemma free_pass_clean (s : text) :
  forall skip prev st pre u,
    fst (sub_loop free_pattern replace_free prev s skip st) = pre ++ u ->
    match_at free_pattern None u = None.
Proof.
  induction s as [|c s IH]; intros skip prev st pre u E.
  - rewrite free_pass_empty in E.
    destruct pre; [|discriminate]. simpl in E. subst u.
    apply match_free_startswith. reflexivity.
  - destruct skip as [|n]; [|cbn [sub_loop] in E; apply (IH _ _ _ _ _ E)].
    destruct (free_step c s prev st) as [[Hn Ho]|(name & n & st1 & Hid & Ho)];
      rewrite Ho in E.
    + destruct pre as [|x pre].
      * simpl in E. subst u.
        destruct (match_at free_pattern None
                    (c :: fst (sub_loop free_pattern replace_free (Some c) s 0 st)))
          as [[rest caps]|] eqn:Em; [|reflexivity].
        exfalso. apply match_free_inv in Em.
        destruct Em as (name & Hid & Em & _).
        rewrite free_call_cons in Em. cbn [app] in Em.
        injection Em as -> Em.
        pose proof (identifier_inv name Hid) as [_ Hw].
        apply (free_pass_prefix s (T "ree(" ++ name ++ T ");") rest) in Em;
          [|apply free_call_tail_clean; exact Hw].
        destruct Em as [t' ->].
        change ("f"%char :: (T "ree(" ++ name ++ T ");") ++ t')
          with (free_call name ++ t') in Hn.
        rewrite match_free_call in Hn by exact Hid. discriminate.
      * injection E as _ E. apply (IH _ _ _ _ _ E).
    + apply app_eq_app in E. destruct E as [l [[E1 E2]|[E1 E2]]].
      * destruct l as [|x l].
        -- simpl in E2. apply (IH n (Some c) st1 [] u). symmetry. exact E2.
        -- subst u. apply match_free_startswith.
           apply (comment_suffix_not_free name pre (x :: l) _ Hid E1).
           discriminate.
      * apply (IH n (Some c) st1 l u). exact E2.
Qed.

(** ** The two rewriting passes of the allocation rewriter *)

Lemma length_calloc_call_pos (name size : text) : calloc_call name size <> [].
Proof. unfold calloc_call, T. simpl. discriminate. Qed.

Lemma free_call_nonempty (name : text) : free_call name <> [].
Proof. rewrite free_call_cons. discriminate. Qed.

Lemma calloc_pass_match (name size rest : text) (st : stats) :
  identifier name = true ->
  size_text size = true ->
  fst (calloc_pass (calloc_call name size ++ rest) st)
  = vla_declaration name (simplify_expression size)
      ++ fst (calloc_pass rest st).
Proof.
  intros Hn Hs. unfold calloc_pass, re_sub_st.
  rewrite (sub_loop_match calloc_pattern replace_calloc calloc_prev_free
             (calloc_call name size) rest [(2, size); (1, name)] None st
             (length_calloc_call_pos name size)
             (match_calloc_call name size rest None Hn Hs)).
  destruct (replace_calloc st (calloc_call name size) [(2, size); (1, name)])
    as [rep st1] eqn:Er.
  assert (Hrep : rep = vla_declaration name (simplify_expression size)).
  { apply (f_equal fst) in Er. simpl in Er. subst rep. reflexivity. }
  pose proof (sub_loop_text calloc_pattern replace_calloc replace_calloc_text
                rest None 0 st1 st) as Ht.
  destruct (sub_loop calloc_pattern replace_calloc None rest 0 st1).
  simpl in *. rewrite Hrep, Ht. reflexivity.
Qed.

Lemma calloc_pass_copy (c : ascii) (rest : text) (st : stats) :
  (forall name size t,
      identifier name = true -> size_text size = true ->
      c :: rest <> calloc_call name size ++ t) ->
  fst (calloc_pass (c :: rest) st) = c :: fst (calloc_pass rest st).
Proof.
  intros H. unfold calloc_pass, re_sub_st.
  rewrite (sub_loop_copy calloc_pattern replace_calloc calloc_prev_free).
  - destruct (sub_loop calloc_pattern replace_calloc None rest 0 st).
    reflexivity.
  - destruct (match_at calloc_pattern None (c :: rest)) as [[t caps]|] eqn:E;
      [|reflexivity].
    apply match_calloc_inv in E.
    destruct E as (name & size & Hn & Hs & E & _).
    exfalso. apply (H name size t Hn Hs E).
Qed.

Lemma free_pass_match (name rest : text) (st : stats) :
  identifier name = true ->
  fst (free_pass (free_call name ++ rest) st)
  = freed_comment name ++ fst (free_pass rest st).
Proof.
  intros Hn. unfold free_pass, re_sub_st.
  rewrite (sub_loop_match free_pattern replace_free free_prev_free
             (free_call name) rest [(1, name)] None st
             (free_call_nonempty name)
             (match_free_call name rest None Hn)).
  destruct (replace_free st (free_call name) [(1, name)]) as [rep st1] eqn:Er.
  assert (Hrep : rep = freed_comment name).
  { apply (f_equal fst) in Er. simpl in Er. subst rep. reflexivity. }
  pose proof (sub_loop_text free_pattern replace_free replace_free_text
                rest None 0 st1 st) as Ht.
  destruct (sub_loop free_pattern replace_free None rest 0 st1).
  simpl in *. rewrite Hrep, Ht. reflexivity.
Qed.

Lemma free_pass_copy (c : ascii) (rest : text) (st : stats) :
  (forall name t, identifier name = true -> c :: rest <> free_call name ++ t) ->
  fst (free_pass (c :: rest) st) = c :: fst (free_pass rest st).
Proof.
  intros H. unfold free_pass, re_sub_st.
  rewrite (sub_loop_copy free_pattern replace_free free_prev_free).
  - destruct (sub_loop free_pattern replace_free None rest 0 st).
    reflexivity.
  - destruct (match_at free_pattern None (c :: rest)) as [[t caps]|] eqn:E;
      [|reflexivity].
    apply match_free_inv in E. destruct E as (name & Hn & E & _).
    exfalso. apply (H name t Hn E).
Qed.

Lemma free_pass_no_match (s : text) (st : stats) :
  re_search free_pattern (fst (free_pass s st)) = None.
Proof.
  unfold re_search. apply (search_from_none free_prev_free).
  intros pre u E. unfold free_pass, re_sub_st in E.
  apply (free_pass_clean s 0 None st pre u E).
Qed.

(** The two passes of the rewriter, each on its own.  The first pass
    replaces the text [float *name = calloc(size, sizeof(float));] by
    [float name[simplify(size)];] where it stands and copies every character
    at which no such text begins; the second pass replaces [free(name);] by
    the comment [// name auto-freed (VLA)] and copies every character at
    which no such call begins; right after the second pass the text holds
    no [free(name);] with an identifier for [name]. *)
Theorem calloc_and_free_passes :
  (forall name size rest st,
      identifier name = true -> size_text size = true ->
      fst (calloc_pass (calloc_call name size ++ rest) st)
      = vla_declaration name (simplify_expression size)
          ++ fst (calloc_pass rest st))
  /\ (forall c rest st,
         (forall name size t,
             identifier name = true -> size_text size = true ->
             c :: rest <> calloc_call name size ++ t) ->
         fst (calloc_pass (c :: rest) st) = c :: fst (calloc_pass rest st))
  /\ (forall name rest st,
         identifier name = true ->
         fst (free_pass (free_call name ++ rest) st)
         = freed_comment name ++ fst (free_pass rest st))
  /\ (forall c rest st,
         (forall name t,
             identifier name = true -> c :: rest <> free_call name ++ t) ->
         fst (free_pass (c :: rest) st) = c :: fst (free_pass rest st))
  /\ (forall s st, re_search free_pattern (fst (free_pass s st)) = None)
  /\ (forall s st name pre post,
         identifier name = true ->
         fst (free_pass s st) <> pre ++ free_call name ++ post).
Proof.
  split; [exact calloc_pass_match|].
  split; [exact calloc_pass_copy|].
  split; [exact free_pass_match|].
  split; [exact free_pass_copy|].
  split; [exact free_pass_no_match|].
  intros s st name pre post Hn E.
  pose proof (free_pass_no_match s st) as Hs. unfold re_search in Hs.
  pose proof (search_from_none_inv free_prev_free _ _ _ Hs pre
                (free_call name ++ post) E) as Hm.
  rewrite match_free_call in Hm by exact Hn. discriminate.
Qed.

(** C5.  Deallocations of rewritten buffers survive the rewriter as
    executable code, and the comment it writes can take code with it.  In
    [free((x));] the later simplification of [(x)] before a closing
    parenthesis leaves the call [free(x);] on the stack array [x]; the call
    [free( x );], with blanks around the name, is not met by the pattern
    and stays as it is; and the comment that replaces [free(t);] runs to
    the end of the line, so that the statement [output[1] = t[1];] standing
    after it on the same line is commented out. *)
Theorem transform_leaves_free_calls :
  fst (transform_calloc_to_vla
         (T "float *x = calloc(N, sizeof(float)); free((x));"))
  = T "float x[N]; free(x);"
  /\ fst (transform_calloc_to_vla
            (T "float *x = calloc(N, sizeof(float)); free( x );"))
     = T "float x[N]; free( x );"
  /\ fst (transform_calloc_to_vla
            (T "float *t = calloc(4, sizeof(float)); free(t); output[1] = t[1];"))
     = T "float t[4]; // t auto-freed (VLA) output[1] = t[1];".
Proof. repeat split; vm_compute; reflexivity. Qed.

(** ** Instances *)

Lemma calloc_and_free_passes_witness :
  fst (calloc_pass (calloc_call (T "tmp") (T "(N - (0))") ++ T " tmp[0] = 1;")
         initial_stats)
  = vla_declaration (T "tmp") (simplify_expression (T "(N - (0))"))
      ++ fst (calloc_pass (T " tmp[0] = 1;") initial_stats).
Proof.
  apply (proj1 calloc_and_free_passes); reflexivity.
Defined.

Lemma read_function_body_witness :
  read_function_body (T "f") (Some (T "void f(int a){ x; }"))
  = Some (strip (T " x; ")).
Proof.
  apply (proj1 (read_function_body_spec (T "f") (T "void f(int a){ x; }"))
           [] (T "void f(int a){") (T " x; ") [] []).
  - vm_compute. reflexivity.
  - reflexivity.
Defined.

Lemma replace_calloc_warning_witness :
  warnings (snd (replace_calloc initial_stats []
                   [(1, T "y"); (2, T "(a) + (b)")]))
  = warnings initial_stats
      ++ [T "Complex size expression for "
            ++ group 1 [(1, T "y"); (2, T "(a) + (b)")] ++ T ": "
            ++ simplify_expression
                 (group 2 [(1, T "y"); (2, T "(a) + (b)")])].
Proof.
  apply (proj1 (proj2 (replace_calloc_warning_iff_two_parens
                         initial_stats [] [(1, T "y"); (2, T "(a) + (b)")]))).
  vm_compute. lia.
Defined.

Lemma generate_output_buffer_witness :
  (exists code_text,
      generate (fun _ _ => Printed (T "1.3333333333333333")) addone_sig
        (Some (T "void addone(int N, float* x, float* output) { float t[N/3]; }"))
        [4%Z] [[]] 4%Z true
      = Some code_text)
  /\ nth_error (call_args (fs_params addone_sig) [4%Z])
               (length (call_args [(T "int", T "N"); (T "float*", T "x")]
                          [4%Z]))
     = Some (T "output").
Proof.
  split.
  - apply (proj1 (proj2 (generate_output_buffer
                           (fun _ _ => Printed (T "1.3333333333333333"))
                           addone_sig
                           (Some (T "void addone(int N, float* x, float* output) { float t[N/3]; }"))
                           [4%Z] [[]] 4%Z true))).
    right. split.
    + intros t n [E|[E|[E|[]]]] Ht; injection E as <- <-;
        [reflexivity|discriminate|discriminate].
    + intros n s. discriminate.
  - apply (proj2 (proj2 (generate_output_buffer
                           (fun _ _ => Raised) addone_sig None [4%Z] [] 4%Z
                           false))
             [(T "int", T "N"); (T "float*", T "x")]
             (T "float*") (T "output") []);
      reflexivity.
Defined.

(** ** Further properties of the loader and of the command line *)

Lemma floats_of_length (l : list json) :
  forall fs, floats_of l = Some fs -> length fs = length l.
Proof.
  induction l as [|x l IH]; intros fs H; simpl in H.
  - injection H as <-. reflexivity.
  - destruct (to_float x) as [f|]; [|discriminate].
    destruct (floats_of l) as [fs'|]; [|discriminate].
    injection H as <-. simpl. f_equal. apply IH. reflexivity.
Qed.

(** The flattening is depth first and left to right: a leaf yields itself,
    a list yields the values of its first item followed by those of the
    rest; and a successful load returns as many floats as the structure has
    leaves. *)
Theorem load_json_array_flattens :
  (forall x rest,
      _flatten (JList (x :: rest)) = _flatten x ++ _flatten (JList rest))
  /\ _flatten (JList []) = []
  /\ (forall x, (forall items, x <> JList items) -> _flatten x = [x])
  /\ (forall data fs,
         load_json_array data = Loaded fs -> length fs = count_leaves data).
Proof.
  split; [reflexivity|]. split; [reflexivity|]. split.
  - intros x H. destruct x; try reflexivity. exfalso. apply (H items).
    reflexivity.
  - intros data fs H. unfold load_json_array in H.
    destruct (negb (forallb is_int_or_float (_flatten data))); [discriminate|].
    destruct (floats_of (_flatten data)) as [fs'|] eqn:E; [|discriminate].
    injection H as <-. rewrite (floats_of_length _ _ E).
    apply flatten_length.
Qed.

Lemma parse_arguments_array_counts (w : world) (l : list text) :
  forall int_args array_args ints arrays,
    parse_arguments w l int_args array_args = Some (ints, arrays) ->
    length arrays
    = length array_args + length (filter (fun a => negb (is_scalar_arg a)) l).
Proof.
  induction l as [|arg rest IH]; intros int_args array_args ints arrays H;
    cbn [parse_arguments] in H.
  - injection H as _ <-. simpl. lia.
  - cbn [filter]. unfold is_scalar_arg at 1.
    destruct (startswith (T "@") arg); cbn [negb length].
    + destruct (json_file w (tl arg)) as [data|]; [|discriminate].
      destruct (load_json_array data); try discriminate.
      apply IH in H. rewrite length_app in H. simpl in H. lia.
    + destruct (py_int arg) as [v|]; [|discriminate].
      apply IH in H. exact H.
Qed.

(** When the number of [@file] arguments differs from the number of input
    buffer parameters (pointer parameters whose name does not contain
    [output]), [main] returns exit code 1 and writes no file. *)
Theorem main_rejects_array_count_mismatch :
  forall (w : world) (a : cli_args) (func_sig : FunctionSignature),
    registry_get (registry w) (function_name a) = Some func_sig ->
    length (filter (fun x => negb (is_scalar_arg x)) (args a))
    <> expected_array_count func_sig ->
    main w a = Some {| exit_code := 1; written := [] |}.
Proof.
  intros w a func_sig Hreg Hcount. unfold main.
  destruct (registry w) as [|entry reg] eqn:Er; [reflexivity|].
  rewrite Hreg.
  destruct (parse_arguments w (args a) [] []) as [[ints arrays]|] eqn:Ep;
    [|reflexivity].
  apply parse_arguments_array_counts in Ep. simpl in Ep.
  destruct (negb (length ints =? expected_int_count func_sig));
    [reflexivity|].
  destruct (length arrays =? expected_array_count func_sig) eqn:E.
  - apply Nat.eqb_eq in E. lia.
  - reflexivity.
Qed.

Lemma main_rejects_array_count_mismatch_witness :
  main addone_world (addone_cli [T "4"; T "@x.json"; T "@y.json"])
  = Some {| exit_code := 1; written := [] |}.
Proof.
  apply (main_rejects_array_count_mismatch
           addone_world (addone_cli [T "4"; T "@x.json"; T "@y.json"])
           addone_sig).
  - reflexivity.
  - vm_compute. lia.
Defined.

(** ** More on the regular-expression engine *)

Lemma rmatch_RGroup (n : nat) (r : regex) (R : Type) prev s caps
      (k : option ascii -> text -> captures -> option R) :
  rmatch (RGroup n r) R prev s caps k
  = rmatch r R prev s caps
           (fun prev' s' caps' =>
              k prev' s' ((n, firstn (length s - length s') s) :: caps')).
Proof. reflexivity. Qed.

Lemma rmatch_RAlt (r1 r2 : regex) (R : Type) prev s caps
      (k : option ascii -> text -> captures -> option R) :
  rmatch (RAlt r1 r2) R prev s caps k
  = match rmatch r1 R prev s caps k with
    | Some x => Some x
    | None => rmatch r2 R prev s caps k
    end.
Proof. reflexivity. Qed.

Lemma plus_complete (R : Type) (p : ascii -> bool) (w : text) :
  forall prev s' caps (k : option ascii -> text -> captures -> option R) r,
    w <> [] ->
    forallb p w = true ->
    stops p s' ->
    k (prev_after w prev) s' caps = Some r ->
    rmatch (RPlus p) R prev (w ++ s') caps k = Some r.
Proof.
  intros prev s' caps k r Hne Hw Hs Hk.
  destruct w as [|x w]; [congruence|].
  cbn [rmatch]. simpl app. simpl in Hw.
  apply andb_true_iff in Hw. destruct Hw as [Hx Hw]. rewrite Hx.
  apply star_greedy; auto.
Qed.

(** A successful match has called its continuation on a suffix of the
    text. *)
Lemma rmatch_suffix (r : regex) :
  forall (R : Type) prev s caps
         (k : option ascii -> text -> captures -> option R) x,
    rmatch r R prev s caps k = Some x ->
    exists prev' s' caps' pre,
      s = pre ++ s' /\ k prev' s' caps' = Some x.
Proof.
  induction r as [ |c|p|r1 IH1 r2 IH2|r1 IH1 r2 IH2|p|p|n r IH| |r IH|r IH];
    intros R prev s caps k x H; cbn [rmatch] in H.
  - exists prev, s, caps, []. auto.
  - destruct s as [|a s]; [discriminate|].
    destruct (Ascii.eqb a c); [|discriminate].
    exists (Some a), s, caps, [a]. auto.
  - destruct s as [|a s]; [discriminate|].
    destruct (p a); [|discriminate].
    exists (Some a), s, caps, [a]. auto.
  - apply IH1 in H. destruct H as (p1 & s1 & c1 & pre1 & -> & H).
    apply IH2 in H. destruct H as (p2 & s2 & c2 & pre2 & -> & H).
    exists p2, s2, c2, (pre1 ++ pre2). rewrite <- app_assoc. auto.
  - destruct (rmatch r1 R prev s caps k) as [y|] eqn:E.
    + injection H as ->. apply IH1 in E. exact E.
    + apply IH2 in H. exact H.
  - apply star_inv in H. destruct H as (w & s' & prev' & -> & _ & H).
    exists prev', s', caps, w. auto.
  - destruct s as [|a s]; [discriminate|].
    destruct (p a); [|discriminate].
    apply star_inv in H. destruct H as (w & s' & prev' & -> & _ & H).
    exists prev', s', caps, (a :: w). auto.
  - apply IH in H. destruct H as (p1 & s1 & c1 & pre1 & -> & H).
    eexists p1, s1, _, pre1. split; [reflexivity|exact H].
  - destruct (at_boundary prev s); [|discriminate].
    exists prev, s, caps, []. auto.
  - destruct (rmatch r unit prev s caps (fun _ _ _ => Some tt));
      [|discriminate].
    exists prev, s, caps, []. auto.
  - destruct (rmatch r unit prev s caps (fun _ _ _ => Some tt));
      [discriminate|].
    exists prev, s, caps, []. auto.
Qed.

Lemma rmatch_char_head (c : ascii) (R : Type) prev s caps
      (k : option ascii -> text -> captures -> option R) x :
  rmatch (RChar c) R prev s caps k = Some x ->
  exists s', s = c :: s' /\ k (Some c) s' caps = Some x.
Proof.
  cbn [rmatch]. destruct s as [|a s]; [discriminate|].
  destruct (Ascii.eqb a c) eqn:E; [|discriminate].
  apply Ascii.eqb_eq in E. subst a. intros H. exists s. auto.
Qed.

(** ** The header parser *)

Lemma match_header_paren (prev : option ascii) (s : text) :
  ~ In "("%char s -> match_header prev s = None.
Proof.
  intros Hn.
  destruct (match_header prev s) as [x|] eqn:E; [|reflexivity].
  exfalso. unfold match_header, header_keyword, header_name in E.
  cbn [RCat] in E. rewrite rmatch_RSeq in E.
  apply rmatch_suffix in E. destruct E as (p1 & s1 & c1 & pre1 & -> & E).
  rewrite rmatch_RSeq in E.
  apply rmatch_suffix in E. destruct E as (p2 & s2 & c2 & pre2 & -> & E).
  rewrite rmatch_RSeq in E.
  apply rmatch_suffix in E. destruct E as (p3 & s3 & c3 & pre3 & -> & E).
  rewrite rmatch_RSeq in E.
  apply rmatch_suffix in E. destruct E as (p4 & s4 & c4 & pre4 & -> & E).
  apply rmatch_char_head in E. destruct E as (s5 & -> & _).
  apply Hn. rewrite !in_app_iff. right. right. right. right. left.
  reflexivity.
Qed.

Lemma search_header_none (s : text) :
  forall prev, ~ In "("%char s -> search_header prev s = None.
Proof.
  induction s as [|c s IH]; intros prev Hn; cbn [search_header].
  - rewrite match_header_paren by exact Hn. reflexivity.
  - rewrite match_header_paren by exact Hn.
    apply IH. intros H. apply Hn. right. exact H.
Qed.

Lemma split_on_none (x : text) :
  no_char "," x = true -> split_on "," x = [x].
Proof.
  unfold no_char, not_char.
  induction x as [|c x IH]; simpl; [reflexivity|].
  intros H. apply andb_true_iff in H. destruct H as [Hc Hx].
  apply negb_true_iff in Hc. rewrite Hc, (IH Hx). reflexivity.
Qed.

Lemma split_on_app (x y : text) :
  no_char "," x = true ->
  split_on "," (x ++ ","%char :: y) = x :: split_on "," y.
Proof.
  unfold no_char, not_char.
  induction x as [|c x IH]; simpl; [reflexivity|].
  intros H. apply andb_true_iff in H. destruct H as [Hc Hx].
  apply negb_true_iff in Hc. rewrite Hc, (IH Hx). reflexivity.
Qed.

Lemma lstrip_lead (lead s : text) :
  forallb is_space lead = true -> lstrip (lead ++ s) = lstrip s.
Proof.
  induction lead as [|c lead IH]; simpl; [reflexivity|].
  intros H. apply andb_true_iff in H. destruct H as [Hc Hl].
  rewrite Hc. apply IH. exact Hl.
Qed.

Lemma trimmed_inv (s : text) :
  trimmed s = true ->
  exists c s' d r,
    s = c :: s' /\ rev s = d :: r
    /\ is_space c = false /\ is_space d = false.
Proof.
  unfold trimmed. destruct s as [|c s']; [discriminate|].
  destruct (rev (c :: s')) as [|d r] eqn:E; [discriminate|].
  intros H. apply andb_true_iff in H. destruct H as [H1 H2].
  apply negb_true_iff in H1, H2.
  exists c, s', d, r. auto.
Qed.

Lemma strip_trimmed (lead s : text) :
  forallb is_space lead = true -> trimmed s = true ->
  strip (lead ++ s) = s.
Proof.
  intros Hl Ht. apply trimmed_inv in Ht.
  destruct Ht as (c & s' & d & r & Es & Er & Hc & Hd).
  unfold strip. rewrite lstrip_lead by exact Hl.
  assert (E1 : lstrip s = s) by (rewrite Es; simpl; rewrite Hc; reflexivity).
  rewrite E1. unfold rstrip. rewrite Er. cbn [lstrip]. rewrite Hd.
  rewrite <- Er. apply rev_involutive.
Qed.

Lemma span_nonspace_app (w r : text) (c : ascii) :
  no_space w = true -> is_space c = true ->
  span_nonspace (w ++ c :: r) = (w, c :: r).
Proof.
  unfold no_space. intros Hw Hc.
  induction w as [|a w IH]; simpl.
  - rewrite Hc. reflexivity.
  - simpl in Hw. apply andb_true_iff in Hw. destruct Hw as [Ha Hw].
    apply negb_true_iff in Ha. rewrite Ha, (IH Hw). reflexivity.
Qed.

Lemma no_space_rev (w : text) : no_space w = true -> no_space (rev w) = true.
Proof.
  unfold no_space. rewrite !forallb_forall. intros H x Hx.
  apply H. apply in_rev. exact Hx.
Qed.

Lemma rsplit_last_repr (t n : text) :
  trimmed t = true -> n <> [] -> no_space n = true ->
  rsplit_last (t ++ T " " ++ n) = [t; n].
Proof.
  intros Ht Hn Hs. apply trimmed_inv in Ht.
  destruct Ht as (c & s' & d & r & Es & Er & Hc & Hd).
  unfold rsplit_last.
  rewrite !rev_app_distr. change (rev (T " ")) with [" "%char].
  rewrite <- app_assoc. simpl app.
  assert (Hrn : rev n <> []).
  { intros E. apply Hn. rewrite <- (rev_involutive n), E. reflexivity. }
  assert (Hl : lstrip (rev n ++ " "%char :: rev t) = rev n ++ " "%char :: rev t).
  { destruct (rev n) as [|a m] eqn:E; [congruence|].
    pose proof (no_space_rev n Hs) as Hs'. rewrite E in Hs'.
    simpl in Hs'. apply andb_true_iff in Hs'. destruct Hs' as [Ha _].
    apply negb_true_iff in Ha. simpl. rewrite Ha. reflexivity. }
  rewrite Hl, (span_nonspace_app (rev n) (rev t) " " (no_space_rev n Hs) eq_refl).
  destruct (rev n) as [|a m] eqn:E; [congruence|].
  cbn [lstrip]. change (is_space " ") with true. cbv iota.
  rewrite Er. cbn [lstrip]. rewrite Hd.
  rewrite <- Er, <- E, !rev_involutive. reflexivity.
Qed.

Lemma wf_param_inv (t n : text) :
  wf_param (t, n) = true ->
  trimmed t = true /\ n <> [] /\ no_space n = true
  /\ no_char "," (t ++ T " " ++ n) = true
  /\ no_char ")" (t ++ T " " ++ n) = true.
Proof.
  unfold wf_param. cbn [fst snd]. rewrite !andb_true_iff.
  intros [[[[[[H1 H2] H3] H4] H5] H6] H7].
  repeat split; try assumption.
  - destruct n; [discriminate|discriminate].
  - unfold no_char in *. rewrite !forallb_app, H4, H5. reflexivity.
  - unfold no_char in *. rewrite !forallb_app, H6, H7. reflexivity.
Qed.

Lemma trimmed_repr (t n : text) :
  trimmed t = true -> n <> [] -> no_space n = true ->
  trimmed (t ++ T " " ++ n) = true.
Proof.
  intros Ht Hn Hs. apply trimmed_inv in Ht.
  destruct Ht as (c & s' & d & r & Es & Er & Hc & Hd).
  unfold trimmed. rewrite Es. cbn [app].
  change (c :: s' ++ T " " ++ n) with ((c :: s') ++ T " " ++ n).
  rewrite <- Es, !rev_app_distr.
  destruct (rev n) as [|a m] eqn:E.
  { exfalso. apply Hn. rewrite <- (rev_involutive n), E. reflexivity. }
  pose proof (no_space_rev n Hs) as Hs'. rewrite E in Hs'.
  simpl in Hs'. apply andb_true_iff in Hs'. destruct Hs' as [Ha _].
  simpl. rewrite Hc, Ha. reflexivity.
Qed.

Lemma parse_parameter_repr (lead t n : text) :
  forallb is_space lead = true ->
  wf_param (t, n) = true ->
  parse_parameter (lead ++ param_repr (t, n)) = [(t, n)].
Proof.
  intros Hl Hw. apply wf_param_inv in Hw.
  destruct Hw as (Ht & Hn & Hs & _ & _).
  unfold parse_parameter, param_repr. simpl fst. simpl snd.
  rewrite (strip_trimmed lead _ Hl (trimmed_repr t n Ht Hn Hs)).
  pose proof (rsplit_last_repr t n Ht Hn Hs) as Hr.
  destruct (t ++ T " " ++ n) as [|a l] eqn:E.
  - apply trimmed_inv in Ht. destruct Ht as (c & s' & _ & _ & -> & _).
    discriminate.
  - rewrite Hr. reflexivity.
Qed.

Lemma parse_parameter_blank (lead : text) :
  forallb is_space lead = true -> parse_parameter lead = [].
Proof.
  intros Hl. unfold parse_parameter, strip.
  replace (lstrip lead) with (@nil ascii); [reflexivity|].
  rewrite <- (app_nil_r lead), lstrip_lead by exact Hl. reflexivity.
Qed.

(** Round trip: [_parse_parameters] reads back the parameter list that
    [__repr__] prints. *)
Lemma parse_parameters_repr_lead (params : list (text * text)) :
  forall lead,
    forallb is_space lead = true ->
    forallb wf_param params = true ->
    _parse_parameters (lead ++ join (T ", ") (map param_repr params)) = params.
Proof.
  unfold _parse_parameters.
  induction params as [|[t n] params IH]; intros lead Hl Hw.
  - simpl. rewrite app_nil_r.
    assert (Hc : no_char "," lead = true).
    { unfold no_char, not_char. rewrite forallb_forall in *. intros x Hx.
      specialize (Hl x Hx). destruct (Ascii.eqb x ",") eqn:E; [|reflexivity].
      apply Ascii.eqb_eq in E. subst x. discriminate. }
    rewrite (split_on_none _ Hc). simpl.
    rewrite (parse_parameter_blank lead Hl). reflexivity.
  - simpl in Hw. apply andb_true_iff in Hw. destruct Hw as [Hp Hw].
    pose proof (wf_param_inv t n Hp) as (_ & _ & _ & Hc & _).
    assert (Hlc : no_char "," (lead ++ param_repr (t, n)) = true).
    { unfold no_char in *. rewrite forallb_app. apply andb_true_iff. split.
      - unfold not_char. rewrite forallb_forall in *. intros x Hx.
        specialize (Hl x Hx). destruct (Ascii.eqb x ",") eqn:E; [|reflexivity].
        apply Ascii.eqb_eq in E. subst x. discriminate.
      - exact Hc. }
    destruct params as [|p2 params].
    + simpl. rewrite (split_on_none _ Hlc). simpl.
      rewrite (parse_parameter_repr lead t n Hl Hp). reflexivity.
    + change (join (T ", ") (map param_repr ((t, n) :: p2 :: params)))
        with (param_repr (t, n) ++ T ", "
                ++ join (T ", ") (map param_repr (p2 :: params))).
      change (T ", ") with (","%char :: T " ") at 1.
      rewrite app_assoc. rewrite <- app_comm_cons.
      rewrite (split_on_app _ _ Hlc).
      cbn [flat_map].
      rewrite (parse_parameter_repr lead t n Hl Hp).
      rewrite (IH (T " ") eq_refl Hw). reflexivity.
Qed.

(** ** The header pattern on a printed declaration *)

Lemma text_eqb_eq (a b : text) : text_eqb a b = true -> a = b.
Proof.
  unfold text_eqb. destruct (list_eq_dec ascii_dec a b); [auto|discriminate].
Qed.

Lemma wf_return_type_inv (t : text) :
  wf_return_type t = true -> t = T "void" \/ t = T "int" \/ t = T "float".
Proof.
  unfold wf_return_type. rewrite !orb_true_iff.
  intros [[H|H]|H]; apply text_eqb_eq in H; auto.
Qed.

Lemma word_not_space (c : ascii) : is_word c = true -> is_space c = false.
Proof.
  destruct c as [[] [] [] [] [] [] [] []]; vm_compute; congruence.
Qed.

Lemma space_not_word (c : ascii) : is_space c = true -> is_word c = false.
Proof.
  intros H. destruct (is_word c) eqn:E; [|reflexivity].
  apply word_not_space in E. congruence.
Qed.

Lemma word_not_paren (c : ascii) :
  is_word c = true -> not_char "(" c = true.
Proof.
  destruct c as [[] [] [] [] [] [] [] []]; vm_compute; congruence.
Qed.

Lemma space_not_paren (c : ascii) :
  is_space c = true -> not_char "(" c = true.
Proof.
  destruct c as [[] [] [] [] [] [] [] []]; vm_compute; congruence.
Qed.

Lemma forallb_impl (p q : ascii -> bool) (l : text) :
  (forall c, p c = true -> q c = true) ->
  forallb p l = true -> forallb q l = true.
Proof.
  intros H. rewrite !forallb_forall. intros Hp x Hx. apply H, Hp, Hx.
Qed.

Lemma forallb_rev (p : ascii -> bool) (l : text) :
  forallb p l = true -> forallb p (rev l) = true.
Proof.
  rewrite !forallb_forall. intros H x Hx. apply H, in_rev, Hx.
Qed.

Lemma no_char_notin (x : ascii) (s : text) :
  no_char x s = true -> ~ In x s.
Proof.
  unfold no_char, not_char. rewrite forallb_forall. intros H Hin.
  specialize (H x Hin). rewrite Ascii.eqb_refl in H. discriminate.
Qed.

(** Two readings of one text as a run inside a class followed by a
    character outside it agree. *)
Lemma span_unique (p : ascii -> bool) (x : text) :
  forall y a b r r',
    forallb p x = true -> forallb p y = true ->
    p a = false -> p b = false ->
    x ++ a :: r = y ++ b :: r' ->
    x = y /\ a = b /\ r = r'.
Proof.
  induction x as [|c x IH]; intros y a b r r' Hx Hy Ha Hb E.
  - destruct y as [|d y].
    + injection E as -> ->. auto.
    + simpl in E, Hy. injection E as -> _.
      apply andb_true_iff in Hy. destruct Hy as [Hd _]. congruence.
  - destruct y as [|d y].
    + simpl in E, Hx. injection E as -> _.
      apply andb_true_iff in Hx. destruct Hx as [Hc _]. congruence.
    + simpl in E, Hx, Hy. injection E as -> E.
      apply andb_true_iff in Hx. destruct Hx as [_ Hx].
      apply andb_true_iff in Hy. destruct Hy as [_ Hy].
      destruct (IH y a b r r' Hx Hy Ha Hb E) as (-> & -> & ->). auto.
Qed.

Lemma plus_inv (R : Type) (p : ascii -> bool) :
  forall prev s caps (k : option ascii -> text -> captures -> option R) r,
    rmatch (RPlus p) R prev s caps k = Some r ->
    exists w s' prev',
      w <> [] /\ forallb p w = true /\ s = w ++ s'
      /\ k prev' s' caps = Some r.
Proof.
  intros prev s caps k r H. cbn [rmatch] in H.
  destruct s as [|x s]; [discriminate|].
  destruct (p x) eqn:Ex; [|discriminate].
  apply star_inv in H. destruct H as (w & s' & prev' & -> & Hw & Hk).
  exists (x :: w), s', prev'. repeat split.
  - discriminate.
  - simpl. rewrite Ex, Hw. reflexivity.
  - exact Hk.
Qed.

Lemma header_name_inv (R : Type) prev s caps
      (k : option ascii -> text -> captures -> option R) x :
  rmatch header_name R prev s caps k = Some x ->
  exists ws1 w ws2 s5,
    ws1 <> [] /\ forallb is_space ws1 = true
    /\ w <> [] /\ forallb is_word w = true
    /\ forallb is_space ws2 = true
    /\ s = ws1 ++ w ++ ws2 ++ "("%char :: s5.
Proof.
  unfold header_name. cbn [RCat]. rewrite rmatch_RSeq. intros H.
  apply plus_inv in H. destruct H as (ws1 & s1 & p1 & Hne1 & Hw1 & -> & H).
  rewrite rmatch_RSeq in H. apply group_plus_inv in H.
  destruct H as (w & s2 & p2 & Hne2 & Hw2 & -> & H).
  rewrite rmatch_RSeq in H. cbn [rmatch] in H.
  apply star_inv in H. destruct H as (ws2 & s3 & p3 & -> & Hw3 & H).
  destruct s3 as [|a s5]; [discriminate|].
  destruct (Ascii.eqb a "(") eqn:Ea; [|discriminate].
  apply Ascii.eqb_eq in Ea. subst a.
  exists ws1, w, ws2, s5. auto 10.
Qed.

Lemma match_header_inv (prev : option ascii) (s : text) x :
  match_header prev s = Some x ->
  exists kw ws1 w ws2 s5,
    wf_return_type kw = true
    /\ ws1 <> [] /\ forallb is_space ws1 = true
    /\ w <> [] /\ forallb is_word w = true
    /\ forallb is_space ws2 = true
    /\ s = kw ++ ws1 ++ w ++ ws2 ++ "("%char :: s5.
Proof.
  unfold match_header, header_keyword.
  rewrite rmatch_RSeq, rmatch_RGroup, !rmatch_RAlt, !rmatch_RLit.
  intros H.
  destruct (strip_prefix (T "void") s) as [s1|] eqn:E1.
  - apply strip_prefix_inv in E1. subst s.
    destruct (rmatch header_name _ _ s1 _ _) as [y|] eqn:E in H.
    + apply header_name_inv in E.
      destruct E as (ws1 & w & ws2 & s5 & H1 & H2 & H3 & H4 & H5 & ->).
      exists (T "void"), ws1, w, ws2, s5. auto 10.
    + destruct (strip_prefix (T "int") (T "void" ++ s1)) eqn:E2;
        [discriminate E2|].
      destruct (strip_prefix (T "float") (T "void" ++ s1)) eqn:E3;
        [discriminate E3|discriminate H].
  - destruct (strip_prefix (T "int") s) as [s1|] eqn:E2.
    + apply strip_prefix_inv in E2. subst s.
      destruct (rmatch header_name _ _ s1 _ _) as [y|] eqn:E in H.
      * apply header_name_inv in E.
        destruct E as (ws1 & w & ws2 & s5 & H1 & H2 & H3 & H4 & H5 & ->).
        exists (T "int"), ws1, w, ws2, s5. auto 10.
      * destruct (strip_prefix (T "float") (T "int" ++ s1)) eqn:E3;
          [discriminate E3|discriminate H].
    + destruct (strip_prefix (T "float") s) as [s1|] eqn:E3;
        [|discriminate H].
      apply strip_prefix_inv in E3. subst s.
      apply header_name_inv in H.
      destruct H as (ws1 & w & ws2 & s5 & H1 & H2 & H3 & H4 & H5 & ->).
      exists (T "float"), ws1, w, ws2, s5. auto 10.
Qed.

Lemma keyword_no_paren (kw : text) :
  wf_return_type kw = true -> forallb (not_char "(") kw = true.
Proof.
  intros H. apply wf_return_type_inv in H.
  destruct H as [-> | [-> | ->]]; reflexivity.
Qed.

Lemma rev_nonempty (A : Type) (l : list A) : l <> [] -> rev l <> [].
Proof.
  intros H E. apply H. rewrite <- (rev_involutive l), E. reflexivity.
Qed.

(** No match of the header pattern starts before a printed declaration, in
    a text with no opening parenthesis. *)
Lemma match_header_before (p2 ret name tail : text) (prev : option ascii) :
  p2 <> [] -> no_char "(" p2 = true ->
  wf_return_type ret = true -> identifier name = true ->
  match_header prev (p2 ++ ret ++ T " " ++ name ++ "("%char :: tail) = None.
Proof.
  intros Hp2 Hnp Hret Hname.
  destruct (match_header prev _) as [x|] eqn:E; [|reflexivity].
  exfalso. apply match_header_inv in E.
  destruct E as (kw & ws1 & w & ws2 & s5 & Hkw & Hne1 & Hw1 & Hne & Hw & Hw2
                 & E).
  apply identifier_inv in Hname. destruct Hname as [Hnne Hnw].
  assert (E' : (p2 ++ ret ++ T " " ++ name) ++ "("%char :: tail
               = (kw ++ ws1 ++ w ++ ws2) ++ "("%char :: s5).
  { rewrite <- !app_assoc. exact E. }
  apply (span_unique (not_char "(")) in E'; try reflexivity.
  2:{ rewrite !forallb_app. rewrite (keyword_no_paren ret Hret).
      rewrite (forallb_impl _ _ _ word_not_paren Hnw).
      unfold no_char in Hnp. rewrite Hnp. reflexivity. }
  2:{ rewrite !forallb_app. rewrite (keyword_no_paren kw Hkw).
      rewrite (forallb_impl _ _ _ space_not_paren Hw1).
      rewrite (forallb_impl _ _ _ word_not_paren Hw).
      rewrite (forallb_impl _ _ _ space_not_paren Hw2). reflexivity. }
  destruct E' as (E' & _ & _).
  apply (f_equal (@rev ascii)) in E'.
  rewrite !rev_app_distr, <- !app_assoc in E'.
  change (rev (T " ")) with [" "%char] in E'. cbn [app] in E'.
  pose proof (rev_nonempty _ name Hnne) as Hrn.
  pose proof (forallb_rev _ _ Hnw) as Hrw.
  destruct (rev ws2) as [|a m] eqn:E2.
  - pose proof (rev_nonempty _ ws1 Hne1) as Hr1.
    pose proof (forallb_rev _ _ Hw1) as Hrs.
    destruct (rev ws1) as [|sp rs] eqn:E1; [congruence|].
    simpl in Hrs. apply andb_true_iff in Hrs. destruct Hrs as [Hsp Hrs].
    cbn [app] in E'.
    apply (span_unique is_word) in E';
      [ | exact Hrw | apply forallb_rev; exact Hw | reflexivity
        | apply space_not_word; exact Hsp ].
    destruct E' as (_ & _ & E').
    apply wf_return_type_inv in Hkw, Hret.
    pose proof (rev_nonempty _ p2 Hp2) as Hp.
    remember (rev p2) as q eqn:Eq. clear Eq.
    destruct rs as [|c rs].
    + destruct Hkw as [-> | [-> | ->]], Hret as [-> | [-> | ->]];
        cbn in E'; try discriminate E';
        injection E' as E'; contradiction.
    + simpl in Hrs. apply andb_true_iff in Hrs. destruct Hrs as [Hc _].
      destruct Hret as [-> | [-> | ->]]; cbn in E';
        injection E' as E' _; subst c; vm_compute in Hc; discriminate.
  - pose proof (forallb_rev _ _ Hw2) as Hrs. rewrite E2 in Hrs.
    simpl in Hrs. apply andb_true_iff in Hrs. destruct Hrs as [Ha _].
    destruct (rev name) as [|n0 nm] eqn:En; [congruence|].
    cbn [app] in E'. injection E' as -> _.
    simpl in Hrw. apply andb_true_iff in Hrw. destruct Hrw as [Hn0 _].
    apply word_not_space in Hn0. congruence.
Qed.

Lemma lazy_any_skip (R : Type) (w : text) :
  forall prev s' caps (k : option ascii -> text -> captures -> option R),
    (forall p c t cs, c <> ")"%char -> k p (c :: t) cs = None) ->
    no_char ")" w = true ->
    lazy_any R prev (w ++ s') caps k = lazy_any R (prev_after w prev) s' caps k.
Proof.
  unfold no_char, not_char.
  induction w as [|c w IH]; intros prev s' caps k Hk Hw; [reflexivity|].
  simpl in Hw. apply andb_true_iff in Hw. destruct Hw as [Hc Hw].
  apply negb_true_iff in Hc. apply Ascii.eqb_neq in Hc.
  cbn [app lazy_any]. rewrite (Hk prev c (w ++ s') caps Hc).
  apply IH; assumption.
Qed.

Lemma header_params_decl (params rest : text) (prev : option ascii)
      (caps : captures) :
  no_char ")" params = true ->
  header_params prev (params ++ T ");" ++ rest) caps
  = Some (rest, (3, params) :: caps).
Proof.
  intros Hp. unfold header_params.
  rewrite lazy_any_skip; [| |exact Hp].
  - change (T ");" ++ rest) with (")"%char :: ";"%char :: rest).
    cbn [lazy_any].
    change (")"%char :: ";"%char :: rest) with (T ");" ++ rest).
    rewrite firstn_app_exact. reflexivity.
  - intros p c t cs Hc. unfold header_suffix. cbn [RCat rmatch].
    apply Ascii.eqb_neq in Hc. rewrite Hc. reflexivity.
Qed.

Lemma header_name_decl (name tail : text) (prev : option ascii)
      (caps : captures)
      (k : option ascii -> text -> captures -> option (text * captures)) x :
  identifier name = true ->
  k (Some "("%char) tail ((2, name) :: caps) = Some x ->
  rmatch header_name _ prev (T " " ++ name ++ "("%char :: tail) caps k
  = Some x.
Proof.
  intros Hn Ek. apply identifier_inv in Hn. destruct Hn as [Hne Hw].
  unfold header_name. cbn [RCat]. rewrite rmatch_RSeq.
  apply plus_complete; [discriminate|reflexivity| |].
  - destruct name as [|c name]; [congruence|]. simpl in Hw.
    apply andb_true_iff in Hw. destruct Hw as [Hc _].
    apply word_not_space. exact Hc.
  - rewrite rmatch_RSeq.
    apply group_plus_complete; [exact Hne|exact Hw|reflexivity|].
    rewrite rmatch_RSeq. cbn [rmatch star].
    change (is_space "(") with false. cbv iota.
    rewrite Ascii.eqb_refl. exact Ek.
Qed.

Lemma match_header_decl (ret name params rest : text) (prev : option ascii) :
  wf_return_type ret = true -> identifier name = true ->
  no_char ")" params = true ->
  match_header prev
    (ret ++ T " " ++ name ++ "("%char :: params ++ T ");" ++ rest)
  = Some (rest, [(3, params); (2, name); (1, ret)]).
Proof.
  intros Hret Hname Hp. unfold match_header, header_keyword.
  rewrite rmatch_RSeq, rmatch_RGroup, !rmatch_RAlt, !rmatch_RLit.
  assert (Hk : forall p,
             rmatch header_name _ p
               (T " " ++ name ++ "("%char :: params ++ T ");" ++ rest)
               [(1, ret)] header_params
             = Some (rest, [(3, params); (2, name); (1, ret)])).
  { intros p. apply header_name_decl; [exact Hname|].
    apply header_params_decl. exact Hp. }
  apply wf_return_type_inv in Hret.
  destruct Hret as [-> | [-> | ->]].
  - rewrite strip_prefix_app, firstn_app_exact, Hk. reflexivity.
  - match goal with
    | |- context [strip_prefix (T "void") ?s] =>
        change (strip_prefix (T "void") s) with (@None text)
    end.
    rewrite strip_prefix_app, firstn_app_exact, Hk. reflexivity.
  - match goal with
    | |- context [strip_prefix (T "void") ?s] =>
        change (strip_prefix (T "void") s) with (@None text)
    end.
    match goal with
    | |- context [strip_prefix (T "int") ?s] =>
        change (strip_prefix (T "int") s) with (@None text)
    end.
    rewrite strip_prefix_app, firstn_app_exact, Hk. reflexivity.
Qed.

Lemma search_header_eq (prev : option ascii) (s : text) :
  search_header prev s
  = match match_header prev s with
    | Some (_, caps) => Some caps
    | None =>
        match s with
        | [] => None
        | c :: s' => search_header (Some c) s'
        end
    end.
Proof. destruct s; reflexivity. Qed.

Lemma search_header_decl (ret name params rest : text) (pre : text) :
  forall prev,
    no_char "(" pre = true ->
    wf_return_type ret = true -> identifier name = true ->
    no_char ")" params = true ->
    search_header prev
      (pre ++ ret ++ T " " ++ name ++ "("%char :: params ++ T ");" ++ rest)
    = Some [(3, params); (2, name); (1, ret)].
Proof.
  induction pre as [|c pre IH]; intros prev Hpre Hret Hname Hp;
    rewrite search_header_eq.
  - cbn [app]. rewrite match_header_decl by assumption. reflexivity.
  - rewrite match_header_before; [|discriminate|assumption..].
    cbn [app]. apply IH; try assumption.
    unfold no_char in *. simpl in Hpre.
    apply andb_true_iff in Hpre. apply Hpre.
Qed.

Lemma join_no_paren (params : list (text * text)) :
  forallb wf_param params = true ->
  no_char ")" (join (T ", ") (map param_repr params)) = true.
Proof.
  induction params as [|[t n] params IH]; intros H; [reflexivity|].
  simpl in H. apply andb_true_iff in H. destruct H as [Hp Hw].
  apply wf_param_inv in Hp. destruct Hp as (_ & _ & _ & _ & Hc).
  destruct params as [|p2 params]; [exact Hc|].
  change (join (T ", ") (map param_repr ((t, n) :: p2 :: params)))
    with (param_repr (t, n) ++ T ", "
            ++ join (T ", ") (map param_repr (p2 :: params))).
  unfold no_char in *. rewrite !forallb_app.
  unfold param_repr at 1. cbn [fst snd]. rewrite Hc, (IH Hw). reflexivity.
Qed.

(** ** Parameters written as one word *)

Lemma span_nonspace_all (w : text) :
  no_space w = true -> span_nonspace w = (w, []).
Proof.
  unfold no_space. induction w as [|a w IH]; [reflexivity|].
  simpl. intros H. apply andb_true_iff in H. destruct H as [Ha Hw].
  apply negb_true_iff in Ha. rewrite Ha, (IH Hw). reflexivity.
Qed.

Lemma no_space_trimmed (s : text) :
  s <> [] -> no_space s = true -> trimmed s = true.
Proof.
  intros Hne Hs. unfold trimmed.
  destruct s as [|c s']; [congruence|].
  pose proof (no_space_rev _ Hs) as Hr.
  pose proof (rev_nonempty _ _ Hne) as Hn.
  destruct (rev (c :: s')) as [|d r]; [congruence|].
  simpl in Hs, Hr.
  apply andb_true_iff in Hs. destruct Hs as [Hc _].
  apply andb_true_iff in Hr. destruct Hr as [Hd _].
  rewrite Hc, Hd. reflexivity.
Qed.

Lemma rsplit_last_single (s : text) :
  s <> [] -> no_space s = true -> rsplit_last s = [s].
Proof.
  intros Hne Hs. unfold rsplit_last.
  pose proof (no_space_rev _ Hs) as Hr.
  pose proof (rev_nonempty _ _ Hne) as Hn.
  assert (El : lstrip (rev s) = rev s).
  { destruct (rev s) as [|d r]; [reflexivity|].
    simpl in Hr. apply andb_true_iff in Hr. destruct Hr as [Hd _].
    apply negb_true_iff in Hd. simpl. rewrite Hd. reflexivity. }
  rewrite El, (span_nonspace_all _ Hr).
  destruct (rev s) as [|d r] eqn:E; [congruence|].
  cbn [lstrip]. rewrite <- E, rev_involutive. reflexivity.
Qed.

Lemma parse_parameter_single (s : text) :
  s <> [] -> no_space s = true ->
  parse_parameter s
  = match match_at attached_pattern None s with
    | Some (_, caps) => [(group 1 caps, group 2 caps)]
    | None => []
    end.
Proof.
  intros Hne Hs. unfold parse_parameter.
  pose proof (strip_trimmed [] s eq_refl (no_space_trimmed s Hne Hs)) as E.
  cbn [app] in E. rewrite E.
  pose proof (rsplit_last_single s Hne Hs) as Er.
  destruct s as [|c s']; [congruence|]. rewrite Er. reflexivity.
Qed.

Lemma word_no_space (w : text) :
  forallb is_word w = true -> no_space w = true.
Proof.
  unfold no_space. apply forallb_impl. intros c H.
  apply word_not_space in H. rewrite H. reflexivity.
Qed.

Lemma word_not_comma (c : ascii) :
  is_word c = true -> not_char "," c = true.
Proof.
  destruct c as [[] [] [] [] [] [] [] []]; vm_compute; congruence.
Qed.

Lemma word_not_star (c : ascii) :
  is_word c = true -> Ascii.eqb c "*" = false.
Proof.
  destruct c as [[] [] [] [] [] [] [] []]; vm_compute; congruence.
Qed.

(** A greedy repetition gives back its last character when the rest of the
    pattern fails at the end of the text and succeeds one character
    earlier. *)
Lemma star_backtrack_one (R : Type) (p : ascii -> bool) (c : ascii)
      (w : text) :
  forall prev caps (k : option ascii -> text -> captures -> option R) r,
    forallb p w = true -> p c = true ->
    k (Some c) [] caps = None ->
    k (prev_after w prev) [c] caps = Some r ->
    star p prev (w ++ [c]) caps k = Some r.
Proof.
  induction w as [|x w IH]; intros prev caps k r Hw Hc Hend Hk.
  - cbn [app star]. rewrite Hc, Hend. exact Hk.
  - simpl in Hw. apply andb_true_iff in Hw. destruct Hw as [Hx Hw].
    cbn [app star]. rewrite Hx.
    rewrite (IH (Some x) caps k r Hw Hc Hend Hk). reflexivity.
Qed.

Lemma star_end (R : Type) (p : ascii -> bool) (w : text) :
  forall prev caps (k : option ascii -> text -> captures -> option R) r,
    forallb p w = true ->
    k (prev_after w prev) [] caps = Some r ->
    star p prev w caps k = Some r.
Proof.
  intros prev caps k r Hw Hk.
  rewrite <- (app_nil_r w). apply star_greedy; [exact Hw|exact Hk|exact I].
Qed.

Lemma first_some (A : Type) (o d : option A) (r : A) :
  o = Some r -> match o with Some x => Some x | None => d end = Some r.
Proof. intros ->. reflexivity. Qed.

Lemma match_attached_word (w : text) (c : ascii) :
  w <> [] -> forallb is_word w = true -> is_word c = true ->
  match_at attached_pattern None (w ++ [c])
  = Some ([], [(2, [c]); (1, w)]).
Proof.
  intros Hne Hw Hc. unfold match_at, attached_pattern.
  rewrite rmatch_RSeq, rmatch_RGroup, rmatch_RSeq.
  destruct w as [|x w]; [congruence|].
  simpl in Hw. apply andb_true_iff in Hw. destruct Hw as [Hx Hw].
  cbn [app]. cbn [rmatch]. rewrite Hx.
  apply star_backtrack_one; try assumption.
  - reflexivity.
  - rewrite (word_not_star c Hc), Hc.
    change (x :: w ++ [c]) with ((x :: w) ++ [c]).
    rewrite firstn_app_exact. reflexivity.
Qed.

Lemma match_attached_pointer (t n : text) :
  identifier t = true -> identifier n = true ->
  match_at attached_pattern None (t ++ T "*" ++ n)
  = Some ([], [(2, n); (1, t ++ T "*")]).
Proof.
  intros Ht Hn.
  apply identifier_inv in Ht. destruct Ht as [Htne Htw].
  apply identifier_inv in Hn. destruct Hn as [Hnne Hnw].
  unfold match_at, attached_pattern.
  rewrite rmatch_RSeq, rmatch_RGroup, rmatch_RSeq.
  apply plus_complete; [exact Htne|exact Htw|reflexivity|].
  rewrite rmatch_RAlt.
  change (T "*" ++ n) with ("*"%char :: n).
  cbn [rmatch]. change (Ascii.eqb "*" "*") with true. cbv iota.
  replace (firstn (length (t ++ "*"%char :: n) - length n)
             (t ++ "*"%char :: n))
    with (t ++ T "*").
  2:{ change (t ++ "*"%char :: n) with (t ++ T "*" ++ n).
      rewrite app_assoc, firstn_app_exact. reflexivity. }
  destruct n as [|x n]; [congruence|].
  simpl in Hnw. apply andb_true_iff in Hnw. destruct Hnw as [Hx Hnw].
  rewrite Hx. apply first_some. apply star_end; [exact Hnw|].
  rewrite Nat.sub_0_r, firstn_all. reflexivity.
Qed.

(** ** The registry *)

Lemma text_eqb_neq (a b : text) : a <> b -> text_eqb a b = false.
Proof.
  unfold text_eqb. destruct (list_eq_dec ascii_dec a b); congruence.
Qed.

Lemma registry_get_set_same (reg : list (text * FunctionSignature))
      (k : text) (v : FunctionSignature) :
  registry_get (registry_set reg k v) k = Some v.
Proof.
  induction reg as [|[k' x] reg IH]; simpl.
  - rewrite text_eqb_refl. reflexivity.
  - destruct (text_eqb k' k) eqn:E; simpl; rewrite E; [reflexivity|exact IH].
Qed.

Lemma registry_get_set_other (reg : list (text * FunctionSignature))
      (k k' : text) (v : FunctionSignature) :
  k <> k' ->
  registry_get (registry_set reg k v) k' = registry_get reg k'.
Proof.
  intros Hk. induction reg as [|[k0 x] reg IH]; simpl.
  - rewrite (text_eqb_neq _ _ Hk). reflexivity.
  - destruct (text_eqb k0 k) eqn:E; simpl.
    + apply text_eqb_eq in E. subst k0.
      rewrite (text_eqb_neq _ _ Hk). reflexivity.
    + destruct (text_eqb k0 k'); [reflexivity|exact IH].
Qed.

Lemma scan_keeps (later : list text) :
  forall reg name v,
    registry_get reg name = Some v ->
    forallb (fun h => negb (declares name h)) later = true ->
    registry_get (fold_left scan_header later reg) name = Some v.
Proof.
  induction later as [|h later IH]; intros reg name v Hg Hl; [exact Hg|].
  simpl in Hl. apply andb_true_iff in Hl. destruct Hl as [Hh Hl].
  cbn [fold_left]. apply IH; [|exact Hl].
  unfold scan_header. unfold declares in Hh.
  destruct (parse_header_file h) as [sig|]; [|exact Hg].
  apply negb_true_iff in Hh.
  rewrite registry_get_set_other; [exact Hg|].
  intros E. rewrite E, text_eqb_refl in Hh. discriminate.
Qed.

Lemma scan_origin (hs : list text) :
  forall reg name sig,
    registry_get (fold_left scan_header hs reg) name = Some sig ->
    registry_get reg name = Some sig
    \/ exists h,
        In h hs /\ parse_header_file h = Some sig /\ fs_name sig = name.
Proof.
  induction hs as [|h hs IH]; intros reg name sig H; [left; exact H|].
  cbn [fold_left] in H. apply IH in H. destruct H as [H|(h' & Hin & Hp)].
  - unfold scan_header in H.
    destruct (parse_header_file h) as [sig'|] eqn:Eh; [|left; exact H].
    destruct (text_eqb (fs_name sig') name) eqn:E.
    + apply text_eqb_eq in E. subst name.
      rewrite registry_get_set_same in H. injection H as <-.
      right. exists h. split; [left; reflexivity|]. split; [exact Eh|reflexivity].
    + rewrite registry_get_set_other in H; [left; exact H|].
      intros E'. rewrite E', text_eqb_refl in E. discriminate.
  - right. exists h'. split; [right; exact Hin|exact Hp].
Qed.

(** ** [HeaderParser]: what a scan of the library gives *)

(** A header with no opening parenthesis declares nothing. *)
Theorem parse_header_file_no_paren (content : text) :
  no_char "(" content = true -> parse_header_file content = None.
Proof.
  intros Hn. unfold parse_header_file.
  rewrite search_header_none by (apply no_char_notin; exact Hn).
  reflexivity.
Qed.

Lemma parse_header_file_no_paren_witness :
  parse_header_file (T "#define N 64" ++ nl :: T "extern float table[N];")
  = None.
Proof.
  apply (parse_header_file_no_paren
           (T "#define N 64" ++ nl :: T "extern float table[N];")).
  reflexivity.
Defined.

(** Round trip: [_parse_parameters] reads back the parameter list that
    [__repr__] prints, for parameters with a type without white space at its
    ends, a name without white space, and neither a comma nor a closing
    parenthesis in them; white space before the list changes nothing. *)
Theorem parse_parameters_round_trip (lead : text)
        (params : list (text * text)) :
  forallb is_space lead = true ->
  forallb wf_param params = true ->
  _parse_parameters (lead ++ join (T ", ") (map param_repr params)) = params.
Proof. intros Hl Hw. apply parse_parameters_repr_lead; assumption. Qed.

Lemma parse_parameters_round_trip_witness :
  _parse_parameters
    (T "  " ++ join (T ", ")
       (map param_repr
          [(T "int", T "N"); (T "unsigned long", T "M");
           (T "float*", T "output")]))
  = [(T "int", T "N"); (T "unsigned long", T "M"); (T "float*", T "output")].
Proof.
  apply (parse_parameters_round_trip (T "  ")
           [(T "int", T "N"); (T "unsigned long", T "M");
            (T "float*", T "output")]).
  - reflexivity.
  - reflexivity.
Defined.

(** Round trip: [parse_header_file] reads back a signature from the
    declaration [__repr__] prints for it followed by a semicolon, whatever
    follows, and whatever text without an opening parenthesis comes
    before. *)
Theorem parse_header_file_round_trip (pre rest : text)
        (sig : FunctionSignature) :
  no_char "(" pre = true ->
  wf_signature sig = true ->
  parse_header_file (pre ++ signature_repr sig ++ T ";" ++ rest) = Some sig.
Proof.
  intros Hpre Hsig. unfold wf_signature in Hsig.
  apply andb_true_iff in Hsig. destruct Hsig as [Hsig Hparams].
  apply andb_true_iff in Hsig. destruct Hsig as [Hret Hname].
  destruct sig as [name ret params]. cbn [fs_name fs_return_type fs_params] in *.
  unfold parse_header_file, signature_repr.
  cbn [fs_name fs_return_type fs_params].
  replace (pre ++ (ret ++ T " " ++ name ++ T "("
                    ++ join (T ", ") (map param_repr params) ++ T ")")
             ++ T ";" ++ rest)
    with (pre ++ ret ++ T " " ++ name
            ++ "("%char :: join (T ", ") (map param_repr params)
            ++ T ");" ++ rest)
    by (rewrite <- !app_assoc; reflexivity).
  rewrite search_header_decl; try assumption.
  - cbn [group Nat.eqb].
    pose proof (parse_parameters_repr_lead params [] eq_refl Hparams) as E.
    cbn [app] in E. rewrite E. reflexivity.
  - apply join_no_paren. exact Hparams.
Qed.

Lemma parse_header_file_round_trip_witness :
  parse_header_file
    (T "#pragma once" ++ [nl] ++ signature_repr addone_sig ++ T ";" ++ [nl])
  = Some addone_sig.
Proof.
  apply (parse_header_file_round_trip (T "#pragma once" ++ [nl]) [nl] addone_sig).
  - reflexivity.
  - reflexivity.
Defined.

(** A parameter written as one word of two characters or more, as in the
    list [(void)], is read as a parameter whose name is the last character
    of the word and whose type is what stands before it. *)
Theorem parse_parameters_one_word (w : text) (c : ascii) :
  w <> [] -> forallb is_word w = true -> is_word c = true ->
  _parse_parameters (w ++ [c]) = [(w, [c])].
Proof.
  intros Hne Hw Hc. unfold _parse_parameters.
  assert (Hwc : forallb is_word (w ++ [c]) = true).
  { rewrite forallb_app, Hw. simpl. rewrite Hc. reflexivity. }
  rewrite split_on_none
    by (unfold no_char; exact (forallb_impl _ _ _ word_not_comma Hwc)).
  cbn [flat_map]. rewrite app_nil_r.
  rewrite parse_parameter_single;
    [|destruct w; discriminate|apply word_no_space; exact Hwc].
  rewrite (match_attached_word w c Hne Hw Hc). reflexivity.
Qed.

Lemma parse_parameters_one_word_witness :
  _parse_parameters (T "voi" ++ ["d"%char]) = [(T "voi", ["d"%char])].
Proof.
  apply (parse_parameters_one_word (T "voi") "d").
  - discriminate.
  - reflexivity.
  - reflexivity.
Defined.

(** A parameter of one word character gives no parameter at all. *)
Theorem parse_parameters_one_char (c : ascii) :
  is_word c = true -> _parse_parameters [c] = [].
Proof.
  intros Hc. unfold _parse_parameters.
  rewrite split_on_none
    by (unfold no_char; simpl; rewrite (word_not_comma c Hc); reflexivity).
  cbn [flat_map]. rewrite app_nil_r.
  rewrite parse_parameter_single;
    [|discriminate
     |unfold no_space; simpl; rewrite (word_not_space c Hc); reflexivity].
  unfold match_at, attached_pattern. cbn [rmatch star].
  rewrite Hc. reflexivity.
Qed.

Lemma parse_parameters_one_char_witness : _parse_parameters [ "x"%char ] = [].
Proof. apply (parse_parameters_one_char "x"). reflexivity. Defined.

(** The form [float*x], with the star attached on both sides: the type is
    the word with its star, the name the word after it. *)
Theorem parse_parameters_attached_pointer (t n : text) :
  identifier t = true -> identifier n = true ->
  _parse_parameters (t ++ T "*" ++ n) = [(t ++ T "*", n)].
Proof.
  intros Ht Hn. unfold _parse_parameters.
  pose proof (identifier_inv _ Ht) as [Htne Htw].
  pose proof (identifier_inv _ Hn) as [Hnne Hnw].
  rewrite split_on_none.
  2:{ unfold no_char. rewrite !forallb_app.
      rewrite (forallb_impl _ _ _ word_not_comma Htw).
      rewrite (forallb_impl _ _ _ word_not_comma Hnw). reflexivity. }
  cbn [flat_map]. rewrite app_nil_r.
  rewrite parse_parameter_single.
  - rewrite (match_attached_pointer t n Ht Hn). reflexivity.
  - destruct t; [congruence|discriminate].
  - unfold no_space. rewrite !forallb_app.
    pose proof (word_no_space _ Htw) as H1.
    pose proof (word_no_space _ Hnw) as H2.
    unfold no_space in H1, H2. rewrite H1, H2. reflexivity.
Qed.

Lemma parse_parameters_attached_pointer_witness :
  _parse_parameters (T "float" ++ T "*" ++ T "x") = [(T "float" ++ T "*", T "x")].
Proof.
  apply (parse_parameters_attached_pointer (T "float") (T "x")).
  - reflexivity.
  - reflexivity.
Defined.

(** When several headers declare the same name, the registry holds the
    signature of the one the directory lists last. *)
Theorem scan_lib_directory_last_wins (hs later : list text) (h : text)
        (sig : FunctionSignature) :
  parse_header_file h = Some sig ->
  forallb (fun h' => negb (declares (fs_name sig) h')) later = true ->
  registry_get (scan_lib_directory (hs ++ h :: later)) (fs_name sig)
  = Some sig.
Proof.
  intros Hp Hl. unfold scan_lib_directory.
  rewrite fold_left_app. cbn [fold_left].
  apply scan_keeps; [|exact Hl].
  unfold scan_header. rewrite Hp. apply registry_get_set_same.
Qed.

Lemma scan_lib_directory_last_wins_witness :
  registry_get
    (scan_lib_directory
       ([T "void f(int a);"] ++ T "int f(float* b);" :: [T "float g();"]))
    (T "f")
  = Some {| fs_name := T "f"; fs_return_type := T "int";
            fs_params := [(T "float*", T "b")] |}.
Proof.
  apply (scan_lib_directory_last_wins
           [T "void f(int a);"] [T "float g();"] (T "int f(float* b);")
           {| fs_name := T "f"; fs_return_type := T "int";
              fs_params := [(T "float*", T "b")] |}).
  - reflexivity.
  - reflexivity.
Defined.

(** Every entry of the registry is the signature read from one of the
    headers, filed under the name that signature declares. *)
Theorem scan_lib_directory_sound (hs : list text) (name : text)
        (sig : FunctionSignature) :
  registry_get (scan_lib_directory hs) name = Some sig ->
  exists h, In h hs /\ parse_header_file h = Some sig /\ fs_name sig = name.
Proof.
  intros H. unfold scan_lib_directory in H. apply scan_origin in H.
  destruct H as [H|H]; [discriminate H|exact H].
Qed.

Lemma scan_lib_directory_sound_witness :
  exists h,
    In h [T "void f(int a);"; T "float g();"]
    /\ parse_header_file h
       = Some {| fs_name := T "g"; fs_return_type := T "float";
                 fs_params := [] |}
    /\ fs_name {| fs_name := T "g"; fs_return_type := T "float";
                  fs_params := [] |} = T "g".
Proof.
  apply (scan_lib_directory_sound [T "void f(int a);"; T "float g();"]
           (T "g")
           {| fs_name := T "g"; fs_return_type := T "float";
              fs_params := [] |}).
  reflexivity.
Defined.

(** ** Texts a pattern cannot match *)

Lemma needs_sound (p : ascii -> bool) (r : regex) :
  needs p r = true ->
  forall (R : Type) prev s caps
         (k : option ascii -> text -> captures -> option R) x,
    rmatch r R prev s caps k = Some x ->
    exists prev' s' caps' pre,
      s = pre ++ s' /\ existsb p pre = true /\ k prev' s' caps' = Some x.
Proof.
  induction r as [ |c|q|r1 IH1 r2 IH2|r1 IH1 r2 IH2|q|q|n r IH| |r IH|r IH];
    intros Hn R prev s caps k x H; cbn [needs] in Hn; try discriminate.
  - apply rmatch_char_head in H. destruct H as (s' & -> & H).
    exists (Some c), s', caps, [c]. cbn [existsb]. rewrite Hn. auto.
  - rewrite rmatch_RSeq in H. apply orb_true_iff in Hn.
    destruct Hn as [Hn|Hn].
    + apply (IH1 Hn) in H. destruct H as (p1 & s1 & c1 & pre1 & -> & He & H).
      apply rmatch_suffix in H. destruct H as (p2 & s2 & c2 & pre2 & -> & H).
      exists p2, s2, c2, (pre1 ++ pre2). rewrite <- app_assoc.
      rewrite existsb_app, He. auto.
    + apply rmatch_suffix in H. destruct H as (p1 & s1 & c1 & pre1 & -> & H).
      apply (IH2 Hn) in H. destruct H as (p2 & s2 & c2 & pre2 & -> & He & H).
      exists p2, s2, c2, (pre1 ++ pre2). rewrite <- app_assoc.
      rewrite existsb_app, He, orb_true_r. auto.
  - rewrite rmatch_RAlt in H. apply andb_true_iff in Hn.
    destruct Hn as [Hn1 Hn2].
    destruct (rmatch r1 R prev s caps k) as [y|] eqn:E.
    + injection H as ->. apply (IH1 Hn1) in E. exact E.
    + apply (IH2 Hn2) in H. exact H.
  - rewrite rmatch_RGroup in H. apply (IH Hn) in H.
    destruct H as (p1 & s1 & c1 & pre1 & -> & He & H).
    eexists p1, s1, _, pre1. split; [reflexivity|]. split; [exact He|exact H].
Qed.

Lemma free_of_existsb (cs s : text) :
  free_of cs s = true -> existsb (among cs) s = false.
Proof.
  unfold free_of. induction s as [|c s IH]; [reflexivity|].
  simpl. intros H. apply andb_true_iff in H. destruct H as [Hc Hs].
  apply negb_true_iff in Hc. rewrite Hc, (IH Hs). reflexivity.
Qed.

Lemma match_at_needs (cs : text) (r : regex) (prev : option ascii)
      (s : text) :
  needs (among cs) r = true -> free_of cs s = true ->
  match_at r prev s = None.
Proof.
  intros Hn Hs. destruct (match_at r prev s) as [x|] eqn:E; [|reflexivity].
  exfalso. unfold match_at in E. apply (needs_sound _ _ Hn) in E.
  destruct E as (p1 & s1 & c1 & pre & -> & He & _).
  apply free_of_existsb in Hs. rewrite existsb_app, He in Hs. discriminate.
Qed.

Section Frame.
Variable St : Type.
Variable r : regex.
Variable f : St -> text -> captures -> text * St.
Variable cs : text.
Hypothesis needs_cs : needs (among cs) r = true.

Lemma sub_loop_frame (s : text) :
  free_of cs s = true ->
  forall prev st, sub_loop r f prev s 0 st = (s, st).
Proof.
  induction s as [|c s IH]; intros Hs prev st; cbn [sub_loop].
  - rewrite (match_at_needs cs r prev [] needs_cs Hs). reflexivity.
  - rewrite (match_at_needs cs r prev (c :: s) needs_cs Hs).
    unfold free_of in Hs. simpl in Hs. apply andb_true_iff in Hs.
    destruct Hs as [_ Hs]. rewrite (IH Hs). reflexivity.
Qed.

Lemma re_sub_st_frame (s : text) (st : St) :
  free_of cs s = true -> re_sub_st r f s st = (s, st).
Proof. intros Hs. apply sub_loop_frame. exact Hs. Qed.
End Frame.

Lemma re_sub_frame (cs : text) (r : regex) (f : text -> captures -> text)
      (s : text) :
  needs (among cs) r = true -> free_of cs s = true -> re_sub r f s = s.
Proof.
  intros Hn Hs. unfold re_sub.
  rewrite (re_sub_st_frame unit r _ cs Hn s tt Hs). reflexivity.
Qed.

Lemma re_sub_eval_frame (cs : text) (r : regex)
      (f : nat -> text -> captures -> option text) (s : text) (calls : nat) :
  needs (among cs) r = true -> free_of cs s = true ->
  re_sub_eval r f s calls = Some (s, calls).
Proof.
  intros Hn Hs. unfold re_sub_eval.
  rewrite (re_sub_st_frame (option nat) r _ cs Hn s (Some calls) Hs).
  reflexivity.
Qed.

Lemma free_of_weaken (cs cs' s : text) :
  (forall c, among cs' c = true -> among cs c = true) ->
  free_of cs s = true -> free_of cs' s = true.
Proof.
  intros H. unfold free_of. rewrite !forallb_forall. intros Hs x Hx.
  specialize (Hs x Hx). apply negb_true_iff in Hs. apply negb_true_iff.
  destruct (among cs' x) eqn:E; [|reflexivity].
  apply H in E. congruence.
Qed.

Lemma needs_weaken (cs cs' : text) (r : regex) :
  (forall c, among cs' c = true -> among cs c = true) ->
  needs (among cs') r = true -> needs (among cs) r = true.
Proof.
  intros H. induction r; cbn [needs]; intros Hn; try discriminate.
  - apply H. exact Hn.
  - apply orb_true_iff in Hn. apply orb_true_iff.
    destruct Hn as [Hn|Hn]; [left; apply IHr1|right; apply IHr2]; exact Hn.
  - apply andb_true_iff in Hn. apply andb_true_iff.
    destruct Hn as [H1 H2]. split; [apply IHr1|apply IHr2]; assumption.
  - apply IHr. exact Hn.
Qed.

(** ** The rewriter on code it has nothing to do with *)

Lemma simplify_pass_frame (c : text) :
  free_of (T "(0") c = true -> simplify_pass c = c.
Proof.
  intros H. unfold simplify_pass.
  rewrite (re_sub_frame (T "(0") (paren_zero_pattern "-") _ c eq_refl H).
  rewrite (re_sub_frame (T "(0") (paren_zero_pattern "+") _ c eq_refl H).
  rewrite (re_sub_frame (T "(0") (bare_zero_pattern "-") _ c eq_refl H).
  rewrite (re_sub_frame (T "(0") (bare_zero_pattern "+") _ c eq_refl H).
  rewrite (re_sub_frame (T "(0") zero_pattern _ c eq_refl H).
  rewrite (re_sub_frame (T "(0") paren_word_pattern _ c eq_refl H).
  reflexivity.
Qed.

(** Code with no opening parenthesis, no opening bracket and no digit zero
    goes through [transform_calloc_to_vla] unchanged, and every counter of
    the statistics stays at zero. *)
Theorem transform_leaves_plain_code (c_code : text) :
  free_of (T "([0") c_code = true ->
  transform_calloc_to_vla c_code = (c_code, initial_stats).
Proof.
  intros H. unfold transform_calloc_to_vla, calloc_pass, free_pass.
  rewrite (re_sub_st_frame stats calloc_pattern _ (T "([0") eq_refl _ _ H).
  rewrite (re_sub_st_frame stats free_pattern _ (T "([0") eq_refl _ _ H).
  rewrite (re_sub_st_frame stats vla_pattern _ (T "([0") eq_refl _ _ H).
  unfold simplify_all_expressions. cbn [simplify_loop].
  rewrite simplify_pass_frame.
  - rewrite text_eqb_refl. reflexivity.
  - revert H. apply free_of_weaken. intros c. unfold among. simpl.
    destruct (Ascii.eqb c "("), (Ascii.eqb c "0"), (Ascii.eqb c "[");
      simpl; congruence.
Qed.

Lemma transform_leaves_plain_code_witness :
  transform_calloc_to_vla (T "int n = 12; return n + 1;")
  = (T "int n = 12; return n + 1;", initial_stats).
Proof.
  apply (transform_leaves_plain_code (T "int n = 12; return n + 1;")).
  reflexivity.
Defined.

(** ** The constant folder on code with nothing to fold *)

Section SubChars.
Variable St : Type.
Variable r : regex.
Variable f : St -> text -> captures -> text * St.
Variable q : ascii -> bool.
Hypothesis rep_chars :
  forall st m caps, forallb q (fst (f st m caps)) = true.

Lemma sub_loop_chars (s : text) :
  forallb q s = true ->
  forall prev skip st, forallb q (fst (sub_loop r f prev s skip st)) = true.
Proof.
  induction s as [|c s IH]; intros Hs prev skip st; cbn [sub_loop].
  - destruct skip; [|reflexivity].
    destruct (match_at r prev []) as [[rest caps]|]; [|reflexivity].
    apply rep_chars.
  - simpl in Hs. apply andb_true_iff in Hs. destruct Hs as [Hc Hs].
    destruct skip; [|apply IH; exact Hs].
    destruct (match_at r prev (c :: s)) as [[rest caps]|].
    + destruct (length (c :: s) - length rest).
      * pose proof (rep_chars st [] caps) as Hf.
        destruct (f st [] caps) as [rep st1]. simpl in Hf.
        pose proof (IH Hs (Some c) 0 st1) as Ho.
        destruct (sub_loop r f (Some c) s 0 st1) as [out st2]. simpl in *.
        rewrite forallb_app, Hf. simpl. rewrite Hc, Ho. reflexivity.
      * pose proof (rep_chars st (firstn (S n) (c :: s)) caps) as Hf.
        destruct (f st (firstn (S n) (c :: s)) caps) as [rep st1].
        simpl in Hf.
        pose proof (IH Hs (Some c) n st1) as Ho.
        destruct (sub_loop r f (Some c) s n st1) as [out st2]. simpl in *.
        rewrite forallb_app, Hf, Ho. reflexivity.
    + pose proof (IH Hs (Some c) 0 st) as Ho.
      destruct (sub_loop r f (Some c) s 0 st) as [out st1]. simpl in *.
      rewrite Hc, Ho. reflexivity.
Qed.
End SubChars.

Lemma digit_char_digit (d : nat) : d < 10 -> is_digit (digit_char d) = true.
Proof.
  intros H. do 10 (destruct d as [|d]; [reflexivity|]). lia.
Qed.

Lemma digits_of_pos_fuel_digits (fuel : nat) :
  forall n acc,
    forallb is_digit acc = true ->
    forallb is_digit (digits_of_pos_fuel fuel n acc) = true.
Proof.
  induction fuel as [|fuel IH]; intros n acc Ha; cbn [digits_of_pos_fuel].
  - exact Ha.
  - assert (Hd : forallb is_digit
                   (digit_char (N.to_nat (n mod 10)) :: acc) = true).
    { cbn [forallb]. rewrite Ha, digit_char_digit; [reflexivity|].
      pose proof (N.mod_lt n 10). lia. }
    destruct (n / 10 =? 0)%N; [exact Hd|]. apply IH. exact Hd.
Qed.

Lemma str_of_N_digits (n : N) : forallb is_digit (str_of_N n) = true.
Proof. unfold str_of_N. apply digits_of_pos_fuel_digits. reflexivity. Qed.

(** [str(z)] is a run of digits, after a minus sign when [z] is negative. *)
Lemma str_of_int_chars (z : Z) :
  forallb (fun c => is_digit c || Ascii.eqb c "-") (str_of_int z) = true.
Proof.
  assert (H : forall t, forallb is_digit t = true ->
                        forallb (fun c => is_digit c || Ascii.eqb c "-") t
                        = true).
  { intros t. apply forallb_impl. intros c ->. reflexivity. }
  destruct z as [|p|p]; cbn [str_of_int].
  - reflexivity.
  - apply H, str_of_N_digits.
  - cbn [forallb]. rewrite (H _ (str_of_N_digits (N.pos p))).
    reflexivity.
Qed.

Lemma digit_or_minus_plain (c : ascii) :
  is_digit c || Ascii.eqb c "-" = true -> negb (among (T "[<>") c) = true.
Proof.
  destruct c as [[] [] [] [] [] [] [] []]; vm_compute; congruence.
Qed.

Lemma substitute_loop_free (param_values : param_dict) :
  forall s,
    free_of (T "[<>") s = true ->
    free_of (T "[<>")
      (fold_left
         (fun result pv =>
            re_sub (word_boundaries (fst pv))
                   (fun _ _ => str_of_int (snd pv)) result)
         param_values s) = true.
Proof.
  induction param_values as [|[n v] pv IH]; intros s Hs; [exact Hs|].
  cbn [fold_left]. apply IH. unfold re_sub, re_sub_st, free_of.
  apply sub_loop_chars; [|exact Hs].
  intros st m caps. cbn [fst snd].
  exact (forallb_impl _ _ _ digit_or_minus_plain (str_of_int_chars v)).
Qed.

Lemma substitute_params_free (param_values : param_dict) (s r : text) :
  free_of (T "[<>") s = true ->
  substitute_params param_values s = Some r ->
  free_of (T "[<>") r = true.
Proof.
  intros Hs Hr.
  rewrite (substitute_params_names_ok _
             (substitute_params_some _ _ _ Hr)) in Hr.
  injection Hr as <-. apply substitute_loop_free. exact Hs.
Qed.

Lemma fold_code_free (py : interpreter) (param_values : param_dict)
      (code_text : text) :
  free_of (T "[<>") code_text = true ->
  fold_code py param_values code_text
  = substitute_params param_values code_text.
Proof.
  intros H. unfold fold_code.
  destruct (substitute_params param_values code_text) as [r|] eqn:E;
    [|reflexivity].
  pose proof (substitute_params_free _ _ _ H E) as Hr.
  rewrite (re_sub_eval_frame (T "[<>") array_size_pattern _ _ _ eq_refl Hr).
  rewrite (re_sub_eval_frame (T "[<>") comparison_pattern _ _ _ eq_refl Hr).
  cbn [comparison_passes].
  rewrite (re_sub_eval_frame (T "[<>") comparison_pattern _ _ _ eq_refl Hr).
  rewrite text_eqb_refl. reflexivity.
Qed.

(** In code with no opening bracket and no comparison sign the folder
    evaluates nothing: when the parameter names are identifiers it returns,
    whatever the interpreter, the code with the names replaced by their
    values. *)
Theorem fold_code_substitutes_only (py : interpreter)
        (param_values : param_dict) (code_text : text) :
  names_ok param_values = true ->
  free_of (T "[<>") code_text = true ->
  exists substituted,
    substitute_params param_values code_text = Some substituted
    /\ substituted
       = fold_left
           (fun result pv =>
              re_sub (word_boundaries (fst pv))
                     (fun _ _ => str_of_int (snd pv)) result)
           param_values code_text
    /\ fold_code py param_values code_text = Some substituted.
Proof.
  intros Hn H. eexists. split; [|split].
  - apply substitute_params_names_ok. exact Hn.
  - reflexivity.
  - rewrite (fold_code_free py _ _ H).
    apply substitute_params_names_ok. exact Hn.
Qed.

Lemma fold_code_substitutes_only_witness :
  exists substituted,
    substitute_params [(T "N", 4%Z)] (T "s = s + N * 2; t = N0 - N;")
    = Some substituted
    /\ substituted
       = fold_left
           (fun result pv =>
              re_sub (word_boundaries (fst pv))
                     (fun _ _ => str_of_int (snd pv)) result)
           [(T "N", 4%Z)] (T "s = s + N * 2; t = N0 - N;")
    /\ fold_code (fun _ _ => Silent) [(T "N", 4%Z)]
         (T "s = s + N * 2; t = N0 - N;")
       = Some substituted.
Proof.
  apply (fold_code_substitutes_only (fun _ _ => Silent) [(T "N", 4%Z)]
           (T "s = s + N * 2; t = N0 - N;")).
  - reflexivity.
  - reflexivity.
Defined.

(** ** [main]: what a run leaves behind *)

Lemma parse_arguments_bad (w : world) (l : list text) :
  forallb (arg_ok w) l = false ->
  forall ints arrays, parse_arguments w l ints arrays = None.
Proof.
  induction l as [|arg l IH]; intros H ints arrays; [discriminate|].
  cbn [forallb] in H. cbn [parse_arguments]. unfold arg_ok in H at 1.
  destruct (startswith (T "@") arg).
  - destruct (json_file w (tl arg)) as [data|]; [|reflexivity].
    destruct (load_json_array data); try reflexivity.
    apply IH. exact H.
  - destruct (py_int arg) as [v|]; [|reflexivity].
    apply IH. exact H.
Qed.

Lemma parse_arguments_good (w : world) (l : list text) :
  forallb (arg_ok w) l = true ->
  forall ints arrays, parse_arguments w l ints arrays <> None.
Proof.
  induction l as [|arg l IH]; intros H ints arrays; [discriminate|].
  cbn [forallb] in H. apply andb_true_iff in H. destruct H as [Ha Hl].
  cbn [parse_arguments]. unfold arg_ok in Ha.
  destruct (startswith (T "@") arg).
  - destruct (json_file w (tl arg)) as [data|]; [|discriminate].
    destruct (load_json_array data); try discriminate.
    apply IH. exact Hl.
  - destruct (py_int arg) as [v|]; [|discriminate].
    apply IH. exact Hl.
Qed.

(** An argument that is neither an integer nor a readable file of numbers
    makes [main] return exit code 1 and write no file, wherever it stands
    among the arguments. *)
Theorem main_rejects_bad_argument (w : world) (a : cli_args) :
  forallb (arg_ok w) (args a) = false ->
  main w a = Some failed.
Proof.
  intros H. unfold main.
  destruct (registry w) as [|entry reg]; [reflexivity|].
  destruct (registry_get _ _) as [func_sig|]; [|reflexivity].
  rewrite (parse_arguments_bad w (args a) H). reflexivity.
Qed.

Lemma main_rejects_bad_argument_witness :
  main addone_world (addone_cli [T "4"; T "0x10"; T "@x.json"])
  = Some failed.
Proof.
  apply (main_rejects_bad_argument addone_world
           (addone_cli [T "4"; T "0x10"; T "@x.json"])).
  reflexivity.
Defined.

(** A function name that is not in the registry makes [main] return exit
    code 1 and write no file. *)
Theorem main_rejects_unknown_function (w : world) (a : cli_args) :
  registry_get (registry w) (function_name a) = None ->
  main w a = Some failed.
Proof.
  intros H. unfold main.
  destruct (registry w) as [|entry reg]; [reflexivity|].
  rewrite H. reflexivity.
Qed.

Lemma main_rejects_unknown_function_witness :
  main {| registry := [(T "blur", addone_sig)];
          json_file := fun _ => None;
          c_file_of := fun _ => None;
          compile_status := 0;
          python := fun _ _ => Raised |}
       (addone_cli [T "4"])
  = Some failed.
Proof.
  apply (main_rejects_unknown_function
           {| registry := [(T "blur", addone_sig)];
              json_file := fun _ => None;
              c_file_of := fun _ => None;
              compile_status := 0;
              python := fun _ _ => Raised |}
           (addone_cli [T "4"])).
  reflexivity.
Defined.

(** A run of [main] that returns exit code 0 found the function in the
    registry, read every argument, got as many integers and arrays as the
    signature has scalar and input parameters, and wrote exactly one file:
    the program [generate] made, under the name given by [--output] or
    else [wrapper_NAME.c]; and the compiler, if it was asked for, returned
    0. *)
Theorem main_success (w : world) (a : cli_args) (res : run_result) :
  main w a = Some res ->
  exit_code res = 0%Z ->
  exists func_sig int_args array_args code_text,
    registry_get (registry w) (function_name a) = Some func_sig
    /\ parse_arguments w (args a) [] [] = Some (int_args, array_args)
    /\ length int_args = expected_int_count func_sig
    /\ length array_args = expected_array_count func_sig
    /\ generate (python w) func_sig (c_file_of w (fs_name func_sig))
                int_args array_args (output_size a) (negb (no_inline a))
       = Some code_text
    /\ written res = [(output_file a, code_text)]
    /\ ((compile a || run a) = true -> compile_status w = 0%Z).
Proof.
  unfold main. intros H Hx.
  destruct (registry w) as [|entry reg];
    [injection H as <-; discriminate Hx|].
  destruct (registry_get _ _) as [func_sig|];
    [|injection H as <-; discriminate Hx].
  destruct (parse_arguments w (args a) [] []) as [[ints arrays]|];
    [|injection H as <-; discriminate Hx].
  destruct (length ints =? expected_int_count func_sig) eqn:Ei;
    [|injection H as <-; discriminate Hx].
  destruct (length arrays =? expected_array_count func_sig) eqn:Ea;
    [|injection H as <-; discriminate Hx].
  cbn [negb] in H.
  destruct (generate _ _ _ _ _ _ _) as [code_text|] eqn:Eg; [|discriminate].
  exists func_sig, ints, arrays, code_text.
  apply Nat.eqb_eq in Ei, Ea.
  destruct ((compile a || run a) && negb (compile_status w =? 0)%Z) eqn:Ec;
    injection H as <-; [discriminate Hx|].
  repeat apply conj; try reflexivity; try assumption.
  intros Hc. rewrite Hc in Ec. cbn [andb] in Ec.
  apply negb_false_iff in Ec. apply Z.eqb_eq in Ec. exact Ec.
Qed.

Lemma main_success_witness :
  exists func_sig int_args array_args code_text,
    registry_get (registry addone_world)
      (function_name (addone_cli [T "4"; T "@x.json"])) = Some func_sig
    /\ parse_arguments addone_world (args (addone_cli [T "4"; T "@x.json"]))
         [] [] = Some (int_args, array_args)
    /\ length int_args = expected_int_count func_sig
    /\ length array_args = expected_array_count func_sig
    /\ generate (python addone_world) func_sig
                (c_file_of addone_world (fs_name func_sig)) int_args
                array_args (output_size (addone_cli [T "4"; T "@x.json"]))
                (negb (no_inline (addone_cli [T "4"; T "@x.json"])))
       = Some code_text
    /\ written
         (result_of (main addone_world (addone_cli [T "4"; T "@x.json"])))
       = [(output_file (addone_cli [T "4"; T "@x.json"]), code_text)]
    /\ ((compile (addone_cli [T "4"; T "@x.json"])
         || run (addone_cli [T "4"; T "@x.json"])) = true ->
        compile_status addone_world = 0%Z).
Proof.
  apply (main_success addone_world (addone_cli [T "4"; T "@x.json"])
           (result_of (main addone_world (addone_cli [T "4"; T "@x.json"])))).
  - vm_compute. reflexivity.
  - vm_compute. reflexivity.
Defined.

(** When the compiler is asked for and fails, every result of [main] has
    exit code 1; and when the function is in the registry, the arguments
    are read and counted as the signature wants, and the program is
    generated without inlining (or with identifiers for the scalar
    parameters and an interpreter that answers), [main] returns with exit
    code 1 and has written exactly the generated program, under the name
    of the output file. *)
Theorem main_compile_failure (w : world) (a : cli_args) :
  (compile a || run a) = true ->
  compile_status w <> 0%Z ->
  (forall res, main w a = Some res -> exit_code res = 1%Z)
  /\ (forall func_sig int_args array_args,
         registry_get (registry w) (function_name a) = Some func_sig ->
         parse_arguments w (args a) [] [] = Some (int_args, array_args) ->
         length int_args = expected_int_count func_sig ->
         length array_args = expected_array_count func_sig ->
         no_inline a = true
         \/ ((forall t n, In (t, n) (fs_params func_sig) ->
                          is_pointer t = false -> identifier n = true)
             /\ answers (python w)) ->
         exists code_text,
           generate (python w) func_sig (c_file_of w (fs_name func_sig))
             int_args array_args (output_size a) (negb (no_inline a))
           = Some code_text
           /\ main w a
              = Some {| exit_code := 1;
                        written := [(output_file a, code_text)] |}).
Proof.
  intros Hc Hs. split.
  - unfold main. intros res H.
    destruct (registry w) as [|entry reg]; [injection H as <-; auto|].
    destruct (registry_get _ _) as [func_sig|]; [|injection H as <-; auto].
    destruct (parse_arguments w (args a) [] []) as [[ints arrays]|];
      [|injection H as <-; auto].
    destruct (negb (length ints =? expected_int_count func_sig));
      [injection H as <-; auto|].
    destruct (negb (length arrays =? expected_array_count func_sig));
      [injection H as <-; auto|].
    destruct (generate _ _ _ _ _ _ _) as [code_text|]; [|discriminate].
    rewrite Hc in H. apply Z.eqb_neq in Hs. rewrite Hs in H.
    cbn [andb negb] in H. injection H as <-. reflexivity.
  - intros func_sig int_args array_args Hr Hp Hi Ha Hg.
    assert (Hg' : negb (no_inline a) = false
                  \/ ((forall t n, In (t, n) (fs_params func_sig) ->
                                   is_pointer t = false ->
                                   identifier n = true)
                      /\ answers (python w))).
    { destruct Hg as [Hg|Hg]; [left; rewrite Hg; reflexivity|right; exact Hg]. }
    destruct (generate_total (python w) func_sig
                (c_file_of w (fs_name func_sig)) int_args array_args
                (output_size a) (negb (no_inline a)) Hg') as [code_text Eg].
    exists code_text. split; [exact Eg|].
    unfold main.
    destruct (registry w) as [|entry reg] eqn:Er; [discriminate Hr|].
    rewrite Hr, Hp, Hi, Ha, !Nat.eqb_refl. cbn [negb].
    rewrite Eg, Hc. apply Z.eqb_neq in Hs. rewrite Hs.
    reflexivity.
Qed.

Lemma main_compile_failure_witness :
  exists code_text,
    generate (python addone_broken_world) addone_sig
      (c_file_of addone_broken_world (fs_name addone_sig)) [4%Z]
      (snd (result_or ([], [])
              (parse_arguments addone_broken_world
                 (args addone_compile_cli) [] [])))
      (output_size addone_compile_cli)
      (negb (no_inline addone_compile_cli))
    = Some code_text
    /\ main addone_broken_world addone_compile_cli
       = Some {| exit_code := 1;
                 written := [(output_file addone_compile_cli, code_text)] |}.
Proof.
  apply (proj2 (main_compile_failure addone_broken_world addone_compile_cli
                  eq_refl
                  ltac:(vm_compute; discriminate))
           addone_sig [4%Z]
           (snd (result_or ([], [])
                   (parse_arguments addone_broken_world
                      (args addone_compile_cli) [] [])))).
  - reflexivity.
  - vm_compute. reflexivity.
  - reflexivity.
  - vm_compute. reflexivity.
  - right. split.
    + intros t n [E|[E|[E|[]]]] Ht; injection E as <- <-;
        [reflexivity|discriminate|discriminate].
    + intros n s. discriminate.
Defined.

(** ** The body extractor on a file that ends too early *)

Lemma scan_braces_unclosed (s : text) :
  forall depth,
    unclosed s depth = true -> scan_braces s (S depth) = length s.
Proof.
  induction s as [|c s IH]; intros depth H; [reflexivity|].
  rewrite scan_braces_step. cbn [unclosed] in H. cbn [length].
  destruct (Ascii.eqb c "{").
  - f_equal. apply IH. exact H.
  - destruct (Ascii.eqb c "}").
    + destruct depth as [|d]; [discriminate|]. f_equal. apply IH. exact H.
    + f_equal. apply IH. exact H.
Qed.

(** When the brace that opens the function is never closed, the extractor
    still returns a body: the rest of the file without its last character,
    with the white space at the two ends removed. *)
Theorem read_function_body_unclosed :
  forall (func_name content before m after : text) (caps : captures),
    re_search (body_pattern func_name) content
    = Some (before, m, after, caps) ->
    unclosed after 0 = true ->
    read_function_body func_name (Some content)
    = Some (strip (removelast after)).
Proof.
  intros func_name content before m after caps Hs Hu.
  unfold read_function_body. rewrite Hs.
  rewrite (scan_braces_unclosed after 0 Hu).
  rewrite removelast_firstn_len, Nat.sub_1_r. reflexivity.
Qed.

Lemma read_function_body_unclosed_witness :
  read_function_body (T "f") (Some (T "void f(int a) { if (a) { a = 1; } b"))
  = Some (strip (removelast (T " if (a) { a = 1; } b"))).
Proof.
  apply (read_function_body_unclosed (T "f")
           (T "void f(int a) { if (a) { a = 1; } b") []
           (T "void f(int a) {") (T " if (a) { a = 1; } b") []).
  - vm_compute. reflexivity.
  - reflexivity.
Defined.

(** ** The lines of the generated program *)

Lemma chunk_lines_length (fuel : nat) :
  forall arr_data,
    length arr_data <= fuel ->
    length (chunk_lines fuel arr_data) = (length arr_data + 9) / 10.
Proof.
  induction fuel as [|fuel IH]; intros arr_data Hf.
  - destruct arr_data; [reflexivity|simpl in Hf; lia].
  - cbn [chunk_lines]. destruct arr_data as [|x rest]; [reflexivity|].
    remember (x :: rest) as data eqn:Ed.
    assert (Hn : 1 <= length data) by (subst data; simpl; lia).
    cbn [length]. rewrite IH by (rewrite length_skipn; lia).
    rewrite length_skipn. set (n := length data) in *.
    destruct (Nat.le_gt_cases 10 n) as [Hge|Hlt].
    + replace (n + 9) with ((n - 10 + 9) + 1 * 10) by lia.
      rewrite Nat.div_add by lia. lia.
    + replace (n - 10 + 9) with 9 by lia.
      change (9 / 10) with 0.
      apply (Nat.div_unique (n + 9) 10 1 (n - 1)); lia.
Qed.

(** The declaration of an input array takes one opening line, one line for
    every ten values or part of ten, and one closing line. *)
Theorem array_declaration_lines (param_name : text) (arr_data : list float) :
  length (array_declaration param_name arr_data)
  = 2 + (length arr_data + 9) / 10.
Proof.
  unfold array_declaration. cbn [length].
  rewrite length_app, chunk_lines_length by lia. simpl. lia.
Qed.

Lemma call_args_count (params : list (text * text)) :
  forall int_args,
    length (call_args params int_args)
    = length (filter (fun p => is_pointer (fst p)) params)
      + Nat.min (length (filter (fun p => negb (is_pointer (fst p))) params))
                (length int_args).
Proof.
  induction params as [|[t n] params IH]; intros int_args; [reflexivity|].
  cbn [call_args filter fst]. destruct (is_pointer t); cbn [negb length].
  - rewrite IH. reflexivity.
  - destruct int_args as [|v more]; cbn [length].
    + rewrite IH. simpl. rewrite !Nat.min_0_r. reflexivity.
    + rewrite IH. rewrite <- Nat.succ_min_distr. lia.
Qed.

Lemma filter_split_length (A : Type) (p : A -> bool) (l : list A) :
  length (filter p l) + length (filter (fun x => negb (p x)) l) = length l.
Proof.
  induction l as [|x l IH]; [reflexivity|].
  simpl. destruct (p x); simpl; lia.
Qed.

(** The call has one argument for every pointer parameter and one for every
    scalar parameter that an integer is left for: with as many integers as
    [main] demands, one argument for every parameter; with fewer, the last
    scalar parameters get no argument at all. *)
Theorem call_args_length (func_sig : FunctionSignature) (int_args : list Z) :
  length (call_args (fs_params func_sig) int_args)
  = length (fs_params func_sig)
    - (expected_int_count func_sig - length int_args).
Proof.
  rewrite call_args_count. unfold expected_int_count.
  pose proof (filter_split_length _ (fun p => is_pointer (fst p))
                (fs_params func_sig)) as H.
  lia.
Qed.

(** ** Patterns without a word-boundary test *)

Lemma star_prev_blind (R : Type) (q : ascii -> bool) (s : text) :
  forall p p' caps (k k' : option ascii -> text -> captures -> option R),
    (forall a a' t c, k a t c = k' a' t c) ->
    star q p s caps k = star q p' s caps k'.
Proof.
  induction s as [|x s IH]; intros p p' caps k k' Hk; cbn [star].
  - apply Hk.
  - destruct (q x); [|apply Hk].
    rewrite (IH (Some x) (Some x) caps k k' Hk), (Hk p p'). reflexivity.
Qed.

Lemma rmatch_prev_blind (r : regex) :
  prev_blind r = true ->
  forall (R : Type) p p' s caps
         (k k' : option ascii -> text -> captures -> option R),
    (forall a a' t c, k a t c = k' a' t c) ->
    rmatch r R p s caps k = rmatch r R p' s caps k'.
Proof.
  induction r as [ |c|q|r1 IH1 r2 IH2|r1 IH1 r2 IH2|q|q|n r IH| |r IH|r IH];
    intros Hb R p p' s caps k k' Hk; cbn [prev_blind] in Hb;
    cbn [rmatch].
  - apply Hk.
  - destruct s as [|x s]; [reflexivity|].
    destruct (Ascii.eqb x c); [apply Hk|reflexivity].
  - destruct s as [|x s]; [reflexivity|].
    destruct (q x); [apply Hk|reflexivity].
  - apply andb_true_iff in Hb. destruct Hb as [H1 H2].
    apply (IH1 H1). intros a a' t c. apply (IH2 H2). exact Hk.
  - apply andb_true_iff in Hb. destruct Hb as [H1 H2].
    rewrite (IH1 H1 R p p' s caps k k' Hk), (IH2 H2 R p p' s caps k k' Hk).
    reflexivity.
  - apply star_prev_blind. exact Hk.
  - destruct s as [|x s]; [reflexivity|].
    destruct (q x); [|reflexivity]. apply star_prev_blind. exact Hk.
  - apply (IH Hb). intros a a' t c. apply Hk.
  - discriminate.
  - rewrite (IH Hb unit p p' s caps (fun _ _ _ => Some tt)
               (fun _ _ _ => Some tt)) by reflexivity.
    rewrite (Hk p p'). reflexivity.
  - rewrite (IH Hb unit p p' s caps (fun _ _ _ => Some tt)
               (fun _ _ _ => Some tt)) by reflexivity.
    rewrite (Hk p p'). reflexivity.
Qed.

Lemma match_at_prev_blind (r : regex) :
  prev_blind r = true ->
  forall p p' s, match_at r p s = match_at r p' s.
Proof.
  intros Hb p p' s. unfold match_at. apply (rmatch_prev_blind r Hb).
  reflexivity.
Qed.

Lemma re_sub_nil (r : regex) (f : text -> captures -> text) :
  match_at r None [] = None -> re_sub r f [] = [].
Proof. intros H. unfold re_sub, re_sub_st. cbn [sub_loop]. rewrite H. reflexivity. Qed.

(** [re.sub] at a match: the replacement, then the substitution in what
    follows the match. *)
Lemma re_sub_match (r : regex) (f : text -> captures -> text)
      (m rest : text) (caps : captures) :
  prev_blind r = true ->
  m <> [] ->
  match_at r None (m ++ rest) = Some (rest, caps) ->
  re_sub r f (m ++ rest) = f m caps ++ re_sub r f rest.
Proof.
  intros Hb Hne Hm. unfold re_sub, re_sub_st.
  rewrite (sub_loop_match r _ (match_at_prev_blind r Hb) m rest caps None tt
             Hne Hm).
  destruct (sub_loop r _ None rest 0 tt) as [out st]. reflexivity.
Qed.

(** [re.sub] where nothing matches: the character is copied. *)
Lemma re_sub_copy (r : regex) (f : text -> captures -> text)
      (c : ascii) (s : text) :
  prev_blind r = true ->
  match_at r None (c :: s) = None ->
  re_sub r f (c :: s) = c :: re_sub r f s.
Proof.
  intros Hb Hm. unfold re_sub, re_sub_st.
  rewrite (sub_loop_copy r _ (match_at_prev_blind r Hb) c s None tt Hm).
  destruct (sub_loop r _ None s 0 tt) as [out st]. reflexivity.
Qed.

(** A greedy repetition gives back characters until the rest of the pattern
    matches. *)
Lemma star_backtrack (R : Type) (p : ascii -> bool) (w : text) :
  forall prev s' caps (k : option ascii -> text -> captures -> option R) r,
    forallb p w = true ->
    star p (prev_after w prev) s' caps k = Some r ->
    star p prev (w ++ s') caps k = Some r.
Proof.
  induction w as [|x w IH]; intros prev s' caps k r Hw Hs; [exact Hs|].
  simpl in Hw. apply andb_true_iff in Hw. destruct Hw as [Hx Hw].
  cbn [app star]. rewrite Hx.
  rewrite (IH (Some x) s' caps k r Hw Hs). reflexivity.
Qed.

Lemma rmatch_RChar (c : ascii) (R : Type) prev s caps
      (k : option ascii -> text -> captures -> option R) :
  rmatch (RChar c) R prev (c :: s) caps k = k (Some c) s caps.
Proof. cbn [rmatch]. rewrite Ascii.eqb_refl. reflexivity. Qed.

(** ** Zero initialisation of the arrays of the inlined body *)

Lemma match_vla_decl (name size rest : text) (prev : option ascii) :
  identifier name = true ->
  size <> [] -> forallb (not_char "]") size = true ->
  match_at vla_decl_pattern prev (vla_declaration name size ++ rest)
  = Some (rest, [(1, T "float " ++ name ++ T "[" ++ size ++ T "]")]).
Proof.
  intros Hn Hsne Hs. apply identifier_inv in Hn. destruct Hn as [Hne Hw].
  unfold match_at, vla_decl_pattern, vla_declaration. cbn [RCat].
  rewrite rmatch_RSeq, rmatch_RGroup.
  rewrite rmatch_RSeq, rmatch_RLit, <- !app_assoc, strip_prefix_app.
  rewrite rmatch_RSeq.
  apply plus_complete; [exact Hne|exact Hw|reflexivity|].
  rewrite rmatch_RSeq.
  change (T "[" ++ size ++ T "];" ++ rest)
    with ("["%char :: size ++ T "];" ++ rest).
  rewrite rmatch_RChar, rmatch_RSeq.
  apply plus_complete; [exact Hsne|exact Hs|reflexivity|].
  change (T "];" ++ rest) with ("]"%char :: ";"%char :: rest).
  rewrite !rmatch_RChar.
  do 2 f_equal. f_equal. f_equal.
  replace (T "float " ++ name ++ "["%char :: size ++ "]"%char :: ";"%char :: rest)
    with ((T "float " ++ name ++ T "[" ++ size ++ T "]") ++ ";"%char :: rest)
    by (rewrite <- !app_assoc; reflexivity).
  apply firstn_app_exact.
Qed.

(** A declaration [float name[size];] at the head of the body gets the
    initialiser [= {0}], and what follows it is treated on its own. *)
Theorem zero_initialise_declaration (name size rest : text) :
  identifier name = true ->
  size <> [] -> forallb (not_char "]") size = true ->
  zero_initialise (vla_declaration name size ++ rest)
  = T "float " ++ name ++ T "[" ++ size ++ T "] = {0};"
      ++ zero_initialise rest.
Proof.
  intros Hn Hsne Hs. unfold zero_initialise.
  rewrite (re_sub_match vla_decl_pattern _ (vla_declaration name size) rest
             [(1, T "float " ++ name ++ T "[" ++ size ++ T "]")] eq_refl).
  - cbn [group Nat.eqb]. rewrite <- !app_assoc. reflexivity.
  - unfold vla_declaration. discriminate.
  - apply match_vla_decl; assumption.
Qed.

Lemma zero_initialise_declaration_witness :
  zero_initialise (vla_declaration (T "tmp") (T "N * 4") ++ T " tmp[0] = 1;")
  = T "float " ++ T "tmp" ++ T "[" ++ T "N * 4" ++ T "] = {0};"
      ++ zero_initialise (T " tmp[0] = 1;").
Proof.
  apply (zero_initialise_declaration (T "tmp") (T "N * 4") (T " tmp[0] = 1;")).
  - reflexivity.
  - discriminate.
  - reflexivity.
Defined.

(** ** The rules of the expression simplifier *)

Lemma strip_trail (s trail : text) :
  trimmed s = true -> forallb is_space trail = true ->
  strip (s ++ trail) = s.
Proof.
  intros Ht Hl. pose proof (trimmed_inv s Ht) as (c & s' & d & r & Es & Er & Hc & Hd).
  unfold strip.
  assert (E1 : lstrip (s ++ trail) = s ++ trail).
  { rewrite Es. cbn [app lstrip]. rewrite Hc. reflexivity. }
  rewrite E1. unfold rstrip. rewrite rev_app_distr.
  rewrite (lstrip_lead (rev trail) (rev s) (forallb_rev _ _ Hl)).
  rewrite Er. cbn [lstrip]. rewrite Hd. rewrite <- Er. apply rev_involutive.
Qed.

Lemma identifier_trimmed (x : text) : identifier x = true -> trimmed x = true.
Proof.
  intros H. apply identifier_inv in H. destruct H as [Hne Hw].
  apply no_space_trimmed; [exact Hne|apply word_no_space; exact Hw].
Qed.

Lemma word_plain (cs : text) :
  (forall c, among cs c = true -> is_word c = false) ->
  forall x, forallb is_word x = true -> free_of cs x = true.
Proof.
  intros H x. unfold free_of. apply forallb_impl. intros c Hc.
  destruct (among cs c) eqn:E; [|reflexivity].
  apply H in E. congruence.
Qed.

Lemma among_not_word (cs : text) :
  forallb (fun c => negb (is_word c)) cs = true ->
  forall c, among cs c = true -> is_word c = false.
Proof.
  intros H c Hc. unfold among in Hc. apply existsb_exists in Hc.
  destruct Hc as (x & Hx & E). apply Ascii.eqb_eq in E. subst x.
  rewrite forallb_forall in H. apply negb_true_iff, H, Hx.
Qed.

Lemma free_of_app (cs a b : text) :
  free_of cs (a ++ b) = free_of cs a && free_of cs b.
Proof. unfold free_of. apply forallb_app. Qed.

(** What follows group 1 in the pattern of a parenthesised zero, tried by
    the greedy group from the operator on: the longer attempts fail, the
    one at the operator succeeds. *)
Lemma paren_zero_tail (op : ascii) (R : Type)
      (k : option ascii -> text -> captures -> option R)
      (G : text -> captures -> captures) (caps : captures) (rest : text)
      (prev : option ascii) :
  op = "-"%char \/ op = "+"%char ->
  star (not_char ")") prev (op :: T " (0))" ++ rest) caps
       (fun prev' s' caps' =>
          rmatch (RCat [RStar is_space; RChar op; RStar is_space;
                        RLit (T "(0))")]) R prev' s' (G s' caps') k)
  = k (Some ")"%char) rest (G (op :: T " (0))" ++ rest) caps).
Proof.
  intros [-> | ->]; simpl;
    destruct (k (Some ")"%char) rest _); reflexivity.
Qed.

Lemma match_paren_zero (op : ascii) (x rest : text) (prev : option ascii) :
  op = "-"%char \/ op = "+"%char ->
  x <> [] -> forallb (not_char ")") x = true ->
  match_at (paren_zero_pattern op) prev
    ("("%char :: x ++ " "%char :: op :: T " (0))" ++ rest)
  = Some (rest, [(1, x ++ T " ")]).
Proof.
  intros Hop Hne Hx. unfold match_at, paren_zero_pattern.
  change (RCat [RChar "("; RGroup 1 (RPlus (not_char ")")); RStar is_space;
                RChar op; RStar is_space; RLit (T "(0))")])
    with (RSeq (RChar "(")
            (RSeq (RGroup 1 (RPlus (not_char ")")))
               (RCat [RStar is_space; RChar op; RStar is_space;
                      RLit (T "(0))")]))).
  rewrite rmatch_RSeq, rmatch_RChar, rmatch_RSeq, rmatch_RGroup.
  destruct x as [|a x]; [congruence|].
  simpl in Hx. apply andb_true_iff in Hx. destruct Hx as [Ha Hx].
  cbn [app]. cbn [rmatch]. rewrite Ha.
  change (x ++ " "%char :: op :: T " (0))" ++ rest)
    with (x ++ T " " ++ op :: T " (0))" ++ rest).
  rewrite app_assoc.
  apply star_backtrack.
  { rewrite forallb_app, Hx. reflexivity. }
  etransitivity.
  { exact (paren_zero_tail op (text * captures)
             (fun _ s3 caps3 => Some (s3, caps3))
             (fun s' caps' =>
                (1, firstn (length (a :: (x ++ T " ") ++ op :: T " (0))" ++ rest)
                            - length s')
                      (a :: (x ++ T " ") ++ op :: T " (0))" ++ rest)) :: caps')
             [] rest _ Hop). }
  cbv beta. do 4 f_equal.
  change (a :: (x ++ T " ") ++ op :: T " (0))" ++ rest)
    with ((a :: x ++ T " ") ++ op :: T " (0))" ++ rest).
  apply firstn_app_exact.
Qed.

Lemma match_product (x y rest : text) (prev : option ascii) :
  identifier x = true -> identifier y = true ->
  match_at product_pattern prev
    ("("%char :: x ++ T ") * (" ++ y ++ ")"%char :: rest)
  = Some (rest, [(2, y); (1, x)]).
Proof.
  intros Hx Hy.
  apply identifier_inv in Hx. destruct Hx as [Hxne Hxw].
  apply identifier_inv in Hy. destruct Hy as [Hyne Hyw].
  unfold match_at, product_pattern. cbn [RCat].
  rewrite rmatch_RSeq, rmatch_RChar, rmatch_RSeq.
  apply group_plus_complete; [exact Hxne|exact Hxw|reflexivity|].
  change (T ") * (" ++ y ++ ")"%char :: rest)
    with (")"%char :: T " " ++ "*"%char :: T " " ++ "("%char :: y
            ++ ")"%char :: rest).
  rewrite rmatch_RSeq, rmatch_RChar, rmatch_RSeq.
  change (rmatch (RStar is_space)) with (fun R => @star R is_space).
  cbv beta.
  apply star_greedy; [reflexivity| |reflexivity].
  rewrite rmatch_RSeq, rmatch_RChar, rmatch_RSeq.
  change (rmatch (RStar is_space)) with (fun R => @star R is_space).
  cbv beta.
  apply star_greedy; [reflexivity| |reflexivity].
  rewrite rmatch_RSeq, rmatch_RChar, rmatch_RSeq.
  apply group_plus_complete; [exact Hyne|exact Hyw|reflexivity|].
  rewrite rmatch_RChar. reflexivity.
Qed.

(** The first rule of the simplifier: [(X - (0))] gives [X], for a name
    [X]. *)
Theorem simplify_minus_zero (x : text) :
  identifier x = true ->
  simplify_expression (T "(" ++ x ++ T " - (0))") = x.
Proof.
  intros Hx. pose proof (identifier_inv _ Hx) as [Hne Hw].
  unfold simplify_expression.
  assert (E1 : re_sub (paren_zero_pattern "-") group1
                 (T "(" ++ x ++ T " - (0))") = x ++ T " ").
  { change (T "(" ++ x ++ T " - (0))")
      with ("("%char :: x ++ " "%char :: "-"%char :: T " (0))" ++ []).
    rewrite <- (app_nil_r ("("%char :: x ++ _)).
    rewrite (re_sub_match (paren_zero_pattern "-") group1 _ []
               [(1, x ++ T " ")] eq_refl).
    - rewrite re_sub_nil by reflexivity. apply app_nil_r.
    - discriminate.
    - rewrite app_nil_r. apply match_paren_zero; [left; reflexivity|exact Hne|].
      revert Hw. apply forallb_impl.
      intros c. destruct c as [[] [] [] [] [] [] [] []]; vm_compute; congruence. }
  rewrite E1.
  assert (Hf : free_of (T "(") (x ++ T " ") = true).
  { rewrite free_of_app, (word_plain (T "(") (among_not_word (T "(") eq_refl) x Hw).
    reflexivity. }
  rewrite (re_sub_frame (T "(") (paren_zero_pattern "+") _ _ eq_refl Hf).
  rewrite (re_sub_frame (T "(") zero_pattern _ _ eq_refl Hf).
  rewrite (re_sub_frame (T "(") product_pattern _ _ eq_refl Hf).
  apply strip_trail; [apply identifier_trimmed; exact Hx|reflexivity].
Qed.

Lemma simplify_minus_zero_witness :
  simplify_expression (T "(" ++ T "n0" ++ T " - (0))") = T "n0".
Proof. apply (simplify_minus_zero (T "n0")). reflexivity. Defined.

(** The second rule: [(X + (0))] gives [X], for a name [X]. *)
Theorem simplify_plus_zero (x : text) :
  identifier x = true ->
  simplify_expression (T "(" ++ x ++ T " + (0))") = x.
Proof.
  intros Hx. pose proof (identifier_inv _ Hx) as [Hne Hw].
  unfold simplify_expression.
  assert (Hm : free_of (T "-") (T "(" ++ x ++ T " + (0))") = true).
  { rewrite !free_of_app,
      (word_plain (T "-") (among_not_word (T "-") eq_refl) x Hw).
    reflexivity. }
  rewrite (re_sub_frame (T "-") (paren_zero_pattern "-") _ _ eq_refl Hm).
  assert (E1 : re_sub (paren_zero_pattern "+") group1
                 (T "(" ++ x ++ T " + (0))") = x ++ T " ").
  { change (T "(" ++ x ++ T " + (0))")
      with ("("%char :: x ++ " "%char :: "+"%char :: T " (0))" ++ []).
    rewrite <- (app_nil_r ("("%char :: x ++ _)).
    rewrite (re_sub_match (paren_zero_pattern "+") group1 _ []
               [(1, x ++ T " ")] eq_refl).
    - rewrite re_sub_nil by reflexivity. apply app_nil_r.
    - discriminate.
    - rewrite app_nil_r.
      apply match_paren_zero; [right; reflexivity|exact Hne|].
      revert Hw. apply forallb_impl.
      intros c. destruct c as [[] [] [] [] [] [] [] []]; vm_compute; congruence. }
  rewrite E1.
  assert (Hf : free_of (T "(") (x ++ T " ") = true).
  { rewrite free_of_app, (word_plain (T "(") (among_not_word (T "(") eq_refl) x Hw).
    reflexivity. }
  rewrite (re_sub_frame (T "(") zero_pattern _ _ eq_refl Hf).
  rewrite (re_sub_frame (T "(") product_pattern _ _ eq_refl Hf).
  apply strip_trail; [apply identifier_trimmed; exact Hx|reflexivity].
Qed.

Lemma simplify_plus_zero_witness :
  simplify_expression (T "(" ++ T "n0" ++ T " + (0))") = T "n0".
Proof. apply (simplify_plus_zero (T "n0")). reflexivity. Defined.

(** The third rule: [(X) * (Y)] gives [X * Y], for names [X] and [Y]
    without the digit zero. *)
Theorem simplify_product (x y : text) :
  identifier x = true -> identifier y = true ->
  free_of (T "0") x = true -> free_of (T "0") y = true ->
  simplify_expression (T "(" ++ x ++ T ") * (" ++ y ++ T ")")
  = x ++ T " * " ++ y.
Proof.
  intros Hx Hy Zx Zy.
  pose proof (identifier_inv _ Hx) as [Hxne Hxw].
  pose proof (identifier_inv _ Hy) as [Hyne Hyw].
  unfold simplify_expression.
  set (e := T "(" ++ x ++ T ") * (" ++ y ++ T ")").
  assert (Hm : free_of (T "-") e = true).
  { unfold e. rewrite !free_of_app,
      (word_plain (T "-") (among_not_word (T "-") eq_refl) x Hxw),
      (word_plain (T "-") (among_not_word (T "-") eq_refl) y Hyw).
    reflexivity. }
  assert (Hp : free_of (T "+") e = true).
  { unfold e. rewrite !free_of_app,
      (word_plain (T "+") (among_not_word (T "+") eq_refl) x Hxw),
      (word_plain (T "+") (among_not_word (T "+") eq_refl) y Hyw).
    reflexivity. }
  assert (Hz : free_of (T "0") e = true).
  { unfold e. rewrite !free_of_app, Zx, Zy. reflexivity. }
  rewrite (re_sub_frame (T "-") (paren_zero_pattern "-") _ _ eq_refl Hm).
  rewrite (re_sub_frame (T "+") (paren_zero_pattern "+") _ _ eq_refl Hp).
  rewrite (re_sub_frame (T "0") zero_pattern _ _ eq_refl Hz).
  assert (E : re_sub product_pattern group1_times_group2 e
              = x ++ T " * " ++ y).
  { unfold e.
    change (T "(" ++ x ++ T ") * (" ++ y ++ T ")")
      with ("("%char :: x ++ T ") * (" ++ y ++ ")"%char :: []).
    rewrite <- (app_nil_r ("("%char :: x ++ _)).
    rewrite (re_sub_match product_pattern group1_times_group2 _ []
               [(2, y); (1, x)] eq_refl).
    - rewrite re_sub_nil by reflexivity. apply app_nil_r.
    - discriminate.
    - rewrite app_nil_r. apply match_product; assumption. }
  rewrite E.
  pose proof (strip_trimmed [] (x ++ T " * " ++ y) eq_refl) as Hs.
  cbn [app] in Hs. apply Hs.
  pose proof (trimmed_inv _ (identifier_trimmed _ Hx))
    as (c & x' & _ & _ & Ex & _ & Hc & _).
  pose proof (trimmed_inv _ (identifier_trimmed _ Hy))
    as (_ & _ & d & r & _ & Er & _ & Hd).
  unfold trimmed. rewrite Ex. cbn [app].
  change (c :: x' ++ T " * " ++ y) with ((c :: x') ++ T " * " ++ y).
  rewrite !rev_app_distr, Er. cbn [app]. rewrite Hc, Hd. reflexivity.
Qed.

Lemma simplify_product_witness :
  simplify_expression (T "(" ++ T "N" ++ T ") * (" ++ T "M" ++ T ")")
  = T "N" ++ T " * " ++ T "M".
Proof.
  apply (simplify_product (T "N") (T "M")); reflexivity.
Defined.

(** With the digit zero for a name the third rule does not apply: the rule
    for [(0)] comes first and takes the parentheses the product needs. *)
Lemma simplify_product_zero :
  simplify_expression (T "(0) * (M)") = T "0 * (M)".
Proof. vm_compute. reflexivity. Qed.

(** ** Substitution of parameter values: whole words only *)

Section SubLoopGen.
Variable St : Type.
Variable r : regex.
Variable f : St -> text -> captures -> text * St.

Lemma sub_loop_skip_gen (m : text) :
  forall p rest st,
    sub_loop r f p (m ++ rest) (length m) st
    = sub_loop r f (prev_after m p) rest 0 st.
Proof.
  induction m as [|c m IH]; intros p rest st; [reflexivity|].
  cbn [app length sub_loop]. rewrite IH. reflexivity.
Qed.

Lemma sub_loop_match_gen (m rest : text) (caps : captures) :
  forall p st,
    m <> [] ->
    match_at r p (m ++ rest) = Some (rest, caps) ->
    sub_loop r f p (m ++ rest) 0 st
    = (let '(rep, st1) := f st m caps in
       let '(out, st2) := sub_loop r f (prev_after m p) rest 0 st1 in
       (rep ++ out, st2)).
Proof.
  intros p st Hne Hm. destruct m as [|c m]; [congruence|].
  cbn [app] in *. cbn [sub_loop]. rewrite Hm.
  assert (E : length (c :: m ++ rest) - length rest = S (length m))
    by (cbn [length]; rewrite length_app; lia).
  rewrite E.
  replace (firstn (S (length m)) (c :: m ++ rest)) with (c :: m).
  2:{ cbn [firstn]. f_equal. rewrite firstn_app, Nat.sub_diag, firstn_all.
      cbn [firstn]. rewrite app_nil_r. reflexivity. }
  destruct (f st (c :: m) caps) as [rep st1].
  rewrite (sub_loop_skip_gen m (Some c) rest st1). reflexivity.
Qed.

Lemma sub_loop_copy_gen (c : ascii) (s : text) :
  forall p st,
    match_at r p (c :: s) = None ->
    sub_loop r f p (c :: s) 0 st
    = (let '(out, st1) := sub_loop r f (Some c) s 0 st in (c :: out, st1)).
Proof. intros p st Hm. cbn [sub_loop]. rewrite Hm. reflexivity. Qed.
End SubLoopGen.

Lemma span_unique_stops (p : ascii -> bool) (x : text) :
  forall y t t',
    forallb p x = true -> forallb p y = true ->
    stops p t -> stops p t' ->
    x ++ t = y ++ t' -> x = y.
Proof.
  induction x as [|c x IH]; intros y t t' Hx Hy Ht Ht' E.
  - destruct y as [|d y]; [reflexivity|].
    cbn [app] in E. subst t. simpl in Ht, Hy.
    apply andb_true_iff in Hy. destruct Hy as [Hd _]. congruence.
  - destruct y as [|d y].
    + cbn [app] in E. subst t'. simpl in Ht', Hx.
      apply andb_true_iff in Hx. destruct Hx as [Hc _]. congruence.
    + cbn [app] in E. injection E as -> E. simpl in Hx, Hy.
      apply andb_true_iff in Hx. destruct Hx as [_ Hx].
      apply andb_true_iff in Hy. destruct Hy as [_ Hy].
      f_equal. exact (IH y t t' Hx Hy Ht Ht' E).
Qed.

Lemma word_span (s : text) :
  exists w rest,
    s = w ++ rest /\ forallb is_word w = true /\ stops is_word rest.
Proof.
  induction s as [|c s (w & rest & -> & Hw & Hr)].
  - exists [], []. split; [reflexivity|]. split; [reflexivity|exact I].
  - destruct (is_word c) eqn:Ec.
    + exists (c :: w), rest. split; [reflexivity|].
      split; [simpl; rewrite Ec, Hw; reflexivity|exact Hr].
    + exists [], (c :: w ++ rest). split; [reflexivity|].
      split; [reflexivity|exact Ec].
Qed.

Lemma runs_stop (rest : text) :
  stops is_word rest ->
  match runs rest with
  | (d :: _) :: _ => is_word d = false
  | _ => True
  end.
Proof.
  destruct rest as [|d rest]; [exact (fun _ => I)|].
  cbn [stops runs]. intros Hd. rewrite Hd. exact Hd.
Qed.

Lemma runs_word_run (w rest : text) :
  w <> [] -> forallb is_word w = true -> stops is_word rest ->
  runs (w ++ rest) = w :: runs rest.
Proof.
  intros Hne Hw Hr. induction w as [|c w IH]; [congruence|].
  simpl in Hw. apply andb_true_iff in Hw. destruct Hw as [Hc Hw].
  cbn [app runs]. rewrite Hc.
  destruct w as [|c2 w].
  - cbn [app]. pose proof (runs_stop rest Hr) as Hs.
    destruct (runs rest) as [|[|d u] l]; try reflexivity.
    rewrite Hs. reflexivity.
  - rewrite (IH ltac:(discriminate) Hw).
    simpl in Hw. apply andb_true_iff in Hw. destruct Hw as [Hc2 _].
    rewrite Hc2. reflexivity.
Qed.

Lemma runs_concat (s : text) : concat (runs s) = s.
Proof.
  induction s as [|c s IH]; [reflexivity|].
  cbn [runs]. destruct (is_word c).
  - destruct (runs s) as [|[|d w] l].
    + cbn [concat app] in *. rewrite <- IH. reflexivity.
    + cbn [concat app] in *. rewrite <- IH. reflexivity.
    + destruct (is_word d); cbn [concat app] in *; rewrite <- IH;
        reflexivity.
  - cbn [concat app]. rewrite IH. reflexivity.
Qed.

Lemma prev_after_word (n : text) :
  forall prev,
    n <> [] -> forallb is_word n = true ->
    is_word_opt (prev_after n prev) = true.
Proof.
  unfold prev_after.
  induction n as [|a n IH]; intros prev Hne Hw; [congruence|].
  simpl in Hw. apply andb_true_iff in Hw. destruct Hw as [Ha Hw].
  cbn [fold_left]. destruct n as [|b n]; [exact Ha|].
  apply IH; [discriminate|exact Hw].
Qed.

Lemma stops_hd (s : text) :
  stops is_word s -> is_word_opt (hd_error s) = false.
Proof. destruct s; [reflexivity|exact (fun H => H)]. Qed.

Section Word.
Variable n v : text.
Hypothesis name_ok : identifier n = true.

Lemma rmatch_word_pattern (prev : option ascii) (s : text) :
  match_at (word_boundaries n) prev s
  = if at_boundary prev s then
      match strip_prefix n s with
      | Some t =>
          if at_boundary (prev_after n prev) t then Some (t, []) else None
      | None => None
      end
    else None.
Proof.
  unfold match_at, word_boundaries. cbn [RCat].
  change (rmatch (RSeq RWordB (RSeq (RLit n) RWordB)) (text * captures) prev
            s [] (fun _ s' caps => Some (s', caps)))
    with (if at_boundary prev s
          then rmatch (RSeq (RLit n) RWordB) (text * captures) prev s []
                 (fun _ s' caps => Some (s', caps))
          else None).
  destruct (at_boundary prev s); [|reflexivity].
  rewrite rmatch_RSeq, rmatch_RLit.
  destruct (strip_prefix n s); reflexivity.
Qed.

Lemma match_word_inside (pc c : ascii) (s : text) :
  is_word pc = true -> is_word c = true ->
  match_at (word_boundaries n) (Some pc) (c :: s) = None.
Proof.
  intros Hp Hc. rewrite rmatch_word_pattern. unfold at_boundary.
  cbn [is_word_opt hd_error]. rewrite Hp, Hc. reflexivity.
Qed.

Lemma match_word_gap (prev : option ascii) (s : text) :
  stops is_word s -> match_at (word_boundaries n) prev s = None.
Proof.
  intros Hs. rewrite rmatch_word_pattern.
  destruct (at_boundary prev s); [|reflexivity].
  destruct (strip_prefix n s) as [t|] eqn:E; [|reflexivity].
  exfalso. apply strip_prefix_inv in E. subst s.
  apply identifier_inv in name_ok. destruct name_ok as [Hne Hw].
  destruct n as [|a n']; [congruence|].
  simpl in Hw. apply andb_true_iff in Hw. destruct Hw as [Ha _].
  simpl in Hs. congruence.
Qed.

Lemma match_word_hit (prev : option ascii) (rest : text) :
  is_word_opt prev = false -> stops is_word rest ->
  match_at (word_boundaries n) prev (n ++ rest) = Some (rest, []).
Proof.
  intros Hp Hr. rewrite rmatch_word_pattern, strip_prefix_app.
  pose proof (identifier_inv _ name_ok) as [Hne Hw].
  unfold at_boundary.
  rewrite (prev_after_word n prev Hne Hw), (stops_hd rest Hr), Hp.
  destruct n as [|a n']; [congruence|].
  simpl in Hw. apply andb_true_iff in Hw. destruct Hw as [Ha _].
  cbn [app hd_error is_word_opt]. rewrite Ha. reflexivity.
Qed.

Lemma match_word_miss (prev : option ascii) (w rest : text) :
  forallb is_word w = true -> stops is_word rest -> w <> n ->
  match_at (word_boundaries n) prev (w ++ rest) = None.
Proof.
  intros Hw Hr Hx. rewrite rmatch_word_pattern.
  destruct (at_boundary prev (w ++ rest)); [|reflexivity].
  destruct (strip_prefix n (w ++ rest)) as [t|] eqn:E; [|reflexivity].
  apply strip_prefix_inv in E.
  pose proof (identifier_inv _ name_ok) as [Hne Hn].
  unfold at_boundary. rewrite (prev_after_word n prev Hne Hn).
  destruct (is_word_opt (hd_error t)) eqn:Et; [reflexivity|].
  exfalso. apply Hx.
  apply (span_unique_stops is_word w n rest t Hw Hn Hr); [|exact E].
  destruct t; [exact I|exact Et].
Qed.

Lemma copy_inside (w2 : text) :
  forall pc rest,
    is_word pc = true -> forallb is_word w2 = true ->
    sub_loop (word_boundaries n) (fun (st : unit) _ _ => (v, st)) (Some pc)
      (w2 ++ rest) 0 tt
    = (w2 ++ fst (sub_loop (word_boundaries n) (fun (st : unit) _ _ => (v, st))
                    (prev_after w2 (Some pc)) rest 0 tt), tt).
Proof.
  induction w2 as [|c w2 IH]; intros pc rest Hp Hw.
  - cbn [app prev_after fold_left].
    destruct (sub_loop _ _ (Some pc) rest 0 tt) as [out []]. reflexivity.
  - simpl in Hw. apply andb_true_iff in Hw. destruct Hw as [Hc Hw].
    cbn [app]. rewrite sub_loop_copy_gen by (apply match_word_inside; assumption).
    rewrite (IH c rest Hc Hw). reflexivity.
Qed.

Lemma sub_loop_replace_word (k : nat) :
  forall s prev,
    length s <= k ->
    (is_word_opt prev = true -> stops is_word s) ->
    sub_loop (word_boundaries n) (fun (st : unit) _ _ => (v, st)) prev s 0 tt
    = (replace_word n v s, tt).
Proof.
  pose proof (identifier_inv _ name_ok) as [Hne Hn].
  induction k as [|k IH]; intros s prev Hk Hinv.
  - destruct s; [|simpl in Hk; lia].
    cbn [sub_loop]. rewrite match_word_gap by exact I. reflexivity.
  - destruct s as [|c s'].
    { cbn [sub_loop]. rewrite match_word_gap by exact I. reflexivity. }
    destruct (is_word c) eqn:Ec.
    + assert (Hp : is_word_opt prev = false).
      { destruct (is_word_opt prev) eqn:E; [|reflexivity].
        specialize (Hinv eq_refl). simpl in Hinv. congruence. }
      destruct (word_span s') as (w' & rest & -> & Hw' & Hr).
      assert (Hw : forallb is_word (c :: w') = true)
        by (simpl; rewrite Ec, Hw'; reflexivity).
      assert (Hlen : length rest <= k).
      { cbn [length] in Hk. rewrite length_app in Hk. lia. }
      unfold replace_word.
      change (c :: w' ++ rest) with ((c :: w') ++ rest).
      rewrite (runs_word_run (c :: w') rest ltac:(discriminate) Hw Hr).
      cbn [map concat].
      destruct (text_eqb (c :: w') n) eqn:En.
      * apply text_eqb_eq in En. rewrite En.
        rewrite (sub_loop_match_gen unit _ _ n rest [] prev tt Hne
                   (match_word_hit prev rest Hp Hr)).
        rewrite IH; [reflexivity|exact Hlen|intros _; exact Hr].
      * assert (Hx : c :: w' <> n).
        { intros E. rewrite E, text_eqb_refl in En. discriminate. }
        cbn [app].
        rewrite sub_loop_copy_gen
          by (exact (match_word_miss prev (c :: w') rest Hw Hr Hx)).
        rewrite (copy_inside w' c rest Ec Hw').
        rewrite IH; [reflexivity|exact Hlen|intros _; exact Hr].
    + rewrite sub_loop_copy_gen by (apply match_word_gap; exact Ec).
      rewrite IH;
        [|cbn [length] in Hk; lia|cbn [is_word_opt]; intros E; congruence].
      unfold replace_word. cbn [runs]. rewrite Ec. cbn [map concat].
      destruct (text_eqb [c] n) eqn:En; [|reflexivity].
      apply text_eqb_eq in En. rewrite <- En in Hn. simpl in Hn.
      rewrite Ec in Hn. discriminate.
Qed.
End Word.

(** The substitution of a value for a parameter name replaces the maximal
    runs of word characters that are the name, and nothing else: a name
    that is part of a longer word stays. *)
Theorem substitute_whole_words (n v s : text) :
  identifier n = true ->
  exists r,
    word_pattern n = Some r
    /\ re_sub r (fun _ _ => v) s = replace_word n v s.
Proof.
  intros Hn. exists (word_boundaries n). split.
  { unfold word_pattern. rewrite Hn. reflexivity. }
  unfold re_sub, re_sub_st.
  change (fun (st : unit) (m : text) (caps : captures) =>
            ((fun (_ : text) (_ : captures) => v) m caps, st))
    with (fun (st : unit) (_ : text) (_ : captures) => (v, st)).
  rewrite (sub_loop_replace_word n v Hn (length s) s None (le_n _));
    [reflexivity|discriminate].
Qed.

Lemma substitute_whole_words_witness :
  exists r,
    word_pattern (T "N") = Some r
    /\ re_sub r (fun _ _ => T "4") (T "N*N2+aN-(N)")
       = replace_word (T "N") (T "4") (T "N*N2+aN-(N)").
Proof.
  apply (substitute_whole_words (T "N") (T "4") (T "N*N2+aN-(N)")).
  reflexivity.
Defined.

(** An identifier other than the parameter name is left as it is by the
    substitution, also when the name is a part of it. *)
Theorem substitute_keeps_other_identifier (n w : text) (z : Z) :
  identifier n = true -> identifier w = true -> w <> n ->
  substitute_params [(n, z)] w = Some w.
Proof.
  intros Hn Hw Hx. unfold substitute_params. cbn [fold_left fst snd].
  unfold word_pattern. rewrite Hn. f_equal.
  unfold re_sub, re_sub_st.
  change (fun (st : unit) (m : text) (caps : captures) =>
            ((fun (_ : text) (_ : captures) => str_of_int z) m caps, st))
    with (fun (st : unit) (_ : text) (_ : captures) => (str_of_int z, st)).
  rewrite (sub_loop_replace_word n (str_of_int z) Hn (length w) w None
             (le_n _)) by discriminate.
  cbn [fst]. unfold replace_word.
  pose proof (identifier_inv _ Hw) as [Hne Hww].
  pose proof (runs_word_run w [] Hne Hww I) as E.
  rewrite app_nil_r in E. rewrite E. cbn [runs map concat].
  rewrite (text_eqb_neq _ _ Hx). apply app_nil_r.
Qed.

Lemma substitute_keeps_other_identifier_witness :
  substitute_params [(T "N", 4%Z)] (T "N2") = Some (T "N2").
Proof.
  apply (substitute_keeps_other_identifier (T "N") (T "N2") 4%Z).
  - reflexivity.
  - reflexivity.
  - discriminate.
Defined.

(** ** Decimal literals *)

Lemma digit_value_char (d : nat) :
  d < 10 -> digit_value (digit_char d) = Z.of_nat d.
Proof.
  intros H. do 10 (destruct d as [|d]; [reflexivity|]). lia.
Qed.

Lemma digits_value (fuel : nat) :
  forall n acc,
    (n < 2 ^ N.of_nat fuel)%N ->
    fold_left (fun a c => 10 * a + digit_value c)%Z
      (digits_of_pos_fuel fuel n acc) 0%Z
    = fold_left (fun a c => 10 * a + digit_value c)%Z acc (Z.of_N n).
Proof.
  induction fuel as [|fuel IH]; intros n acc Hn.
  - cbn [digits_of_pos_fuel]. replace n with 0%N by (simpl in Hn; lia).
    reflexivity.
  - cbn [digits_of_pos_fuel].
    assert (Hd : digit_value (digit_char (N.to_nat (n mod 10)))
                 = Z.of_N (n mod 10)).
    { rewrite digit_value_char by (pose proof (N.mod_lt n 10); lia). lia. }
    destruct (n / 10 =? 0)%N eqn:E.
    + apply N.eqb_eq in E. cbn [fold_left]. rewrite Hd.
      f_equal. pose proof (N.div_mod n 10). lia.
    + apply N.eqb_neq in E. rewrite IH.
      * cbn [fold_left]. rewrite Hd. f_equal.
        pose proof (N.div_mod n 10). lia.
      * rewrite Nat2N.inj_succ, N.pow_succ_r' in Hn.
        apply N.Div0.div_lt_upper_bound. lia.
Qed.

(** [int(str(n)) = n] on the digits. *)
Lemma int_of_digits_str (n : N) : int_of_digits (str_of_N n) = Z.of_N n.
Proof.
  unfold int_of_digits, str_of_N. rewrite digits_value; [reflexivity|].
  destruct n as [|p]; [reflexivity|].
  rewrite Nat2N.inj_succ, N2Nat.id. apply N.log2_spec. lia.
Qed.

Lemma digits_head (fuel : nat) :
  forall n acc,
    (n < 2 ^ N.of_nat fuel)%N -> n <> 0%N ->
    exists c rest,
      digits_of_pos_fuel fuel n acc = c :: rest
      /\ Ascii.eqb c "0" = false /\ is_digit c = true.
Proof.
  induction fuel as [|fuel IH]; intros n acc Hn Hz.
  - simpl in Hn. lia.
  - cbn [digits_of_pos_fuel]. destruct (n / 10 =? 0)%N eqn:E.
    + apply N.eqb_eq in E. eexists _, acc. split; [reflexivity|].
      assert (Hm : (n mod 10 = n)%N) by (pose proof (N.div_mod n 10); lia).
      assert (Hl : (n < 10)%N) by (pose proof (N.mod_lt n 10); lia).
      rewrite Hm. clear - Hl Hz.
      assert (H : exists d, N.to_nat n = S d /\ d < 9).
      { exists (pred (N.to_nat n)). lia. }
      destruct H as (d & -> & Hd).
      do 9 (destruct d as [|d]; [split; reflexivity|]). lia.
    + apply N.eqb_neq in E. apply IH; [|exact E].
      rewrite Nat2N.inj_succ, N.pow_succ_r' in Hn.
      apply N.Div0.div_lt_upper_bound. lia.
Qed.

Lemma str_of_N_head (n : N) :
  exists c rest,
    str_of_N n = c :: rest /\ is_digit c = true
    /\ bad_leading_zero (str_of_N n) = false.
Proof.
  destruct n as [|p].
  - exists "0"%char, []. repeat split.
  - unfold str_of_N.
    destruct (digits_head (S (N.to_nat (N.log2 (N.pos p)))) (N.pos p) [])
      as (c & rest & E & Hc & Hd).
    + rewrite Nat2N.inj_succ, N2Nat.id. apply N.log2_spec. lia.
    + discriminate.
    + exists c, rest. rewrite E. split; [reflexivity|]. split; [exact Hd|].
      unfold bad_leading_zero. destruct rest; [reflexivity|].
      rewrite Hc. reflexivity.
Qed.

Lemma digits_length (fuel : nat) :
  forall n acc,
    length (digits_of_pos_fuel fuel n acc) <= fuel + length acc.
Proof.
  induction fuel as [|fuel IH]; intros n acc; cbn [digits_of_pos_fuel].
  - lia.
  - destruct (n / 10 =? 0)%N.
    + simpl. lia.
    + pose proof (IH (n / 10)%N
                    (digit_char (N.to_nat (n mod 10)) :: acc)) as H.
      simpl in H. lia.
Qed.

Lemma str_of_N_length (n : N) :
  (n < 2 ^ 63)%N -> length (str_of_N n) <= 64.
Proof.
  intros Hn. unfold str_of_N.
  pose proof (digits_length (S (N.to_nat (N.log2 n))) n []) as H.
  cbn [length] in H.
  assert (N.log2 n < 63)%N.
  { destruct n as [|p]; [simpl; lia|].
    apply N.log2_lt_pow2; lia. }
  lia.
Qed.

(** ** The interpreter on an operation between two literals *)

Lemma lex_then_nil (b : lex_result) : lex_then (Lexed []) b = b.
Proof. destruct b; reflexivity. Qed.

Lemma lex_then_assoc (ta : list token) (b c : lex_result) :
  lex_then (Lexed ta) (lex_then b c) = lex_then (lex_then (Lexed ta) b) c.
Proof.
  destruct b as [tb| |]; try reflexivity.
  destruct c as [tc| |]; try reflexivity.
  simpl. rewrite app_assoc. reflexivity.
Qed.

Lemma lex_digits (ds : text) :
  forall acc rest,
    forallb is_digit ds = true ->
    lex_loop (ds ++ rest) (PNum acc) = lex_loop rest (PNum (rev ds ++ acc)).
Proof.
  induction ds as [|d ds IH]; intros acc rest Hd; [reflexivity|].
  simpl in Hd. apply andb_true_iff in Hd. destruct Hd as [H1 H2].
  cbn [app lex_loop]. rewrite H1, (IH (d :: acc) rest H2).
  cbn [rev]. rewrite <- app_assoc. reflexivity.
Qed.

Lemma close_number (n : N) :
  (n < 2 ^ 63)%N ->
  close_pending (PNum (rev (str_of_N n))) = Lexed [TNum (Z.of_N n)].
Proof.
  intros Hn. cbn [close_pending]. rewrite rev_involutive.
  destruct (str_of_N_head n) as (c & rest & _ & _ & Hb). rewrite Hb.
  pose proof (str_of_N_length n Hn) as Hl.
  destruct (4300 <? length (str_of_N n)) eqn:E.
  - apply Nat.ltb_lt in E. lia.
  - rewrite int_of_digits_str. reflexivity.
Qed.

Lemma lex_number (n : N) (rest : text) :
  (n < 2 ^ 63)%N ->
  rest = [] \/ (exists r, rest = " "%char :: r) ->
  lex_loop (str_of_N n ++ rest) PNone
  = lex_then (Lexed [TNum (Z.of_N n)]) (lex_loop rest PNone).
Proof.
  intros Hn Hr.
  destruct (str_of_N_head n) as (c & ds & E & Hc & _).
  pose proof (str_of_N_digits n) as Hd. pose proof (close_number n Hn) as Hcl.
  rewrite E in *. simpl in Hd. apply andb_true_iff in Hd.
  destruct Hd as [_ Hd].
  cbn [app lex_loop]. unfold lex_fresh, start_token. rewrite Hc.
  rewrite lex_then_nil, (lex_digits ds [c] rest Hd).
  cbn [rev] in Hcl.
  destruct Hr as [-> | (r & ->)].
  - cbn [lex_loop]. rewrite Hcl. reflexivity.
  - cbn [lex_loop]. change (is_digit " ") with false.
    change (is_name_start " " || Ascii.eqb " " ".") with false. cbv iota.
    rewrite Hcl. reflexivity.
Qed.

Lemma lex_fresh_space (s : text) :
  lex_fresh " " s (lex_loop s) = lex_loop s PNone.
Proof.
  unfold lex_fresh.
  change (start_token " ") with (Some (@nil token, PNone)).
  cbv iota beta. apply lex_then_nil.
Qed.

Lemma lex_operator (o : binop) (r : text) :
  lex_loop (" "%char :: arith_op_text o ++ " "%char :: r) PNone
  = lex_then (Lexed [TOp o]) (lex_loop r PNone).
Proof.
  cbn [lex_loop]. rewrite lex_fresh_space.
  destruct o; cbn [arith_op_text T list_ascii_of_string app lex_loop];
    unfold lex_fresh at 1.
  - change (start_token "+") with (Some ([TOp Add], PNone)).
    cbv iota beta. rewrite lex_fresh_space. reflexivity.
  - change (start_token "-") with (Some ([TOp Sub], PNone)).
    cbv iota beta. rewrite lex_fresh_space. reflexivity.
  - change (start_token "*") with (Some (@nil token, PStar)).
    cbv iota beta. change (Ascii.eqb " " "*") with false.
    cbv iota. cbn [close_pending].
    rewrite lex_fresh_space, lex_then_nil. reflexivity.
  - change (start_token "/") with (Some (@nil token, PSlash)).
    cbv iota beta. change (Ascii.eqb " " "/") with false.
    cbv iota. cbn [close_pending].
    rewrite lex_fresh_space, lex_then_nil. reflexivity.
  - change (start_token "/") with (Some (@nil token, PSlash)).
    cbv iota beta. change (Ascii.eqb "/" "/") with true.
    cbv iota. cbn [lex_loop].
    rewrite lex_fresh_space, lex_then_nil. reflexivity.
  - change (start_token "%") with (Some ([TOp Mod], PNone)).
    cbv iota beta. rewrite lex_fresh_space. reflexivity.
  - change (start_token "*") with (Some (@nil token, PStar)).
    cbv iota beta. change (Ascii.eqb "*" "*") with true.
    cbv iota. cbn [lex_loop].
    rewrite lex_fresh_space, lex_then_nil. reflexivity.
Qed.

Lemma lex_literal_operation (o : binop) (a b : N) :
  (a < 2 ^ 63)%N -> (b < 2 ^ 63)%N ->
  lex (literal_operation o a b)
  = Lexed [TNum (Z.of_N a); TOp o; TNum (Z.of_N b)].
Proof.
  intros Ha Hb. unfold lex, literal_operation.
  change (T " " ++ arith_op_text o ++ T " " ++ str_of_N b)
    with (" "%char :: arith_op_text o ++ " "%char :: str_of_N b).
  rewrite (lex_number a _ Ha) by (right; eexists; reflexivity).
  rewrite lex_operator.
  rewrite <- (app_nil_r (str_of_N b)).
  rewrite (lex_number b [] Hb) by (left; reflexivity).
  reflexivity.
Qed.

Lemma big_bound : (2 ^ 126 < 10 ^ 4300)%Z.
Proof. apply Z.ltb_lt. vm_compute. reflexivity. Qed.

Lemma arith_value_bound (o : binop) (a b : N) :
  (a < 2 ^ 63)%N -> (b < 2 ^ 63)%N -> foldable o b = true ->
  (Z.abs (arith_value o (Z.of_N a) (Z.of_N b)) < 10 ^ 4300)%Z.
Proof.
  intros Ha Hb Hf. apply Z.lt_trans with (2 ^ 126)%Z; [|exact big_bound].
  assert (Ha' : (0 <= Z.of_N a < 2 ^ 63)%Z).
  { split; [lia|]. change (2 ^ 63)%Z with (Z.of_N (2 ^ 63)). lia. }
  assert (Hb' : (0 <= Z.of_N b < 2 ^ 63)%Z).
  { split; [lia|]. change (2 ^ 63)%Z with (Z.of_N (2 ^ 63)). lia. }
  set (x := Z.of_N a) in *. set (y := Z.of_N b) in *.
  assert (H63 : (2 ^ 63 * 2 ^ 63 = 2 ^ 126)%Z) by reflexivity.
  assert (Hlt : (2 ^ 63 < 2 ^ 126)%Z) by reflexivity.
  destruct o; cbn [arith_value foldable] in *; try discriminate.
  - lia.
  - lia.
  - assert (x * y < 2 ^ 63 * 2 ^ 63)%Z
      by (apply Z.mul_lt_mono_nonneg; lia).
    assert (0 <= x * y)%Z by (apply Z.mul_nonneg_nonneg; lia).
    lia.
  - apply negb_true_iff, N.eqb_neq in Hf.
    assert (Hy : (0 < y)%Z) by (unfold y; lia).
    pose proof (Z.div_pos x y ltac:(lia) Hy).
    assert (x / y <= x)%Z.
    { apply Z.div_le_upper_bound; [exact Hy|]. nia. }
    lia.
  - apply negb_true_iff, N.eqb_neq in Hf.
    assert (Hy : (0 < y)%Z) by (unfold y; lia).
    pose proof (Z.mod_pos_bound x y Hy). lia.
Qed.

Lemma py_eval_literal_operation (o : binop) (a b : N) :
  (a < 2 ^ 63)%N -> (b < 2 ^ 63)%N -> foldable o b = true ->
  py_eval (literal_operation o a b)
  = Val (VInt (arith_value o (Z.of_N a) (Z.of_N b))).
Proof.
  intros Ha Hb Hf. unfold py_eval.
  rewrite (lex_literal_operation o a b Ha Hb).
  pose proof (arith_value_bound o a b Ha Hb Hf) as Hv.
  apply Z.ltb_lt in Hv.
  assert (Hz : (Z.of_N b =? 0)%Z = (b =? 0)%N).
  { destruct (N.eqb_spec b 0) as [->|Hn]; [reflexivity|].
    apply Z.eqb_neq. lia. }
  destruct o; cbn [foldable] in Hf; try discriminate;
    cbn [arith_value] in *;
    unfold parse, parse_fuel; cbn [length Nat.mul Nat.add];
    cbn [parse_sum parse_sum_rest parse_term parse_term_rest parse_factor
         parse_power parse_atom is_sum_op is_term_op eval_expr apply_binop];
    unfold within_limits; cbn [length Nat.leb andb];
    try (rewrite Hz; apply negb_true_iff in Hf; rewrite Hf);
    rewrite Hv; reflexivity.
Qed.

(** ** Folding an array size *)

Section Prefix.
Variable St : Type.
Variable r : regex.
Variable f : St -> text -> captures -> text * St.
Variable c : ascii.
Hypothesis first_char :
  forall prev t, hd_error t <> Some c -> match_at r prev t = None.

Lemma sub_loop_prefix (pre : text) :
  ~ In c pre ->
  forall prev s st,
    s <> [] ->
    sub_loop r f prev (pre ++ s) 0 st
    = (let '(out, st') := sub_loop r f (prev_after pre prev) s 0 st in
       (pre ++ out, st')).
Proof.
  induction pre as [|x pre IH]; intros Hc prev s st Hs.
  - cbn [app prev_after fold_left].
    destruct (sub_loop r f prev s 0 st). reflexivity.
  - cbn [app]. rewrite sub_loop_copy_gen.
    + rewrite IH; [|intros H; apply Hc; right; exact H|exact Hs].
      change (prev_after (x :: pre) prev) with (prev_after pre (Some x)).
      destruct (sub_loop r f (prev_after pre (Some x)) s 0 st).
      reflexivity.
    + apply first_char. cbn [hd_error]. intros H. injection H as ->.
      apply Hc. left. reflexivity.
Qed.
End Prefix.

Lemma match_array_size (e rest : text) (prev : option ascii) :
  e <> [] -> forallb (not_char "]") e = true ->
  match_at array_size_pattern prev ("["%char :: e ++ "]"%char :: rest)
  = Some (rest, [(1, e)]).
Proof.
  intros Hne He. unfold match_at, array_size_pattern. cbn [RCat].
  rewrite rmatch_RSeq, rmatch_RChar, rmatch_RSeq.
  apply group_plus_complete; [exact Hne|exact He|reflexivity|].
  rewrite rmatch_RChar. reflexivity.
Qed.

Lemma free_of_notin (cs s : text) (c : ascii) :
  among cs c = true -> free_of cs s = true -> ~ In c s.
Proof.
  intros Hc Hs Hin. unfold free_of in Hs. rewrite forallb_forall in Hs.
  specialize (Hs c Hin). rewrite Hc in Hs. discriminate.
Qed.

Lemma op_text_plain (o : binop) :
  free_of (T "[]<>") (arith_op_text o) = true.
Proof. destruct o; reflexivity. Qed.

Lemma digit_plain (c : ascii) :
  is_digit c || Ascii.eqb c "-" = true -> negb (among (T "[]<>") c) = true.
Proof.
  destruct c as [[] [] [] [] [] [] [] []]; vm_compute; congruence.
Qed.

Lemma str_of_N_plain (n : N) : free_of (T "[]<>") (str_of_N n) = true.
Proof.
  unfold free_of.
  apply (forallb_impl is_digit); [|apply str_of_N_digits].
  intros c Hc. apply digit_plain. rewrite Hc. reflexivity.
Qed.

Lemma str_of_int_plain (z : Z) : free_of (T "[]<>") (str_of_int z) = true.
Proof.
  unfold free_of.
  exact (forallb_impl _ _ _ digit_plain (str_of_int_chars z)).
Qed.

Lemma literal_operation_plain (o : binop) (a b : N) :
  free_of (T "[]<>") (literal_operation o a b) = true.
Proof.
  unfold literal_operation.
  rewrite !free_of_app, !str_of_N_plain, op_text_plain. reflexivity.
Qed.

Lemma among_sub (cs cs' : text) :
  forallb (among cs) cs' = true ->
  forall c, among cs' c = true -> among cs c = true.
Proof.
  intros H c Hc. unfold among in Hc. apply existsb_exists in Hc.
  destruct Hc as (x & Hx & E). apply Ascii.eqb_eq in E. subst x.
  rewrite forallb_forall in H. apply H, Hx.
Qed.

(** An array size that is an operation between two literals, in code that
    holds no other bracket and no comparison sign after the substitution of
    the parameters, is replaced by its value: the sum, the difference, the
    product, or the floor quotient or remainder by a divisor other than
    zero. *)
Theorem fold_code_literal_operation
        (py : interpreter) (param_values : param_dict)
        (code_text pre post : text) (o : binop) (a b : N) :
  substitute_params param_values code_text
  = Some (pre ++ T "[" ++ literal_operation o a b ++ T "]" ++ post) ->
  free_of (T "[<>") pre = true -> free_of (T "[<>") post = true ->
  (a < 2 ^ 63)%N -> (b < 2 ^ 63)%N -> foldable o b = true ->
  fold_code py param_values code_text
  = Some (pre ++ T "["
            ++ str_of_int (arith_value o (Z.of_N a) (Z.of_N b))
            ++ T "]" ++ post).
Proof.
  intros Hsub Hpre Hpost Ha Hb Hf. unfold fold_code. rewrite Hsub.
  set (e := literal_operation o a b).
  set (z := str_of_int (arith_value o (Z.of_N a) (Z.of_N b))).
  assert (He : free_of (T "[]<>") e = true)
    by apply literal_operation_plain.
  assert (Hne : e <> []).
  { unfold e, literal_operation.
    destruct (str_of_N_head a) as (c & ds & -> & _). discriminate. }
  assert (Hclose : forallb (not_char "]") e = true).
  { revert He. unfold free_of. apply forallb_impl. intros c.
    unfold among, not_char. simpl.
    destruct (Ascii.eqb c "]"); [|reflexivity].
    rewrite !orb_true_r. discriminate. }
  assert (E1 : re_sub_eval array_size_pattern (fold_array_size py)
                 (pre ++ T "[" ++ e ++ T "]" ++ post) 0
               = Some (pre ++ T "[" ++ z ++ T "]" ++ post, 1)).
  { unfold re_sub_eval, re_sub_st.
    rewrite (sub_loop_prefix (option nat) array_size_pattern _ "["
               (fun prev t => match_at_first_char "[" _ prev t) pre
               (free_of_notin (T "[<>") pre "[" eq_refl Hpre) None
               (T "[" ++ e ++ T "]" ++ post) (Some 0) ltac:(discriminate)).
    replace (T "[" ++ e ++ T "]" ++ post)
      with (("["%char :: e ++ T "]") ++ post)
      by (rewrite <- app_comm_cons, <- app_assoc; reflexivity).
    rewrite (sub_loop_match_gen (option nat) array_size_pattern _
               ("["%char :: e ++ T "]") post [(1, e)] _ (Some 0)
               ltac:(discriminate)).
    2:{ rewrite <- app_comm_cons, <- app_assoc.
        apply match_array_size; assumption. }
    unfold ask at 1. unfold fold_array_size at 1, eval_str.
    cbn [group Nat.eqb].
    unfold e at 1. rewrite (py_eval_literal_operation o a b Ha Hb Hf).
    cbn [py_str]. fold z.
    rewrite (sub_loop_frame (option nat) array_size_pattern _ (T "[<>")
               eq_refl post Hpost).
    cbn [option_map]. rewrite <- !app_assoc. reflexivity. }
  rewrite E1.
  assert (Hr : free_of (T "<>") (pre ++ T "[" ++ z ++ T "]" ++ post) = true).
  { rewrite !free_of_app.
    rewrite (free_of_weaken (T "[<>") (T "<>") pre
               (among_sub (T "[<>") (T "<>") eq_refl) Hpre).
    rewrite (free_of_weaken (T "[<>") (T "<>") post
               (among_sub (T "[<>") (T "<>") eq_refl) Hpost).
    rewrite (free_of_weaken (T "[]<>") (T "<>") z
               (among_sub (T "[]<>") (T "<>") eq_refl)
               (str_of_int_plain _)).
    reflexivity. }
  rewrite (re_sub_eval_frame (T "<>") comparison_pattern _ _ _ eq_refl Hr).
  cbn [comparison_passes].
  rewrite (re_sub_eval_frame (T "<>") comparison_pattern _ _ _ eq_refl Hr).
  rewrite text_eqb_refl. reflexivity.
Qed.

Lemma fold_code_literal_operation_witness :
  fold_code (fun _ _ => Silent) [(T "N", 4%Z)]
    (T "float tmp[N * 16]; int N2;")
  = Some (T "float tmp" ++ T "["
            ++ str_of_int (arith_value Mul (Z.of_N 4) (Z.of_N 16))
            ++ T "]" ++ T "; int N2;").
Proof.
  apply (fold_code_literal_operation (fun _ _ => Silent) [(T "N", 4%Z)]
           (T "float tmp[N * 16]; int N2;") (T "float tmp") (T "; int N2;")
           Mul 4 16).
  - vm_compute. reflexivity.
  - reflexivity.
  - reflexivity.
  - reflexivity.
  - reflexivity.
  - reflexivity.
Defined.

(** ** Scalar arguments of the command line *)

Lemma int_digits_digits (ds : text) :
  forall acc after_digit,
    forallb is_digit ds = true ->
    ds <> [] \/ after_digit = true ->
    int_digits ds acc after_digit
    = Some (fold_left (fun a c => 10 * a + digit_value c)%Z ds acc).
Proof.
  induction ds as [|d ds IH]; intros acc after_digit Hd Hne.
  - destruct Hne as [Hne| ->]; [congruence|reflexivity].
  - simpl in Hd. apply andb_true_iff in Hd. destruct Hd as [H1 H2].
    cbn [int_digits fold_left]. rewrite H1. apply IH; [exact H2|].
    right. reflexivity.
Qed.

Lemma int_digits_str (n : N) :
  int_digits (str_of_N n) 0%Z false = Some (Z.of_N n).
Proof.
  rewrite int_digits_digits.
  - f_equal. apply int_of_digits_str.
  - apply str_of_N_digits.
  - left. destruct (str_of_N_head n) as (c & ds & -> & _). discriminate.
Qed.

Lemma digit_or_minus_no_space (c : ascii) :
  is_digit c || Ascii.eqb c "-" = true -> negb (is_space c) = true.
Proof.
  destruct c as [[] [] [] [] [] [] [] []]; vm_compute; congruence.
Qed.

Lemma str_of_int_nonempty (z : Z) : str_of_int z <> [].
Proof.
  destruct z as [|p|p]; cbn [str_of_int]; try discriminate.
  destruct (str_of_N_head (N.pos p)) as (c & ds & -> & _). discriminate.
Qed.

Lemma strip_str_of_int (z : Z) : strip (str_of_int z) = str_of_int z.
Proof.
  pose proof (strip_trimmed [] (str_of_int z) eq_refl) as H.
  cbn [app] in H. apply H.
  apply no_space_trimmed; [apply str_of_int_nonempty|].
  unfold no_space.
  exact (forallb_impl _ _ _ digit_or_minus_no_space (str_of_int_chars z)).
Qed.

Lemma digit_or_minus_no_c_space (c : ascii) :
  is_digit c || Ascii.eqb c "-" = true -> negb (is_c_space c) = true.
Proof.
  destruct c as [[] [] [] [] [] [] [] []]; vm_compute; congruence.
Qed.

Lemma lstrip_c_fixed (s : text) :
  forallb (fun c => negb (is_c_space c)) s = true -> lstrip_c s = s.
Proof.
  destruct s as [|c s]; [reflexivity|].
  cbn [forallb lstrip_c]. intros H. apply andb_true_iff in H.
  destruct H as [Hc _]. apply negb_true_iff in Hc. rewrite Hc. reflexivity.
Qed.

Lemma strip_c_fixed (s : text) :
  forallb (fun c => negb (is_c_space c)) s = true -> strip_c s = s.
Proof.
  intros H. unfold strip_c. rewrite (lstrip_c_fixed s H).
  rewrite lstrip_c_fixed; [apply rev_involutive|].
  rewrite forallb_forall in *. intros x Hx. apply H, in_rev, Hx.
Qed.

Lemma strip_c_str_of_int (z : Z) : strip_c (str_of_int z) = str_of_int z.
Proof.
  apply strip_c_fixed.
  exact (forallb_impl _ _ _ digit_or_minus_no_c_space (str_of_int_chars z)).
Qed.

Lemma str_of_int_length (z : Z) :
  (Z.abs z < 2 ^ 63)%Z -> length (str_of_int z) <= 65.
Proof.
  intros Hz. destruct z as [|p|p]; cbn [str_of_int].
  - simpl. lia.
  - apply Nat.le_trans with 64; [|lia]. apply str_of_N_length. lia.
  - cbn [length]. apply le_n_S. apply str_of_N_length. lia.
Qed.

Lemma py_int_str_of_int (z : Z) :
  (Z.abs z < 2 ^ 63)%Z -> py_int (str_of_int z) = Some z.
Proof.
  intros Hz. unfold py_int. rewrite strip_c_str_of_int. cbv zeta.
  assert (Hd : (4300 <? length (filter is_digit (str_of_int z))) = false).
  { apply Nat.ltb_ge.
    pose proof (filter_length_le is_digit (str_of_int z)) as H1.
    pose proof (str_of_int_length z Hz) as H2. lia. }
  rewrite Hd. clear Hz Hd.
  destruct z as [|p|p]; cbn [str_of_int].
  - reflexivity.
  - pose proof (int_digits_str (N.pos p)) as H.
    destruct (str_of_N_head (N.pos p)) as (c & ds & E & Hc & _).
    rewrite E in *.
    destruct c as [[] [] [] [] [] [] [] []]; try discriminate Hc; exact H.
  - rewrite (int_digits_str (N.pos p)). reflexivity.
Qed.

(** Round trip: [int] reads back the integer that [str] printed.  The
    interpreter refuses a text of more than 4300 digits, and the statement
    is kept to integers of machine size. *)
Theorem py_int_str (z : Z) :
  (Z.abs z < 2 ^ 63)%Z -> py_int (str_of_int z) = Some z.
Proof. apply py_int_str_of_int. Qed.

Lemma py_int_str_witness : py_int (str_of_int (-42)) = Some (-42)%Z.
Proof. apply (py_int_str (-42)). reflexivity. Defined.

Lemma str_of_int_not_file (z : Z) : startswith (T "@") (str_of_int z) = false.
Proof.
  pose proof (str_of_int_chars z) as H.
  pose proof (str_of_int_nonempty z) as Hne.
  destruct (str_of_int z) as [|c s]; [congruence|].
  simpl in H. apply andb_true_iff in H. destruct H as [Hc _].
  change (startswith (T "@") (c :: s))
    with (Ascii.eqb "@" c && true).
  destruct c as [[] [] [] [] [] [] [] []]; try discriminate Hc; reflexivity.
Qed.

(** Integers printed in decimal are read by the loop of [main] as scalar
    arguments, in their order, whatever the data files are. *)
Theorem parse_arguments_scalars (w : world) (zs : list Z) :
  forall int_args array_args,
    forallb (fun z => (Z.abs z <? 2 ^ 63)%Z) zs = true ->
    parse_arguments w (map str_of_int zs) int_args array_args
    = Some (int_args ++ zs, array_args).
Proof.
  induction zs as [|z zs IH]; intros int_args array_args Hb.
  - cbn [map parse_arguments]. rewrite app_nil_r. reflexivity.
  - simpl in Hb. apply andb_true_iff in Hb. destruct Hb as [Hz Hb].
    cbn [map parse_arguments].
    apply Z.ltb_lt in Hz.
    rewrite str_of_int_not_file, (py_int_str_of_int z Hz), (IH _ _ Hb).
    rewrite <- app_assoc. reflexivity.
Qed.

Lemma parse_arguments_scalars_witness :
  parse_arguments addone_world (map str_of_int [4; -7; 0]%Z) [] []
  = Some ([] ++ [4; -7; 0]%Z, []).
Proof.
  apply (parse_arguments_scalars addone_world [4; -7; 0]%Z [] []).
  reflexivity.
Defined.

(** ** The fallback of the generator *)

Lemma chunk_lines_indent (fuel : nat) :
  forall arr_data line,
    In line (chunk_lines fuel arr_data) -> hd_error line = Some " "%char.
Proof.
  induction fuel as [|fuel IH]; intros arr_data line H; [destruct H|].
  cbn [chunk_lines] in H. destruct arr_data as [|x rest]; [destruct H|].
  destruct H as [<- | H]; [reflexivity|]. exact (IH _ _ H).
Qed.

Lemma array_declarations_indent (params : list (text * text)) :
  forall array_args line,
    In line (array_declarations params array_args) ->
    hd_error line = Some " "%char.
Proof.
  induction params as [|[t n] params IH]; intros array_args line H;
    [destruct H|].
  cbn [array_declarations] in H.
  destruct (is_pointer t && negb (is_output_name n)).
  - destruct array_args as [|arr_data more]; [exact (IH _ _ H)|].
    apply in_app_or in H. destruct H as [H|H]; [|exact (IH _ _ H)].
    unfold array_declaration in H. destruct H as [<- | H]; [reflexivity|].
    apply in_app_or in H. destruct H as [H|H].
    + exact (chunk_lines_indent _ _ _ H).
    + destruct H as [<- | []]. reflexivity.
  - exact (IH _ _ H).
Qed.

(** When the body of the function cannot be read, or is empty, a wrapper
    asked for with inlining calls the function all the same; its first line
    includes [stdlib.h], and no line includes the header of the
    function. *)
Theorem generate_fallback_without_header
        (py : interpreter) (func_sig : FunctionSignature)
        (c_file : option text) (int_args : list Z)
        (array_args : list (list float)) (size : Z) :
  read_function_body (fs_name func_sig) c_file = None
  \/ read_function_body (fs_name func_sig) c_file = Some [] ->
  exists lines,
    generate_lines py func_sig c_file int_args array_args size true
    = Some lines
    /\ hd_error lines = Some (T "#include <stdlib.h>")
    /\ In (call_line func_sig int_args) lines
    /\ ~ In (header_include func_sig) lines.
Proof.
  intros Hb.
  assert (E : body_lines py func_sig c_file int_args true
              = Some [call_line func_sig int_args; []]).
  { unfold body_lines. destruct Hb as [-> | ->]; reflexivity. }
  unfold generate_lines. rewrite E. cbn [negb].
  eexists. split; [reflexivity|]. split; [reflexivity|]. split.
  - do 4 right. apply in_or_app. right. apply in_or_app. right.
    apply in_or_app. left. left. reflexivity.
  - assert (Hh : hd_error (header_include func_sig) = Some "#"%char)
      by reflexivity.
    intros H.
    destruct H as [H|[H|[H|[H|H]]]].
    + unfold header_include in H. cbn in H. discriminate H.
    + unfold header_include in H. cbn in H. discriminate H.
    + rewrite <- H in Hh. discriminate Hh.
    + rewrite <- H in Hh. discriminate Hh.
    + apply in_app_or in H. destruct H as [H|H].
      * apply array_declarations_indent in H. rewrite Hh in H.
        discriminate H.
      * apply in_app_or in H. destruct H as [H|H].
        -- destruct H as [H|[H|[]]]; rewrite <- H in Hh; discriminate Hh.
        -- apply in_app_or in H. destruct H as [H|H].
           ++ destruct H as [H|[H|[]]]; rewrite <- H in Hh; discriminate Hh.
           ++ unfold print_lines in H.
              repeat (destruct H as [H|H];
                      [rewrite <- H in Hh; discriminate Hh|]).
              destruct H.
Qed.

Lemma generate_fallback_without_header_witness :
  exists lines,
    generate_lines (fun _ _ => Silent) addone_sig None [4%Z] [] 4 true
    = Some lines
    /\ hd_error lines = Some (T "#include <stdlib.h>")
    /\ In (call_line addone_sig [4%Z]) lines
    /\ ~ In (header_include addone_sig) lines.
Proof.
  apply (generate_fallback_without_header (fun _ _ => Silent) addone_sig
           None [4%Z] [] 4).
  left. reflexivity.
Defined.

(** ** The expression simplifier: fixpoints *)

Lemma rmatch_nogroup (r : regex) :
  nogroup r = true ->
  forall (R : Type) prev s caps
         (k : option ascii -> text -> captures -> option R) y,
    rmatch r R prev s caps k = Some y ->
    exists prev' pre s', s = pre ++ s' /\ k prev' s' caps = Some y.
Proof.
  induction r as [ |c|p|r1 IH1 r2 IH2|r1 IH1 r2 IH2|p|p|n r IH| |r IH|r IH];
    intros Hg R prev s caps k y H; cbn [nogroup] in Hg; try discriminate Hg;
    cbn [rmatch] in H.
  - exists prev, [], s. auto.
  - destruct s as [|a s]; [discriminate|].
    destruct (Ascii.eqb a c); [|discriminate].
    exists (Some a), [a], s. auto.
  - destruct s as [|a s]; [discriminate|].
    destruct (p a); [|discriminate].
    exists (Some a), [a], s. auto.
  - apply andb_true_iff in Hg. destruct Hg as [H1 H2].
    apply (IH1 H1) in H. destruct H as (p1 & pre1 & s1 & -> & H).
    apply (IH2 H2) in H. destruct H as (p2 & pre2 & s2 & -> & H).
    exists p2, (pre1 ++ pre2), s2. rewrite <- app_assoc. auto.
  - apply andb_true_iff in Hg. destruct Hg as [H1 H2].
    destruct (rmatch r1 R prev s caps k) as [z|] eqn:E.
    + injection H as ->. exact (IH1 H1 _ _ _ _ _ _ E).
    + exact (IH2 H2 _ _ _ _ _ _ H).
  - apply star_inv in H. destruct H as (w & s' & prev' & -> & _ & H).
    exists prev', w, s'. auto.
  - destruct s as [|a s]; [discriminate|].
    destruct (p a); [|discriminate].
    apply star_inv in H. destruct H as (w & s' & prev' & -> & _ & H).
    exists prev', (a :: w), s'. auto.
  - destruct (at_boundary prev s); [|discriminate].
    exists prev, [], s. auto.
  - destruct (rmatch r unit prev s caps (fun _ _ _ => Some tt));
      [|discriminate].
    exists prev, [], s. auto.
  - destruct (rmatch r unit prev s caps (fun _ _ _ => Some tt));
      [discriminate|].
    exists prev, [], s. auto.
Qed.

Lemma weight_app (a b : captures) : weight (a ++ b) = weight a + weight b.
Proof.
  induction a as [|[n t] a IH]; [reflexivity|].
  simpl. rewrite IH. lia.
Qed.

(** A match of a pattern with flat groups is at least as long as the texts
    it captures and the characters it needs outside them. *)
Lemma rmatch_flat (r : regex) :
  flat r = true ->
  forall (R : Type) prev s caps
         (k : option ascii -> text -> captures -> option R) y,
    rmatch r R prev s caps k = Some y ->
    exists prev' pre s' new,
      s = pre ++ s' /\ k prev' s' (new ++ caps) = Some y
      /\ weight new + outside r <= length pre.
Proof.
  induction r as [ |c|p|r1 IH1 r2 IH2|r1 IH1 r2 IH2|p|p|n r IH| |r IH|r IH];
    intros Hf R prev s caps k y H; cbn [flat] in Hf.
  - exists prev, [], s, []. auto.
  - cbn [rmatch] in H. destruct s as [|a s]; [discriminate|].
    destruct (Ascii.eqb a c); [|discriminate].
    exists (Some a), [a], s, []. auto.
  - cbn [rmatch] in H. destruct s as [|a s]; [discriminate|].
    destruct (p a); [|discriminate].
    exists (Some a), [a], s, []. auto.
  - rewrite rmatch_RSeq in H. apply andb_true_iff in Hf.
    destruct Hf as [H1 H2].
    apply (IH1 H1) in H. destruct H as (p1 & pre1 & s1 & n1 & -> & H & L1).
    apply (IH2 H2) in H. destruct H as (p2 & pre2 & s2 & n2 & -> & H & L2).
    exists p2, (pre1 ++ pre2), s2, (n2 ++ n1).
    rewrite <- !app_assoc. split; [reflexivity|]. split; [exact H|].
    rewrite weight_app, length_app. cbn [outside]. lia.
  - rewrite rmatch_RAlt in H. apply andb_true_iff in Hf.
    destruct Hf as [H1 H2]. cbn [outside].
    destruct (rmatch r1 R prev s caps k) as [z|] eqn:E.
    + injection H as ->.
      destruct (IH1 H1 _ _ _ _ _ _ E) as (p1 & pre1 & s1 & n1 & Es & Hk & L).
      exists p1, pre1, s1, n1. split; [exact Es|]. split; [exact Hk|]. lia.
    + destruct (IH2 H2 _ _ _ _ _ _ H) as (p1 & pre1 & s1 & n1 & Es & Hk & L).
      exists p1, pre1, s1, n1. split; [exact Es|]. split; [exact Hk|]. lia.
  - cbn [rmatch] in H.
    apply star_inv in H. destruct H as (w & s' & prev' & -> & _ & H).
    exists prev', w, s', []. simpl. split; [reflexivity|].
    split; [exact H|lia].
  - cbn [rmatch] in H. destruct s as [|a s]; [discriminate|].
    destruct (p a); [|discriminate].
    apply star_inv in H. destruct H as (w & s' & prev' & -> & _ & H).
    exists prev', (a :: w), s', []. simpl. split; [reflexivity|].
    split; [exact H|lia].
  - rewrite rmatch_RGroup in H.
    apply (rmatch_nogroup r Hf) in H.
    destruct H as (prev' & pre & s' & -> & H).
    rewrite firstn_app_exact in H.
    exists prev', pre, s', [(n, pre)]. simpl. split; [reflexivity|].
    split; [exact H|lia].
  - cbn [rmatch] in H. destruct (at_boundary prev s); [|discriminate].
    exists prev, [], s, []. auto.
  - cbn [rmatch] in H.
    destruct (rmatch r unit prev s caps (fun _ _ _ => Some tt));
      [|discriminate].
    exists prev, [], s, []. auto.
  - cbn [rmatch] in H.
    destruct (rmatch r unit prev s caps (fun _ _ _ => Some tt));
      [discriminate|].
    exists prev, [], s, []. auto.
Qed.

Lemma match_at_flat (r : regex) (prev : option ascii) (s rest : text)
      (caps : captures) :
  flat r = true ->
  match_at r prev s = Some (rest, caps) ->
  weight caps + outside r <= length s - length rest.
Proof.
  intros Hf H. unfold match_at in H. apply (rmatch_flat r Hf) in H.
  destruct H as (prev' & pre & s' & new & -> & H & L).
  injection H as <- <-. rewrite app_nil_r, length_app. lia.
Qed.

Lemma group_weight (n : nat) (caps : captures) :
  length (group n caps) <= weight caps.
Proof.
  induction caps as [|[m t] caps IH]; simpl; [lia|].
  destruct (Nat.eqb m n); lia.
Qed.

Lemma group_pair_weight (n1 n2 : nat) (caps : captures) :
  n1 <> n2 ->
  length (group n1 caps) + length (group n2 caps) <= weight caps.
Proof.
  intros Hn. induction caps as [|[m t] caps IH]; simpl; [lia|].
  pose proof (group_weight n1 caps). pose proof (group_weight n2 caps).
  destruct (Nat.eqb m n1) eqn:E1; destruct (Nat.eqb m n2) eqn:E2; try lia.
  apply Nat.eqb_eq in E1, E2. congruence.
Qed.

(** Where the pattern matches nowhere, [re.sub] returns its argument. *)
Lemma sub_loop_no_match (St : Type) (r : regex)
      (f : St -> text -> captures -> text * St) (s : text) :
  forall prev before st,
    search_from r prev before s = None ->
    sub_loop r f prev s 0 st = (s, st).
Proof.
  induction s as [|c s IH]; intros prev before st H;
    cbn [search_from] in H; cbn [sub_loop].
  - destruct (match_at r prev []) as [[rest caps]|]; [discriminate|].
    reflexivity.
  - destruct (match_at r prev (c :: s)) as [[rest caps]|]; [discriminate|].
    rewrite (IH _ _ st H). reflexivity.
Qed.

Lemma re_sub_no_match (r : regex) (f : text -> captures -> text) (s : text) :
  has_match r s = false -> re_sub r f s = s.
Proof.
  unfold has_match, re_search, re_sub, re_sub_st. intros H.
  destruct (search_from r None [] s) eqn:E; [discriminate|].
  rewrite (sub_loop_no_match unit r _ s None [] tt E). reflexivity.
Qed.

(** A replacement shorter than the text it replaces makes the whole text
    shorter wherever the pattern matches. *)
Section Shrink.
Variable r : regex.
Variable f : text -> captures -> text.
Hypothesis shrink :
  forall prev t rest caps,
    match_at r prev t = Some (rest, caps) ->
    length (f (firstn (length t - length rest) t) caps)
    < length t - length rest.

Lemma sub_loop_length (s : text) :
  forall prev skip,
    skip <= length s ->
    length (fst (sub_loop r (fun (st : unit) m caps => (f m caps, st))
                   prev s skip tt)) + skip
    <= length s.
Proof.
  induction s as [|c s IH]; intros prev skip Hk; cbn [sub_loop].
  - destruct skip as [|k]; [|simpl in Hk; lia].
    destruct (match_at r prev []) as [[rest caps]|] eqn:E; [|simpl; lia].
    apply shrink in E. simpl in E. lia.
  - destruct skip as [|k].
    + destruct (match_at r prev (c :: s)) as [[rest caps]|] eqn:E.
      * pose proof (shrink _ _ _ _ E) as L.
        destruct (length (c :: s) - length rest) as [|m] eqn:El; [lia|].
        assert (Hm : m <= length s) by (cbn [length] in El; lia).
        pose proof (IH (Some c) m Hm) as L2.
        destruct (sub_loop r (fun (st : unit) m0 caps0 => (f m0 caps0, st))
                    (Some c) s m tt) as [out st2].
        cbn [fst] in *. rewrite length_app. cbn [length]. lia.
      * pose proof (IH (Some c) 0 (Nat.le_0_l _)) as L2.
        destruct (sub_loop r (fun (st : unit) m0 caps0 => (f m0 caps0, st))
                    (Some c) s 0 tt) as [out st2].
        cbn [fst length] in *. lia.
    + cbn [length] in Hk.
      pose proof (IH (Some c) k ltac:(lia)) as L. cbn [length]. lia.
Qed.

Lemma sub_loop_shrinks (s : text) :
  forall prev before,
    search_from r prev before s <> None ->
    length (fst (sub_loop r (fun (st : unit) m caps => (f m caps, st))
                   prev s 0 tt))
    < length s.
Proof.
  induction s as [|c s IH]; intros prev before H;
    cbn [search_from] in H; cbn [sub_loop].
  - destruct (match_at r prev []) as [[rest caps]|] eqn:E; [|congruence].
    apply shrink in E. simpl in E. lia.
  - destruct (match_at r prev (c :: s)) as [[rest caps]|] eqn:E.
    + pose proof (shrink _ _ _ _ E) as L.
      destruct (length (c :: s) - length rest) as [|m] eqn:El; [lia|].
      assert (Hm : m <= length s) by (cbn [length] in El; lia).
      pose proof (sub_loop_length s (Some c) m Hm) as L2.
      destruct (sub_loop r (fun (st : unit) m0 caps0 => (f m0 caps0, st))
                  (Some c) s m tt) as [out st2].
      cbn [fst] in *. rewrite length_app. cbn [length]. lia.
    + pose proof (IH (Some c) (c :: before) H) as L2.
      destruct (sub_loop r (fun (st : unit) m0 caps0 => (f m0 caps0, st))
                  (Some c) s 0 tt) as [out st2].
      cbn [fst length] in *. lia.
Qed.

Lemma re_sub_length (s : text) : length (re_sub r f s) <= length s.
Proof.
  unfold re_sub, re_sub_st.
  pose proof (sub_loop_length s None 0 (Nat.le_0_l _)). lia.
Qed.

Lemma re_sub_shrinks (s : text) :
  has_match r s = true -> length (re_sub r f s) < length s.
Proof.
  unfold has_match, re_search, re_sub, re_sub_st. intros H.
  apply (sub_loop_shrinks s None []).
  destruct (search_from r None [] s); [discriminate|discriminate H].
Qed.
End Shrink.

(** Each rule of the simplifier replaces a match by a shorter text. *)
Lemma paren_zero_shrinks (op : ascii) :
  forall prev t rest caps,
    match_at (paren_zero_pattern op) prev t = Some (rest, caps) ->
    length (group1 (firstn (length t - length rest) t) caps)
    < length t - length rest.
Proof.
  intros prev t rest caps H.
  apply (match_at_flat (paren_zero_pattern op) _ _ _ _ eq_refl) in H.
  change (outside (paren_zero_pattern op)) with 6 in H.
  unfold group1. pose proof (group_weight 1 caps). lia.
Qed.

Lemma zero_shrinks :
  forall prev t rest caps,
    match_at zero_pattern prev t = Some (rest, caps) ->
    length ((fun (_ : text) (_ : captures) => T "0")
              (firstn (length t - length rest) t) caps)
    < length t - length rest.
Proof.
  intros prev t rest caps H.
  apply (match_at_flat zero_pattern _ _ _ _ eq_refl) in H.
  change (outside zero_pattern) with 3 in H. simpl. lia.
Qed.

Lemma product_shrinks :
  forall prev t rest caps,
    match_at product_pattern prev t = Some (rest, caps) ->
    length (group1_times_group2 (firstn (length t - length rest) t) caps)
    < length t - length rest.
Proof.
  intros prev t rest caps H.
  apply (match_at_flat product_pattern _ _ _ _ eq_refl) in H.
  change (outside product_pattern) with 5 in H.
  unfold group1_times_group2. rewrite !length_app.
  change (length (T " * ")) with 3.
  pose proof (group_pair_weight 1 2 caps ltac:(discriminate)). lia.
Qed.

Lemma lstrip_length (s : text) : length (lstrip s) <= length s.
Proof.
  induction s as [|c s IH]; simpl; [lia|].
  destruct (is_space c); simpl; lia.
Qed.

Lemma strip_length (s : text) : length (strip s) <= length s.
Proof.
  unfold strip, rstrip. rewrite length_rev.
  pose proof (lstrip_length (rev (lstrip s))) as H1.
  rewrite length_rev in H1.
  pose proof (lstrip_length s). lia.
Qed.

(** The fixpoints of [simplify_expression] are the texts with no white
    space at their ends in which no rule applies. *)
Lemma simplify_expression_fixpoint (s : text) :
  simplify_expression s = s <-> redex_free s = true /\ strip s = s.
Proof.
  unfold simplify_expression, redex_free. cbv zeta.
  pose proof (re_sub_length _ _ (paren_zero_shrinks "-") s) as L1.
  pose proof (re_sub_length _ _ (paren_zero_shrinks "+")
                (re_sub (paren_zero_pattern "-") group1 s)) as L2.
  pose proof (re_sub_length _ _ zero_shrinks
                (re_sub (paren_zero_pattern "+") group1
                   (re_sub (paren_zero_pattern "-") group1 s))) as L3.
  pose proof (re_sub_length _ _ product_shrinks
                (re_sub zero_pattern (fun _ _ => T "0")
                   (re_sub (paren_zero_pattern "+") group1
                      (re_sub (paren_zero_pattern "-") group1 s)))) as L4.
  pose proof (strip_length
                (re_sub product_pattern group1_times_group2
                   (re_sub zero_pattern (fun _ _ => T "0")
                      (re_sub (paren_zero_pattern "+") group1
                         (re_sub (paren_zero_pattern "-") group1 s)))))
    as L5.
  destruct (has_match (paren_zero_pattern "-") s) eqn:M1.
  { pose proof (re_sub_shrinks _ _ (paren_zero_shrinks "-") s M1) as S1.
    split; [|intros [H _]; discriminate H].
    intros E. apply (f_equal (@length ascii)) in E. lia. }
  rewrite (re_sub_no_match _ group1 s M1) in *.
  destruct (has_match (paren_zero_pattern "+") s) eqn:M2.
  { pose proof (re_sub_shrinks _ _ (paren_zero_shrinks "+") s M2) as S2.
    split; [|intros [H _]; discriminate H].
    intros E. apply (f_equal (@length ascii)) in E. lia. }
  rewrite (re_sub_no_match _ group1 s M2) in *.
  destruct (has_match zero_pattern s) eqn:M3.
  { pose proof (re_sub_shrinks _ _ zero_shrinks s M3) as S3.
    split; [|intros [H _]; discriminate H].
    intros E. apply (f_equal (@length ascii)) in E. lia. }
  rewrite (re_sub_no_match _ (fun _ _ => T "0") s M3) in *.
  destruct (has_match product_pattern s) eqn:M4.
  { pose proof (re_sub_shrinks _ _ product_shrinks s M4) as S4.
    split; [|intros [H _]; discriminate H].
    intros E. apply (f_equal (@length ascii)) in E. lia. }
  rewrite (re_sub_no_match _ group1_times_group2 s M4).
  cbn [negb andb]. split; [intros E; split; [reflexivity|exact E]|].
  intros [_ E]. exact E.
Qed.

Lemma simplify_expression_stripped (e : text) :
  strip (simplify_expression e) = simplify_expression e.
Proof. unfold simplify_expression. apply strip_idempotent. Qed.

(** C2 (amended).  [simplify_expression] is a fixpoint of itself on [e]
    exactly when no rule applies any more in its result: no match of
    [(X - (0))], of [(X + (0))], of [(0)] or of [(X) * (Y)] is left in
    [simplify_expression e].  Parentheses that are part of no such match,
    as in [(a + b) * c], do not stand in the way. *)
Theorem simplify_idempotent_iff_reduced :
  forall e : text,
    simplify_expression (simplify_expression e) = simplify_expression e
    <-> redex_free (simplify_expression e) = true.
Proof.
  intros e. rewrite simplify_expression_fixpoint. split.
  - intros [H _]. exact H.
  - intros H. split; [exact H|apply simplify_expression_stripped].
Qed.

Lemma simplify_idempotent_iff_reduced_witness :
  redex_free (simplify_expression (T "(a + b) * c + f((x) * (y))")) = true
  /\ simplify_expression
       (simplify_expression (T "(a + b) * c + f((x) * (y))"))
     = simplify_expression (T "(a + b) * c + f((x) * (y))").
Proof.
  assert (H : redex_free (simplify_expression (T "(a + b) * c + f((x) * (y))"))
              = true) by (vm_compute; reflexivity).
  split; [exact H|].
  apply (proj2 (simplify_idempotent_iff_reduced
                  (T "(a + b) * c + f((x) * (y))")) H).
Defined.
